(** * followthemoney: schema hierarchy resolution and validation

    A shallow embedding of [followthemoney/schema.py].  A [Schema] object is
    a record held in the model's table of schemata; Python's sets of schema
    objects become finite sets of references, its dictionaries finite maps,
    and the [Property] objects shared between a schema and its descendants
    live in a store addressed by location, so that two schemata holding the
    same location hold the same object.  Dictionary iteration order is not
    represented.

    In Python a reference always denotes an object.  The functions here are
    total: reading through a name or a location that holds no object sees
    nothing, and writing to it changes nothing.  No state that comes from
    constructing and generating schemata has such a reference.

    [Property], the model's table and the text and value helpers are defined
    outside [schema.py]; what the schema code needs from them is gathered in
    the class [Collaborators]. *)

From stdpp Require Import gmap strings list fin_maps fin_sets sorting.

#[global] Set Warnings "-clear-no-such-hyp".

(** ** References *)

(** Address of a [Property] object. *)
Abbreviation loc := positive.

(** A reference to a [Schema] object.  [Schema.__eq__] and [Schema.__hash__]
    compare [hash("<Schema(%r)>" % name)], so a set of schemata identifies a
    schema with its name; the object itself is the one the model holds under
    that name. *)
Inductive SchemaRef := Ref (n : string).

Definition ref_name (r : SchemaRef) : string := let 'Ref n := r in n.

#[global] Instance SchemaRef_eq_dec : EqDecision SchemaRef.
Proof. solve_decision. Defined.

#[global] Instance SchemaRef_countable : Countable SchemaRef.
Proof. refine (inj_countable' ref_name Ref _). by intros []. Defined.

(** ** Specifications (the TypedDicts) *)

Record ReverseSpec := mkReverseSpec {
  rev_name : option string;
  rev_label : option string;
  rev_hidden : option bool;
}.

Record PropertySpec := mkPropertySpec {
  ps_label : option string;
  ps_type : option string;
  ps_reverse : option ReverseSpec;
  ps_range : option string;
  ps_hidden : option bool;
}.

(** [EdgeSpec], [total=False]: an absent key is [None] (or the empty list). *)
Record EdgeSpec := mkEdgeSpec {
  es_source : option string;
  es_target : option string;
  es_caption : list string;
  es_label : option string;
  es_directed : option bool;
}.

(** [SchemaSpec], [total=False]. *)
Record SchemaSpec := mkSchemaSpec {
  spec_label : option string;
  spec_plural : option string;
  spec_extends : list string;
  spec_properties : gmap string PropertySpec;
  spec_featured : list string;
  spec_required : list string;
  spec_caption : list string;
  spec_edge : option EdgeSpec;
  spec_description : option string;
  spec_rdf : option string;
  spec_abstract : option bool;
  spec_hidden : option bool;
  spec_generated : option bool;
  spec_matchable : option bool;
}.

(** [banal.as_bool] on a value typed [bool]: the value, or the default when
    there is none. *)
Definition as_bool (value : option bool) (dflt : bool) : bool :=
  match value with
  | Some b => b
  | None => dflt
  end.

(** ** Property objects *)

(** Modelled from the spec: the [Property] class (followthemoney/property.py)
    is not part of schema.py.  A property is constructible from its owning
    schema, its name and its specification; it exposes [schema], [name] and
    [hidden] and can be marked as a stub. *)
Record Property := mkProperty {
  prop_schema : SchemaRef;
  prop_name : string;
  prop_data : PropertySpec;
  prop_hidden : bool;
  prop_stub : bool;
}.

(** Modelled from the spec: the constructor [Property(schema, name, data)]. *)
Definition Property_new (schema : SchemaRef) (name : string) (data : PropertySpec)
  : Property :=
  mkProperty schema name data (as_bool (ps_hidden data) false) false.

Definition set_stub (b : bool) (p : Property) : Property :=
  mkProperty (prop_schema p) (prop_name p) (prop_data p) (prop_hidden p) b.

(** ** Schema objects *)

(** The slots of [Schema] ([model] is the enclosing [Model], [_hash] is
    determined by [name]). *)
Record Schema := mkSchema {
  name : string;
  _label : string;
  _plural : string;
  _description : option string;
  uri : string;
  abstract : bool;
  hidden : bool;
  generated : bool;
  matchable : bool;
  featured : list string;
  required : list string;
  caption : list string;
  edge_source : option string;
  edge_target : option string;
  edge : bool;
  edge_caption : list string;
  _edge_label : string;
  edge_directed : bool;
  _extends : list string;
  extends : gset SchemaRef;
  schemata : gset SchemaRef;
  names : gset string;
  descendants : gset SchemaRef;
  _matchable_schemata : option (gset SchemaRef);
  properties : gmap string loc;
}.

(** The slots written after construction. *)
Definition rebuild (s : Schema) (ext sch : gset SchemaRef) (nms : gset string)
    (desc : gset SchemaRef) (cache : option (gset SchemaRef))
    (props : gmap string loc) : Schema :=
  mkSchema (name s) (_label s) (_plural s) (_description s) (uri s)
    (abstract s) (hidden s) (generated s) (matchable s)
    (featured s) (required s) (caption s)
    (edge_source s) (edge_target s) (edge s) (edge_caption s)
    (_edge_label s) (edge_directed s) (_extends s)
    ext sch nms desc cache props.

Definition set_extends (f : gset SchemaRef → gset SchemaRef) (s : Schema) :=
  rebuild s (f (extends s)) (schemata s) (names s) (descendants s)
    (_matchable_schemata s) (properties s).

Definition set_schemata (f : gset SchemaRef → gset SchemaRef) (s : Schema) :=
  rebuild s (extends s) (f (schemata s)) (names s) (descendants s)
    (_matchable_schemata s) (properties s).

Definition set_names (f : gset string → gset string) (s : Schema) :=
  rebuild s (extends s) (schemata s) (f (names s)) (descendants s)
    (_matchable_schemata s) (properties s).

Definition set_descendants (f : gset SchemaRef → gset SchemaRef) (s : Schema) :=
  rebuild s (extends s) (schemata s) (names s) (f (descendants s))
    (_matchable_schemata s) (properties s).

Definition set_matchable_schemata (c : option (gset SchemaRef)) (s : Schema) :=
  rebuild s (extends s) (schemata s) (names s) (descendants s) c (properties s).

Definition set_properties (f : gmap string loc → gmap string loc) (s : Schema) :=
  rebuild s (extends s) (schemata s) (names s) (descendants s)
    (_matchable_schemata s) (f (properties s)).

(** ** The model: schema objects by name, property objects by address *)

Record Model := mkModel {
  schemas : gmap string Schema;
  heap : gmap loc Property;
}.

(** In-place update of the schema object held under [k]. *)
Definition update (k : string) (f : Schema → Schema) (m : Model) : Model :=
  mkModel (alter f k (schemas m)) (heap m).

(** Modelled from the spec: the registry's [lookup(name)] ([Model.get]). *)
Definition model_get (m : Model) (name : string) : option Schema :=
  schemas m !! name.

(** [ancestor.name] for a referenced schema object. *)
Definition name_of (r : gmap string Schema) (a : SchemaRef) : string :=
  match r !! ref_name a with
  | Some s => name s
  | None => ref_name a
  end.

(** A change made to the schema objects only. *)
Definition on_schemas (f : gmap string Schema → gmap string Schema) (m : Model)
  : Model :=
  mkModel (f (schemas m)) (heap m).

(** ** Exceptions and outcomes *)

Inductive fmt_arg :=
| ArgStr (s : string)
| ArgOptStr (o : option string)
| ArgProperty (p : Property).

(** A message is kept as its format string and the interpolated value. *)
Inductive message :=
| Plain (text : string)
| Format (template : string) (arg : fmt_arg).

Inductive exn :=
| InvalidData (msg : message) (errors : gmap string string)
| InvalidModel (msg : message).

(** The result of running a method from a model state: it returns, it raises
    (the state reached so far stays), or the recursion does not end. *)
Inductive outcome (A : Type) :=
| Done (a : A) (m : Model)
| Raised (e : exn) (m : Model)
| Diverged.

Arguments Done {A} a m.
Arguments Raised {A} e m.
Arguments Diverged {A}.

Definition outcome_state {A} (o : outcome A) : option Model :=
  match o with
  | Done _ m => Some m
  | Raised _ m => Some m
  | Diverged => None
  end.

Definition seq (f g : Model → outcome unit) (m : Model) : outcome unit :=
  match f m with
  | Done _ m' => g m'
  | o => o
  end.

Fixpoint for_each {A} (body : A → Model → outcome unit) (l : list A)
    (m : Model) : outcome unit :=
  match l with
  | [] => Done tt m
  | x :: l' => seq (body x) (for_each body l') m
  end.

(** ** Values handed to [validate] *)

(** What [data["properties"][name]] may hold: nothing, one value or a list. *)
Inductive PyValues (V : Type) :=
| PyNone
| PyScalar (v : V)
| PyList (vs : list V).

Arguments PyNone {V}.
Arguments PyScalar {V} v.
Arguments PyList {V} vs.

(** [banal.ensure_list]. *)
Definition ensure_list {V} (obj : PyValues V) : list V :=
  match obj with
  | PyNone => []
  | PyScalar v => [v]
  | PyList vs => vs
  end.

(** [banal.ensure_dict] of [data.get(key)]. *)
Definition ensure_dict {K} `{Countable K} {A} (obj : option (gmap K A)) : gmap K A :=
  match obj with
  | Some d => d
  | None => ∅
  end.

(** The entity data given to [validate]: a mapping whose ["properties"] key,
    when present, maps property names to values. *)
Record EntityData (V : Type) := mkEntityData {
  data_properties : option (gmap string (PyValues V));
}.

Arguments mkEntityData {V} _.
Arguments data_properties {V} _.

(** ** Collaborators of the schema code *)

Class Collaborators := {
  (** a property value *)
  Value : Type;
  (** the serialised form of a property *)
  PropertyToDict : Type;
  (** [followthemoney.util.gettext] *)
  gettext : string → string;
  (** [followthemoney.rdf.NS[name]] *)
  NS : string → string;
  (** [registry.entity.name] *)
  registry_entity_name : string;
  (** [prop.generate()]: the state it leaves, and the exception if it raises *)
  Property_generate : loc → Model → Model * option exn;
  (** [prop.validate(values)] *)
  Property_validate : Property → list Value → option string;
  (** [prop.to_dict()] *)
  Property_to_dict : Property → PropertyToDict;
}.

(** [SchemaToDict], [total=False]: a key that is not written is [None]. *)
Record SchemaToDict {ext : Collaborators} := mkSchemaToDict {
  td_label : option string;
  td_plural : option string;
  td_schemata : option (list string);
  td_extends : option (list string);
  td_properties : option (gmap string PropertyToDict);
  td_featured : option (list string);
  td_required : option (list string);
  td_caption : option (list string);
  td_edge : option EdgeSpec;
  td_description : option string;
  td_abstract : option bool;
  td_hidden : option bool;
  td_generated : option bool;
  td_matchable : option bool;
}.

Arguments mkSchemaToDict {ext}.

(** ** The methods of [Schema] *)

Section Operations.
Context `{ext : Collaborators}.

(** *** Construction *)

Definition empty_edge : EdgeSpec := mkEdgeSpec None None [] None None.

(** [Property(self, name, prop)] for every entry of [data["properties"]]: each
    call makes a new object. *)
Definition init_properties (self : SchemaRef) (specs : gmap string PropertySpec)
    (h : gmap loc Property) : gmap string loc * gmap loc Property :=
  map_fold (λ pname pspec acc,
              let l := fresh (dom (snd acc)) in
              (<[pname := l]> (fst acc),
               <[l := Property_new self pname pspec]> (snd acc)))
           (∅, h) specs.

(** [Schema.__init__(model, name, data)], allocating its properties in [h]. *)
Definition Schema_init (nm : string) (data : SchemaSpec) (h : gmap loc Property)
  : Schema * gmap loc Property :=
  let label_ := default nm (spec_label data) in
  let plural_ := default (gettext label_) (spec_plural data) in
  let abstract_ := as_bool (spec_abstract data) false in
  let hidden_ := as_bool (spec_hidden data) false in
  let hidden_ := hidden_ && negb abstract_ in
  let edge_ := default empty_edge (spec_edge data) in
  let source := es_source edge_ in
  let target := es_target edge_ in
  let props := init_properties (Ref nm) (spec_properties data) h in
  (mkSchema nm label_ plural_ (spec_description data)
     (default (NS nm) (spec_rdf data))
     abstract_ hidden_
     (as_bool (spec_generated data) false)
     (as_bool (spec_matchable data) true)
     (spec_featured data) (spec_required data) (spec_caption data)
     source target
     (bool_decide (source ≠ None) && bool_decide (target ≠ None))
     (es_caption edge_)
     (default label_ (es_label edge_))
     (as_bool (Some (default true (es_directed edge_))) false)
     (spec_extends data)
     ∅ {[Ref nm]} {[nm]} ∅ None
     (fst props),
   snd props).

(** *** Display text *)

Definition label (s : Schema) : string := gettext (_label s).
Definition plural (s : Schema) : string := gettext (_plural s).
Definition description (s : Schema) : option string := gettext <$> _description s.
Definition edge_label (s : Schema) : option string := Some (gettext (_edge_label s)).

(** *** Property lookup *)

Definition get (s : Schema) (name : option string) : option loc :=
  match name with
  | None => None
  | Some n => properties s !! n
  end.

Definition source_prop (s : Schema) : option loc := get s (edge_source s).
Definition target_prop (s : Schema) : option loc := get s (edge_target s).

Definition is_a (m : Model) (s : Schema) (other : string) : bool :=
  match model_get m other with
  | Some _ => bool_decide (Ref other ∈ schemata s)
  | None => false
  end.

(** *** generate *)

(** [for name, prop in parent.properties.items():
       if name not in self.properties: self.properties[name] = prop] *)
Definition merge_properties (parent_props own : gmap string loc)
  : gmap string loc :=
  map_fold (λ pname prop own,
              match own !! pname with
              | Some _ => own
              | None => <[pname := prop]> own
              end) own parent_props.

(** The body of [for ancestor in parent.schemata]: [self.schemata.add],
    [self.names.add] and [ancestor.descendants.add(self)]. *)
Definition add_ancestor (self : string) (ancestor : SchemaRef)
    (r : gmap string Schema) : gmap string Schema :=
  let r1 := alter (set_schemata (λ X, X ∪ {[ancestor]})) self r in
  let r2 := alter (set_names (λ X, X ∪ {[name_of r1 ancestor]})) self r1 in
  alter (set_descendants (λ X, X ∪ {[Ref self]})) (ref_name ancestor) r2.

(** What [self] takes over from a parent that has been generated (the rest
    of the loop body after [parent.generate()]): the parent's properties it
    does not have, the parent itself, and the parent's ancestors. *)
Definition inherit (self parent : string) (r : gmap string Schema)
  : gmap string Schema :=
  match r !! parent with
  | None => r
  | Some p =>
    let r1 := alter (set_properties (merge_properties (properties p))) self r in
    let r2 := alter (set_extends (λ X, X ∪ {[Ref parent]})) self r1 in
    set_fold (add_ancestor self) r2 (schemata p)
  end.

(** One round of [for extends in self._extends]; [recur] is [generate]. *)
Definition generate_parent (recur : string → Model → outcome unit)
    (self extends_ : string) (m : Model) : outcome unit :=
  match model_get m extends_ with
  | None =>
    Raised (InvalidData (Format "Invalid extends: %r" (ArgStr extends_)) ∅) m
  | Some _ =>
    match recur extends_ m with
    | Done _ m1 => Done tt (on_schemas (inherit self extends_) m1)
    | o => o
    end
  end.

(** The properties of the schema held under [k] (none if there is none). *)
Definition props_at (r : gmap string Schema) (k : string) : gmap string loc :=
  match r !! k with
  | Some s => properties s
  | None => ∅
  end.

(** [self.properties] in the state [m]. *)
Definition properties_of (m : Model) (self : string) : gmap string loc :=
  props_at (schemas m) self.

Definition call_Property_generate (l : loc) (m : Model) : outcome unit :=
  match Property_generate l m with
  | (m', None) => Done tt m'
  | (m', Some e) => Raised e m'
  end.

(** [for prop in list(self.properties.values()): prop.generate()] *)
Definition generate_properties (self : string) (m : Model) : outcome unit :=
  for_each call_Property_generate (map_to_list (properties_of m self)).*2 m.

(** [if self.get(name) is None: raise InvalidModel(template % name)] *)
Definition require_property (template : string) (self name_ : string)
    (m : Model) : outcome unit :=
  match properties_of m self !! name_ with
  | None => Raised (InvalidModel (Format template (ArgStr name_))) m
  | Some _ => Done tt m
  end.

(** [if self.edge: ...] with [source_prop] and [target_prop]. *)
Definition check_edge (self : string) (m : Model) : outcome unit :=
  match schemas m !! self with
  | None => Done tt m
  | Some s =>
    if edge s then
      match source_prop s with
      | None =>
        Raised (InvalidModel (Format "Missing edge source: %s"
                                (ArgOptStr (edge_source s)))) m
      | Some _ =>
        match target_prop s with
        | None =>
          Raised (InvalidModel (Format "Missing edge target: %s"
                                  (ArgOptStr (edge_target s)))) m
        | Some _ => Done tt m
        end
      end
    else Done tt m
  end.

(** The checks at the end of [generate]: the names in [featured], [caption]
    and [required], then the edge. *)
Definition check_declared (self : string) (s : Schema) : Model → outcome unit :=
  seq (for_each (require_property "Missing featured property: %s" self)
                (featured s))
 (seq (for_each (require_property "Missing caption property: %s" self)
                (caption s))
 (seq (for_each (require_property "Missing required property: %s" self)
                (required s))
      (check_edge self))).

(** [Schema.generate].  The recursion through [parent.generate()] is not
    guarded in the source; [fuel] bounds its depth, and [Diverged] is the
    answer when the bound is reached. *)
Fixpoint generate (fuel : nat) (self : string) (m : Model) : outcome unit :=
  match fuel with
  | O => Diverged
  | S fuel' =>
    match schemas m !! self with
    | None => Done tt m
    | Some s =>
      seq (for_each (generate_parent (generate fuel') self) (_extends s))
     (seq (generate_properties self)
          (check_declared self s)) m
    end
  end.

(** Modelled from the spec: the registry invokes [generate()] on each schema
    in turn (phase 2 of the load). *)
Definition generate_each (fuel : nat) (order : list string) (m : Model)
  : outcome unit :=
  for_each (generate fuel) order m.

(** *** _add_reverse *)

Definition outcome_bind {A B} (o : outcome A) (k : A → Model → outcome B)
  : outcome B :=
  match o with
  | Done a m => k a m
  | Raised e m => Raised e m
  | Diverged => Diverged
  end.

(** [Schema._add_reverse(data, other)]; it returns the property. *)
Definition _add_reverse (self : string) (data : ReverseSpec) (other : Property)
    (m : Model) : outcome loc :=
  match rev_name data with
  | None =>
    Raised (InvalidModel (Format "Unnamed reverse: %s" (ArgProperty other))) m
  | Some name_ =>
    match properties_of m self !! name_ with
    | Some prop => Done prop m
    | None =>
      let spec :=
        mkPropertySpec (rev_label data) (Some registry_entity_name)
          (Some (mkReverseSpec (Some (prop_name other)) None None))
          (Some (name_of (schemas m) (prop_schema other)))
          (Some (default (prop_hidden other) (rev_hidden data))) in
      let prop := fresh (dom (heap m)) in
      let m1 :=
        mkModel (schemas m)
          (<[prop := set_stub true (Property_new (Ref self) name_ spec)]> (heap m)) in
      outcome_bind (call_Property_generate prop m1)
        (λ _ m2, Done prop (update self (set_properties <[name_ := prop]>) m2))
    end
  end.

(** *** matchable_schemata and can_match *)

Definition is_matchable (m : Model) (r : SchemaRef) : bool :=
  match schemas m !! ref_name r with
  | Some s => matchable s
  | None => false
  end.

(** The property [matchable_schemata]: the set it returns and the state it
    leaves (the cache slot is filled on the first access). *)
Definition matchable_schemata (self : string) (m : Model)
  : gset SchemaRef * Model :=
  match schemas m !! self with
  | None => (∅, m)
  | Some s =>
    match _matchable_schemata s with
    | Some cached => (cached, m)
    | None =>
      let result :=
        if matchable s then
          let candidates := schemata s ∪ descendants s in
          set_fold (λ schema acc,
                      if is_matchable m schema then acc ∪ {[schema]} else acc)
                   ∅ candidates
        else ∅ in
      (result, update self (set_matchable_schemata (Some result)) m)
    end
  end.

Definition can_match (self : string) (other : SchemaRef) (m : Model)
  : bool * Model :=
  let r := matchable_schemata self m in
  (bool_decide (other ∈ fst r), snd r).

(** *** validate *)

(** The error of one property, from the body of the loop in [validate]. *)
Definition property_error (s : Schema) (input : gmap string (PyValues Value))
    (name_ : string) (prop : Property) : option string :=
  let values := ensure_list (default (PyList []) (input !! name_)) in
  let error := Property_validate prop values in
  let error :=
    if bool_decide (error = None) && bool_decide (length values = 0) then
      if bool_decide (prop_name prop ∈ required s) then Some (gettext "Required")
      else error
    else error in
  error.

(** The mapping [errors] at the end of the loop. *)
Definition collect_errors (m : Model) (s : Schema)
    (input : gmap string (PyValues Value)) : gmap string string :=
  map_fold (λ name_ l errors,
              match heap m !! l with
              | None => errors
              | Some prop =>
                match property_error s input name_ prop with
                | Some error => <[name_ := error]> errors
                | None => errors
                end
              end) ∅ (properties s).

(** [Schema.validate(data)]: the outcome, and the caller's [data] object as
    it is after the call. *)
Definition validate (self : string) (data : EntityData Value) (m : Model)
  : outcome (option string) * EntityData Value :=
  match schemas m !! self with
  | None => (Done None m, data)
  | Some s =>
    let errors := collect_errors m s (ensure_dict (data_properties data)) in
    match size errors with
    | O => (Done None m, data)
    | _ =>
      (Raised (InvalidData (Plain (gettext "Entity validation failed")) errors) m,
       data)
    end
  end.

(** *** to_dict *)

(** Truth value of an optional string: [None] and the empty string are false. *)
Definition truthy (o : option string) : bool :=
  match o with
  | Some s => bool_decide (s ≠ "")
  | None => false
  end.

Definition nonempty {A} (l : list A) : bool :=
  match l with
  | [] => false
  | _ => true
  end.

Definition sorted_strings (l : list string) : list string :=
  merge_sort (λ a b, Is_true (String.leb a b)) l.

(** The [properties] entry of [to_dict]. *)
Definition own_properties_to_dict (m : Model) (s : Schema)
  : gmap string PropertyToDict :=
  map_fold (λ name_ l acc,
              match heap m !! l with
              | None => acc
              | Some prop =>
                if bool_decide (prop_schema prop = Ref (name s))
                then <[name_ := Property_to_dict prop]> acc
                else acc
              end) ∅ (properties s).

(** [Schema.to_dict]. *)
Definition to_dict (m : Model) (s : Schema) : SchemaToDict :=
  mkSchemaToDict
    (Some (label s))
    (Some (plural s))
    (Some (sorted_strings (elements (names s))))
    (Some (sorted_strings (name_of (schemas m) <$> elements (extends s))))
    (Some (own_properties_to_dict m s))
    (if nonempty (featured s) then Some (featured s) else None)
    (if nonempty (required s) then Some (required s) else None)
    (if nonempty (caption s) then Some (caption s) else None)
    (if truthy (edge_source s) && truthy (edge_target s) && truthy (edge_label s)
     then Some (mkEdgeSpec (edge_source s) (edge_target s) (edge_caption s)
                  (edge_label s) (Some (edge_directed s)))
     else None)
    (if truthy (description s) then description s else None)
    (if abstract s then Some true else None)
    (if hidden s then Some true else None)
    (if generated s then Some true else None)
    (if matchable s then Some true else None).

End Operations.

(** * Statements about the methods *)

(** ** The inheritance graph *)

(** The slots fixed at construction. *)
Definition config (s : Schema) : Schema := rebuild s ∅ ∅ ∅ ∅ None ∅.

(** All slots but [properties]. *)
Definition skeleton (s : Schema) : Schema := set_properties (λ _, ∅) s.

(** [parent] is named in [child._extends] and the registry resolves it. *)
Definition parent_of (r : gmap string Schema) (child parent : string) : Prop :=
  ∃ s, r !! child = Some s ∧ parent ∈ _extends s ∧ is_Some (r !! parent).

(** A schema itself, its parents, their parents, and so on. *)
Definition ancestor (r : gmap string Schema) : string → string → Prop :=
  rtc (parent_of r).


Definition schemata_of (r : gmap string Schema) (a : SchemaRef) : gset SchemaRef :=
  match r !! ref_name a with
  | Some s => schemata s
  | None => ∅
  end.

(** The schema objects as the constructor leaves them. *)
Definition constructed (r : gmap string Schema) : Prop :=
  ∀ k s, r !! k = Some s →
         name s = k ∧ extends s = ∅ ∧ schemata s = {[Ref k]} ∧
         names s = {[k]} ∧ descendants s = ∅.

(** What a schema takes over from a parent [p], as one change of the
    schema object. *)
Definition absorb (p : Schema) (parent : string) (nm : SchemaRef → string)
    (s : Schema) : Schema :=
  rebuild s (extends s ∪ {[Ref parent]}) (schemata s ∪ schemata p)
    (names s ∪ set_map nm (schemata p)) (descendants s)
    (_matchable_schemata s) (properties s ∪ properties p).

(** [self] enters the descendants of a schema. *)
Definition adopt (self : string) (s : Schema) : Schema :=
  set_descendants (λ X, X ∪ {[Ref self]}) s.

(** Invariant of the hierarchy slots. *)
Definition hier_inv (r : gmap string Schema) : Prop :=
  ∀ k s, r !! k = Some s →
    name s = k ∧
    Ref k ∈ schemata s ∧
    names s = set_map ref_name (schemata s) ∧
    (∀ a, a ∈ schemata s → ancestor r k (ref_name a)) ∧
    (∀ a, a ∈ schemata s → a ≠ Ref k →
          ∃ x, r !! ref_name a = Some x ∧ Ref k ∈ descendants x) ∧
    (∀ e, e ∈ extends s → parent_of r k (ref_name e)) ∧
    (∀ d, d ∈ descendants s →
          ∃ x, r !! ref_name d = Some x ∧ Ref k ∈ schemata x).

(** The hierarchy slots of [k] are complete. *)
Definition closed (r : gmap string Schema) (k : string) : Prop :=
  ∃ s, r !! k = Some s ∧
       (∀ a, ancestor r k a → Ref a ∈ schemata s) ∧
       (∀ e, e ∈ _extends s → is_Some (r !! e) ∧ Ref e ∈ extends s).

(** [self] has taken over everything of its parent [e], whose own hierarchy
    slots are complete. *)
Definition absorbed (r : gmap string Schema) (self e : string) : Prop :=
  closed r e ∧
  ∃ s, r !! self = Some s ∧ Ref e ∈ extends s ∧
       (∀ a, ancestor r e a → Ref a ∈ schemata s).

(** ** Merged properties *)

(** The slots [generate] writes on the schema it is called on. *)
Definition own_eq (s s' : Schema) : Prop :=
  properties s = properties s' ∧ extends s = extends s' ∧
  schemata s = schemata s' ∧ names s = names s'.

(** [self] holds everything the loop body takes from its parent [e]. *)
Definition merged (r : gmap string Schema) (self e : string) : Prop :=
  ∃ s p, r !! self = Some s ∧ r !! e = Some p ∧
    dom (properties p) ⊆ dom (properties s) ∧
    Ref e ∈ extends s ∧
    schemata p ⊆ schemata s ∧
    set_map (name_of r) (schemata p) ⊆ names s ∧
    (∀ a x, a ∈ schemata p → r !! ref_name a = Some x → Ref self ∈ descendants x).

(** The names a schema declares resolve in its property map: those of
    [featured], [caption] and [required], and the edge ends if it is an
    edge. *)
Definition declared_ok (s : Schema) : Prop :=
  (∀ n, n ∈ featured s ++ caption s ++ required s →
        is_Some (properties s !! n)) ∧
  (edge s = true → is_Some (source_prop s) ∧ is_Some (target_prop s)).

(** [k] and all its ancestors, down to depth [n], hold what their parents
    give them and pass the checks: another [generate] has nothing to add. *)
Fixpoint settled (n : nat) (r : gmap string Schema) (k : string) : Prop :=
  match n with
  | O => False
  | S n' => ∀ s, r !! k = Some s →
                 declared_ok s ∧
                 ∀ e, e ∈ _extends s → settled n' r e ∧ merged r k e
  end.

(** The schema objects keep their configuration, every slot only gains. *)
Definition evolves (r r' : gmap string Schema) : Prop :=
  ∀ k, match r !! k with
       | Some s => ∃ s', r' !! k = Some s' ∧ config s = config s' ∧
                         properties s ⊆ properties s' ∧
                         extends s ⊆ extends s' ∧ schemata s ⊆ schemata s' ∧
                         names s ⊆ names s' ∧ descendants s ⊆ descendants s' ∧
                         _matchable_schemata s = _matchable_schemata s'
       | None => r' !! k = None
       end.

(** ... and the settled schemata keep the slots of their own. *)
Definition steady (r r' : gmap string Schema) : Prop :=
  evolves r r' ∧
  ∀ n k s, settled n r k → r !! k = Some s →
           ∃ s', r' !! k = Some s' ∧ own_eq s s'.

(** There is a chain of [n] extends-steps from [k]. *)
Fixpoint tall (n : nat) (r : gmap string Schema) (k : string) : Prop :=
  match n with
  | O => is_Some (r !! k)
  | S n' => ∃ e, parent_of r k e ∧ tall n' r e
  end.

(** The property named [n] of the first of [parents] that has one. *)
Fixpoint inherited_from (r : gmap string Schema) (parents : list string)
    (n : string) : option loc :=
  match parents with
  | [] => None
  | e :: rest =>
    match props_at r e !! n with
    | Some l => Some l
    | None => inherited_from r rest n
    end
  end.

(** The property map of a schema with [own] properties after it has taken
    those of [parents], one parent after the other. *)
Definition merge_all (r : gmap string Schema) (own : gmap string loc)
    (parents : list string) : gmap string loc :=
  foldl (λ acc e, acc ∪ props_at r e) own parents.

(** The reading of inheritance in which a child holds, under every name of a
    parent's map that it did not have before, the parent's own property
    object. *)
Definition same_reference_as_parent (m m' : Model) (child parent : string)
  : Prop :=
  ∀ n l, props_at (schemas m') parent !! n = Some l →
         is_Some (props_at (schemas m') child !! n) ∧
         (props_at (schemas m) child !! n = None →
          props_at (schemas m') child !! n = Some l).

(** ** Configuration errors *)






(** The members [X] of a parent's [schemata] enter [s]. *)
Definition take (X : gset SchemaRef) (nm : SchemaRef → string) (s : Schema)
  : Schema :=
  set_names (λ N, N ∪ set_map nm X) (set_schemata (λ S, S ∪ X) s).

(** The schema object under [k] after the loop over the ancestors [X]. *)
Definition after_ancestors (self : string) (X : gset SchemaRef)
    (nm : SchemaRef → string) (k : string) (s : Schema) : Schema :=
  (if decide (Ref k ∈ X) then adopt self else id)
    ((if decide (k = self) then take X nm else id) s).

(** The schema object under [k] after [inherit self parent]. *)
Definition after_inherit (self parent : string) (p : Schema)
    (nm : SchemaRef → string) (k : string) (s : Schema) : Schema :=
  (if decide (Ref k ∈ schemata p) then adopt self else id)
    ((if decide (k = self) then absorb p parent nm else id) s).

(** The schema objects keep their configuration and their hierarchy slots
    only gain members. *)
Definition grows (r r' : gmap string Schema) : Prop :=
  ∀ k, match r !! k with
       | Some s => ∃ s', r' !! k = Some s' ∧ config s = config s' ∧
                         extends s ⊆ extends s' ∧ schemata s ⊆ schemata s' ∧
                         descendants s ⊆ descendants s'
       | None => r' !! k = None
       end.

Section Statements.
Context `{ext : Collaborators}.

(** What is assumed of [prop.generate()], which is not part of schema.py. *)

(** It leaves every slot of every schema but [properties] as it is. *)
Definition keeps_hierarchy : Prop :=
  ∀ l m, skeleton <$> schemas (fst (Property_generate l m)) = skeleton <$> schemas m.

(** It leaves the schema objects as they are. *)
Definition keeps_schemas : Prop :=
  ∀ l m, schemas (fst (Property_generate l m)) = schemas m.

(** It does not raise. *)
Definition never_raises : Prop :=
  ∀ l m, snd (Property_generate l m) = None.

(** What a run of [generate] does to the hierarchy slots. *)
Definition hier_effect (fuel : nat) : Prop :=
  ∀ self m m',
    hier_inv (schemas m) → outcome_state (generate fuel self m) = Some m' →
    hier_inv (schemas m') ∧ grows (schemas m) (schemas m') ∧
    (generate fuel self m = Done tt m' → is_Some (schemas m !! self) →
     closed (schemas m') self).

(** What a run of [generate] does to the schema objects. *)
Definition steady_effect (fuel : nat) : Prop :=
  ∀ self m m',
    outcome_state (generate fuel self m) = Some m' →
    steady (schemas m) (schemas m') ∧
    (generate fuel self m = Done tt m' → settled fuel (schemas m') self).


(** A run of [generate] on [self] leaves the own slots of the schemata that
    are not ancestors of [self]. *)
Definition untouched_effect (fuel : nat) : Prop :=
  ∀ self m m' z sz,
    outcome_state (generate fuel self m) = Some m' →
    ¬ ancestor (schemas m) self z → schemas m !! z = Some sz →
    ∃ sz', schemas m' !! z = Some sz' ∧ own_eq sz sz'.



(** An optional name or text is present when it is neither [None] nor the
    empty string (Python's truth value of the attribute). *)
Definition present (o : option string) : Prop := ∃ t, o = Some t ∧ t ≠ "".

(** The values [validate] passes to a property's validator: those of the
    input under the property's name, none when the name is absent. *)
Definition values_for (input : gmap string (PyValues Value)) (name_ : string)
  : list Value :=
  match input !! name_ with
  | Some v => ensure_list v
  | None => []
  end.

(** The input without the keys that are not property names of the schema. *)
Definition known_keys_only (m : Model) (self : string) (data : EntityData Value)
  : EntityData Value :=
  mkEntityData
    (Some (filter (λ kv, fst kv ∈ dom (properties_of m self))
                  (ensure_dict (data_properties data)))).

(** The reading of the sparse output of [to_dict] in which every optional key
    is written exactly when its value differs from the default of the schema
    specification (no list, no description, [abstract], [hidden] and
    [generated] false, [matchable] true). *)
Definition written_iff_not_default (m : Model) (s : Schema) : Prop :=
  let d := to_dict m s in
  (is_Some (td_featured d) ↔ featured s ≠ []) ∧
  (is_Some (td_required d) ↔ required s ≠ []) ∧
  (is_Some (td_caption d) ↔ caption s ≠ []) ∧
  (is_Some (td_description d) ↔ truthy (description s) = true) ∧
  (is_Some (td_abstract d) ↔ abstract s ≠ false) ∧
  (is_Some (td_hidden d) ↔ hidden s ≠ false) ∧
  (is_Some (td_generated d) ↔ generated s ≠ false) ∧
  (is_Some (td_matchable d) ↔ matchable s ≠ true).

End Statements.

(** ** Further statements *)

(** The order of [sorted] on strings. *)
Definition string_le (a b : string) : Prop := Is_true (String.leb a b).

(** A schema is among its own descendants only on a cycle of the
    extends-graph. *)
Definition no_self (r : gmap string Schema) : Prop :=
  ∀ k s, r !! k = Some s → Ref k ∈ descendants s →
         ∃ e, parent_of r k e ∧ ancestor r e k.

(** The property map of [z] is what the loop over its parents makes of the
    properties [z] has in [r0], and [z] is settled. *)
Definition resolved_from (r0 r : gmap string Schema) (z : string) : Prop :=
  ∀ s, r !! z = Some s →
       (∃ n, settled n r z) ∧
       properties s = merge_all r (props_at r0 z) (_extends s).

(** The property map of [z] is as in [r0], or it is resolved. *)
Definition kept_or_resolved (r0 r : gmap string Schema) (z : string) : Prop :=
  ∀ s, r !! z = Some s →
       properties s = props_at r0 z ∨
       ((∃ n, settled n r z) ∧
        properties s = merge_all r (props_at r0 z) (_extends s)).

(** *** sorted_properties *)

(** Python's [<] on booleans: [False] is below [True]. *)
Definition bool_ltb (a b : bool) : bool := negb a && b.

(** Python's [<] on the sort keys: tuples are compared at the first item in
    which they differ. *)
Definition key_ltb (k1 k2 : bool * bool * string) : bool :=
  let '(a1, b1, l1) := k1 in
  let '(a2, b2, l2) := k2 in
  if bool_decide (a1 = a2) then
    if bool_decide (b1 = b2) then String.ltb l1 l2 else bool_ltb b1 b2
  else bool_ltb a1 a2.

(** [sorted] is stable: an item goes behind the items that are below it and
    before the first that is not. *)
Fixpoint insert_by {A} (lt : A → A → bool) (x : A) (l : list A) : list A :=
  match l with
  | [] => [x]
  | y :: l' => if lt y x then y :: insert_by lt x l' else x :: l
  end.

Definition py_sorted {A} (lt : A → A → bool) (l : list A) : list A :=
  foldr (insert_by lt) [] l.

Section Display.
(** Modelled from the spec: [Property.label] (property.py), the label of a
    property as shown to the user. *)
Variable Property_label : Property → string.

(** [(p.name not in self.caption, p.name not in self.featured, p.label)] *)
Definition sort_key (s : Schema) (p : Property) : bool * bool * string :=
  (negb (bool_decide (prop_name p ∈ caption s)),
   negb (bool_decide (prop_name p ∈ featured s)),
   Property_label p).

(** [Schema.sorted_properties]; [values] is [self.properties.values()] in
    the iteration order of the dictionary. *)
Definition sorted_properties (s : Schema) (values : list Property)
  : list Property :=
  py_sorted (λ p q, key_ltb (sort_key s p) (sort_key s q)) values.

End Display.

(** ** What is assumed of [prop.generate()] in general *)

(** The collaborators with a [prop.generate()] that is kept from changing
    the schema objects: what it does to the property objects, and whether it
    raises, is as before. *)
Definition frozen (ext : Collaborators) : Collaborators := {|
  Value := @Value ext;
  PropertyToDict := @PropertyToDict ext;
  gettext := @gettext ext;
  NS := @NS ext;
  registry_entity_name := @registry_entity_name ext;
  Property_generate := λ l m,
    (mkModel (schemas m) (heap (fst (@Property_generate ext l m))),
     snd (@Property_generate ext l m));
  Property_validate := @Property_validate ext;
  Property_to_dict := @Property_to_dict ext;
|}.


Section Conditions.
Context `{ext : Collaborators}.

(** [prop.generate()] only adds to the schema objects: it leaves their
    configuration and removes or replaces no entry. *)
Definition only_adds : Prop :=
  ∀ l m, evolves (schemas m) (schemas (fst (Property_generate l m))).

(** A set of model states that [prop.generate()] and the parent merge do not
    leave, and in which [prop.generate()] changes no schema object (every
    reverse stub it would add is in place). *)
Definition quiet_on (Q : Model → Prop) : Prop :=
  (∀ l m, Q m → schemas (fst (Property_generate l m)) = schemas m ∧
                Q (fst (Property_generate l m))) ∧
  (∀ self e m, Q m → Q (on_schemas (inherit self e) m)).


End Conditions.

(** * A concrete model *)

Module Example.

(** Collaborators that do as little as possible: text is not translated, a
    property's [generate] changes nothing, and a value is invalid when it is
    the empty string. *)
Definition demo : Collaborators := {|
  Value := string;
  PropertyToDict := string;
  gettext := λ s, s;
  NS := λ n, "https://schema.followthemoney.tech/#" +:+ n;
  registry_entity_name := "entity";
  Property_generate := λ _ m, (m, None);
  Property_validate := λ _ vs, if bool_decide ("" ∈ vs) then Some "empty" else None;
  Property_to_dict := prop_name;
|}.

Definition string_spec : PropertySpec :=
  mkPropertySpec None (Some "string") None None None.

Definition thing_spec : SchemaSpec :=
  mkSchemaSpec None None [] {[ "name" := string_spec ]} [] [] [] None None None
    (Some true) (Some true) None None.

Definition legal_entity_spec : SchemaSpec :=
  mkSchemaSpec None None ["Thing"] {[ "country" := string_spec ]} [] [] [] None
    None None None None None None.

Definition company_spec : SchemaSpec :=
  mkSchemaSpec None None ["LegalEntity"] ∅ [] ["name"] [] None None None None
    None None (Some true).

(** Construct one schema after the other, as the registry does on load. *)
Definition load (specs : list (string * SchemaSpec)) : Model :=
  foldl (λ m entry,
           let r := @Schema_init demo (fst entry) (snd entry) (heap m) in
           mkModel (<[fst entry := fst r]> (schemas m)) (snd r))
        (mkModel ∅ ∅) specs.

Definition constructed : Model :=
  load [("Thing", thing_spec); ("LegalEntity", legal_entity_spec);
        ("Company", company_spec)].

Definition final_state (o : outcome unit) (otherwise : Model) : Model :=
  match o with
  | Done _ m => m
  | _ => otherwise
  end.

Definition generated_model : Model :=
  final_state (@generate_each demo 3 ["Thing"; "LegalEntity"; "Company"] constructed)
              constructed.

(** [Company.generate()] on the constructed model. *)
Definition company_generated : Model :=
  final_state (@generate demo 3 "Company" constructed) constructed.

Definition thing : Schema := fst (@Schema_init demo "Thing" thing_spec ∅).

(** The schema object held under a name. *)
Definition schema_at (m : Model) (k : string) : Schema :=
  default thing (schemas m !! k).

Definition company : Schema := schema_at generated_model "Company".

(** Two unrelated parents that both declare a property [x], and a child of
    both. *)
Definition parent_spec : SchemaSpec :=
  mkSchemaSpec None None [] {[ "x" := string_spec ]} [] [] [] None None None
    None None None None.

Definition child_spec : SchemaSpec :=
  mkSchemaSpec None None ["P1"; "P2"] ∅ [] [] [] None None None None None None
    None.

Definition clash : Model :=
  load [("P1", parent_spec); ("P2", parent_spec); ("Child", child_spec)].

Definition clash_generated : Model :=
  final_state (@generate demo 2 "Child" clash) clash.

Definition child : Schema := schema_at clash "Child".




(** A schema whose parent does not exist. *)
Definition broken_spec : SchemaSpec :=
  mkSchemaSpec None None ["Missing"] ∅ [] [] [] None None None None None None
    None.

Definition broken : Model := load [("Broken", broken_spec)].

Definition broken_schema : Schema := schema_at broken "Broken".

End Example.

(** * More of the concrete model *)

Module Scenario.

(** The order in which the registry generates the schemata, and another. *)
Definition order : list string := ["Thing"; "LegalEntity"; "Company"].

Definition other_order : list string := ["Company"; "Thing"; "LegalEntity"].

Definition generated_otherwise : Model :=
  Example.final_state
    (@generate_each Example.demo 3 other_order Example.constructed)
    Example.constructed.

Definition thing : Schema := Example.schema_at Example.generated_model "Thing".

Definition company_constructed : Schema :=
  Example.schema_at Example.constructed "Company".

Definition company_alone : Schema :=
  Example.schema_at Example.company_generated "Company".

(** [Company.matchable_schemata] is read before anything is generated. *)
Definition early_set : gset SchemaRef :=
  fst (matchable_schemata "Company" Example.constructed).

Definition early_access : Model :=
  snd (matchable_schemata "Company" Example.constructed).

Definition generated_late : Model :=
  Example.final_state (@generate Example.demo 3 "Company" early_access)
    early_access.

(** A property of another schema that declares [LegalEntity] as its range
    with the reverse name [subsidiaries]. *)
Definition owner_property : Property :=
  Property_new (Ref "Company") "parent" Example.string_spec.

Definition subsidiaries : ReverseSpec :=
  mkReverseSpec (Some "subsidiaries") (Some "Subsidiaries") None.

Definition stub : loc := 3%positive.

Definition with_reverse : Model :=
  match @_add_reverse Example.demo "LegalEntity" subsidiaries owner_property
          Example.generated_model with
  | Done _ m => m
  | _ => Example.generated_model
  end.

Definition legal_entity : Schema :=
  Example.schema_at Example.generated_model "LegalEntity".

Definition company_before : Schema := Example.schema_at with_reverse "Company".

Definition regenerated : Model :=
  Example.final_state (@generate Example.demo 3 "Company" with_reverse)
    with_reverse.

(** Entity data whose [name] is one value, and the same as a list. *)
Definition scalar_data : EntityData string :=
  mkEntityData (Some {[ "name" := PyScalar "ACME" ]}).

Definition list_data : EntityData string :=
  mkEntityData (Some {[ "name" := PyList ["ACME"] ]}).

End Scenario.

(** * A [prop.generate()] that adds reverse stubs *)

Module Linked.

(** Modelled from the spec: [Property.generate()] (property.py) sets up the
    reverse link of a property that declares a range and a reverse: the
    range schema, if the registry has it, is asked for the reverse property
    (spec 4.2, [_add_reverse]).  Generating the stub itself changes no
    schema object. *)
Definition generate_reverse (l : loc) (m : Model) : Model * option exn :=
  match heap m !! l with
  | Some p =>
    match ps_range (prop_data p), ps_reverse (prop_data p) with
    | Some range_, Some reverse_ =>
      match schemas m !! range_ with
      | Some _ =>
        match @_add_reverse Example.demo range_ reverse_ p m with
        | Done _ m' => (m', None)
        | Raised e m' => (m', Some e)
        | Diverged => (m, None)
        end
      | None => (m, None)
      end
    | _, _ => (m, None)
    end
  | None => (m, None)
  end.

Definition linked : Collaborators := {|
  Value := string;
  PropertyToDict := string;
  gettext := λ s, s;
  NS := λ n, "https://schema.followthemoney.tech/#" +:+ n;
  registry_entity_name := "entity";
  Property_generate := generate_reverse;
  Property_validate := λ _ vs, if bool_decide ("" ∈ vs) then Some "empty" else None;
  Property_to_dict := prop_name;
|}.

(** The reverse property of [p] is in place, if [p] declares one on a schema
    of the registry. *)
Definition stub_in_place (m : Model) (p : Property) : bool :=
  match ps_range (prop_data p), ps_reverse (prop_data p) with
  | Some range_, Some reverse_ =>
    match schemas m !! range_ with
    | Some s =>
      match rev_name reverse_ with
      | Some n => bool_decide (is_Some (properties s !! n))
      | None => false
      end
    | None => true
    end
  | _, _ => true
  end.

(** The states in which every reverse stub is in place. *)
Definition linked_up (m : Model) : Prop :=
  map_Forall (λ _ p, stub_in_place m p = true) (heap m).

(** [Note] extends [Thing]; its property [entity] ranges over [Thing], where
    it is seen as [notes]. *)
Definition entity_spec : PropertySpec :=
  mkPropertySpec None (Some "entity")
    (Some (mkReverseSpec (Some "notes") None None)) (Some "Thing") None.

Definition note_spec : SchemaSpec :=
  mkSchemaSpec None None ["Thing"] {[ "entity" := entity_spec ]} [] [] [] None
    None None None None None None.

Definition notes_model : Model :=
  Example.load [("Thing", Example.thing_spec); ("Note", note_spec)].

Definition note : Schema := Example.schema_at notes_model "Note".

(** [Note.generate()], once and twice. *)
Definition once : Model :=
  Example.final_state (@generate linked 3 "Note" notes_model) notes_model.




End Linked.

(** * Proofs *)

Section Serialisation.
Context `{ext : Collaborators}.

Lemma nonempty_spec {A} (l : list A) : nonempty l = true ↔ l ≠ [].
Proof. by destruct l. Qed.

Lemma truthy_spec (o : option string) :
  truthy o = true ↔ ∃ t, o = Some t ∧ t ≠ "".
Proof.
  destruct o as [t|]; simpl.
  - rewrite bool_decide_eq_true. naive_solver.
  - naive_solver.
Qed.

(** C9.  After construction [hidden] is false whenever [abstract] is true,
    whatever the input says; when [abstract] is false, [hidden] is the boolean
    given in the input, false when there is none. *)
Theorem C9_hidden_only_if_concrete (nm : string) (data : SchemaSpec)
    (h : gmap loc Property) :
  let s := fst (Schema_init nm data h) in
  abstract s = as_bool (spec_abstract data) false ∧
  hidden s = (if abstract s then false else as_bool (spec_hidden data) false).
Proof.
  simpl. split; [done|].
  destruct (as_bool (spec_abstract data) false); simpl.
  - apply andb_false_r.
  - apply andb_true_r.
Qed.

(** C7 (as amended).  [to_dict] writes [featured], [required] and [caption]
    exactly when the list is not empty and [description] exactly when the
    text is not empty; it writes each of the flags [abstract], [hidden],
    [generated] and [matchable] exactly when the flag is true, with the
    value true.  A missing flag therefore means false, which for
    [matchable] is not the default. *)
Theorem C7_sparse_output (m : Model) (s : Schema) :
  let d := to_dict m s in
  (∀ l, td_featured d = Some l ↔ l = featured s ∧ l ≠ []) ∧
  (∀ l, td_required d = Some l ↔ l = required s ∧ l ≠ []) ∧
  (∀ l, td_caption d = Some l ↔ l = caption s ∧ l ≠ []) ∧
  (∀ t, td_description d = Some t ↔ description s = Some t ∧ t ≠ "") ∧
  (∀ b, td_abstract d = Some b ↔ b = true ∧ abstract s = true) ∧
  (∀ b, td_hidden d = Some b ↔ b = true ∧ hidden s = true) ∧
  (∀ b, td_generated d = Some b ↔ b = true ∧ generated s = true) ∧
  (∀ b, td_matchable d = Some b ↔ b = true ∧ matchable s = true).
Proof.
  assert (∀ (c : bool) (b : bool),
             (if c then Some true else None) = Some b ↔ b = true ∧ c = true)
    as Hflag by (intros [] []; naive_solver).
  assert (∀ (l l' : list string),
             (if nonempty l then Some l else None) = Some l' ↔ l' = l ∧ l' ≠ [])
    as Hlist by (intros [|x l] l'; simpl; naive_solver).
  assert (∀ (o : option string) t,
             (if truthy o then o else None) = Some t ↔ o = Some t ∧ t ≠ "")
    as Htext.
  { intros o t. destruct (truthy o) eqn:E.
    - apply truthy_spec in E as (t' & -> & Hne). naive_solver.
    - split; [done|]. intros [-> Hne].
      assert (truthy (Some t) = true) by (apply truthy_spec; eauto). congruence. }
  simpl. split_and!; intros; first [apply Hflag | apply Hlist | apply Htext].
Qed.

(** A loop that writes [f k a] under [k] for the entries where it is
    defined builds the map of those values. *)
Lemma map_fold_select {A B} (g : string → A → gmap string B → gmap string B)
    (f : string → A → option B) :
  (∀ k a acc, g k a acc = match f k a with
                          | Some b => <[k := b]> acc
                          | None => acc
                          end) →
  ∀ (d : gmap string A) n, map_fold g ∅ d !! n = d !! n ≫= f n.
Proof.
  intros Hg d.
  apply (map_fold_weak_ind (λ r (d : gmap string A), ∀ n, r !! n = d !! n ≫= f n)).
  - intros n. by rewrite !lookup_empty.
  - intros k a d' r Hk IH n. rewrite Hg.
    destruct (decide (k = n)) as [->|Hne].
    + rewrite lookup_insert_eq. simpl.
      destruct (f n a) eqn:E; [by rewrite lookup_insert_eq|].
      by rewrite IH, Hk.
    + rewrite (lookup_insert_ne d') by done.
      destruct (f k a); [rewrite lookup_insert_ne by done|]; apply IH.
Qed.

Lemma own_properties_to_dict_lookup (m : Model) (s : Schema) n v :
  own_properties_to_dict m s !! n = Some v ↔
  ∃ l p, properties s !! n = Some l ∧ heap m !! l = Some p ∧
         prop_schema p = Ref (name s) ∧ v = Property_to_dict p.
Proof.
  unfold own_properties_to_dict.
  rewrite (map_fold_select _
    (λ _ l, p ← heap m !! l;
            if bool_decide (prop_schema p = Ref (name s))
            then Some (Property_to_dict p) else None)).
  2:{ intros k l acc. destruct (heap m !! l) as [p|]; simpl; [|done].
      by case_bool_decide. }
  destruct (properties s !! n) as [l|]; simpl; [|naive_solver].
  destruct (heap m !! l) as [p|] eqn:Hp; simpl; [|naive_solver].
  case_bool_decide; naive_solver.
Qed.

(** C8.  [to_dict] writes the edge block exactly when [edge_source],
    [edge_target] and the localised edge label are all present (neither
    [None] nor empty), and then with source, target, caption, label and
    directed; in particular a schema whose [edge] flag holds but whose
    localised label is empty has no edge block.  The [properties] entry holds
    exactly the properties of the schema whose owning schema is the schema
    itself. *)
Theorem C8_edge_block_and_own_properties (m : Model) (s : Schema) :
  let d := to_dict m s in
  (is_Some (td_edge d) ↔
     present (edge_source s) ∧ present (edge_target s) ∧ present (edge_label s)) ∧
  (∀ e, td_edge d = Some e ↔
        e = mkEdgeSpec (edge_source s) (edge_target s) (edge_caption s)
              (edge_label s) (Some (edge_directed s)) ∧
        present (edge_source s) ∧ present (edge_target s) ∧
        present (edge_label s)) ∧
  (edge s = true → gettext (_edge_label s) = "" → td_edge d = None) ∧
  (∃ ps, td_properties d = Some ps ∧
         ∀ n v, ps !! n = Some v ↔
                ∃ l p, properties s !! n = Some l ∧ heap m !! l = Some p ∧
                       prop_schema p = Ref (name s) ∧ v = Property_to_dict p).
Proof.
  assert (∀ o, present o ↔ truthy o = true) as Hp
    by (intros o; symmetry; apply truthy_spec).
  intros d.
  assert (td_edge d =
          if truthy (edge_source s) && truthy (edge_target s)
             && truthy (edge_label s)
          then Some (mkEdgeSpec (edge_source s) (edge_target s) (edge_caption s)
                       (edge_label s) (Some (edge_directed s)))
          else None) as -> by done.
  split_and!.
  - rewrite !Hp.
    destruct (truthy (edge_source s)), (truthy (edge_target s)),
      (truthy (edge_label s)); simpl; unfold is_Some; naive_solver.
  - intros e. rewrite !Hp.
    destruct (truthy (edge_source s)), (truthy (edge_target s)),
      (truthy (edge_label s)); simpl; naive_solver.
  - intros _ Hempty. unfold edge_label. rewrite Hempty. simpl.
    by rewrite !andb_false_r.
  - eexists. split; [done|]. apply own_properties_to_dict_lookup.
Qed.

End Serialisation.

Section Matching.

Lemma set_fold_select (P : SchemaRef → bool) (X : gset SchemaRef) x :
  x ∈ set_fold (λ a acc, if P a then acc ∪ {[a]} else acc) (∅ : gset SchemaRef) X
  ↔ x ∈ X ∧ P x = true.
Proof.
  apply (set_fold_ind_L (λ r X, x ∈ r ↔ x ∈ X ∧ P x = true)).
  - set_solver.
  - intros a Y r Ha IH. destruct (P a) eqn:E.
    + rewrite !elem_of_union, !elem_of_singleton, IH.
      split; [intros [[??]| ->]; auto | intros [[->|?] ?]; auto].
    + rewrite IH, elem_of_union, elem_of_singleton.
      split; [intros [??]; auto | intros [[->|?] ?]; [congruence|auto]].
Qed.

Lemma matchable_schemata_cached (m : Model) (self : string) (s : Schema) X :
  schemas m !! self = Some s → _matchable_schemata s = Some X →
  matchable_schemata self m = (X, m).
Proof. intros Hs Hc. unfold matchable_schemata. by rewrite Hs, Hc. Qed.

(** C6.  On the first access (the cache slot is empty) [matchable_schemata]
    is empty when the schema is not matchable, and otherwise holds exactly
    the members of [schemata] and [descendants] whose [matchable] flag is
    true.  The access stores the set in the schema, and every access to a
    schema holding a stored set returns that set and changes nothing;
    [can_match other] is membership of [other] in the set. *)
Theorem C6_matchable_schemata (m : Model) (self : string) (s : Schema) :
  schemas m !! self = Some s →
  _matchable_schemata s = None →
  let X := fst (matchable_schemata self m) in
  let m1 := snd (matchable_schemata self m) in
  (matchable s = false → X = ∅) ∧
  (matchable s = true →
   ∀ x, x ∈ X ↔ (x ∈ schemata s ∨ x ∈ descendants s) ∧ is_matchable m x = true) ∧
  schemas m1 = <[self := set_matchable_schemata (Some X) s]> (schemas m) ∧
  heap m1 = heap m ∧
  (∀ m2 s2, schemas m2 !! self = Some s2 → _matchable_schemata s2 = Some X →
            matchable_schemata self m2 = (X, m2)) ∧
  matchable_schemata self m1 = (X, m1) ∧
  (∀ other, can_match self other m = (bool_decide (other ∈ X), m1)) ∧
  (∀ other, can_match self other m1 = (bool_decide (other ∈ X), m1)).
Proof.
  intros Hs Hc.
  destruct (matchable_schemata self m) as [X m1] eqn:Hfirst.
  cbn [fst snd].
  assert (m1 = update self (set_matchable_schemata (Some X)) m ∧
          X = if matchable s
              then set_fold (λ schema acc, if is_matchable m schema
                                           then acc ∪ {[schema]} else acc)
                            ∅ (schemata s ∪ descendants s)
              else ∅) as [Hm1 HX].
  { unfold matchable_schemata in Hfirst. rewrite Hs, Hc in Hfirst.
    by simplify_eq. }
  assert (schemas m1 !! self = Some (set_matchable_schemata (Some X) s)) as Hs1.
  { rewrite Hm1. unfold update. cbn [schemas]. by rewrite lookup_alter_eq, Hs. }
  split_and!.
  - rewrite HX. by intros ->.
  - rewrite HX. intros ->. intros x. rewrite set_fold_select. set_solver.
  - rewrite Hm1. unfold update. cbn [schemas].
    apply map_eq. intros k. destruct (decide (k = self)) as [->|Hne].
    + by rewrite lookup_alter_eq, lookup_insert_eq, Hs.
    + by rewrite lookup_alter_ne, lookup_insert_ne.
  - by rewrite Hm1.
  - intros m2 s2. apply matchable_schemata_cached.
  - by apply (matchable_schemata_cached _ _ _ X Hs1).
  - intros other. unfold can_match. by rewrite Hfirst.
  - intros other. unfold can_match.
    by rewrite (matchable_schemata_cached _ _ _ X Hs1).
Qed.

End Matching.

Section Validation.
Context `{ext : Collaborators}.

Lemma property_error_spec (s : Schema) (input : gmap string (PyValues Value))
    (n : string) (p : Property) :
  property_error s input n p =
  match Property_validate p (values_for input n) with
  | Some e => Some e
  | None =>
    if bool_decide (values_for input n = [] ∧ prop_name p ∈ required s)
    then Some (gettext "Required") else None
  end.
Proof.
  unfold property_error, values_for.
  destruct (input !! n) as [v|]; simpl.
  - destruct (Property_validate p (ensure_list v)) as [e|] eqn:E; simpl; [done|].
    destruct (ensure_list v) as [|x vs]; simpl.
    + repeat case_bool_decide; naive_solver.
    + repeat case_bool_decide; naive_solver.
  - destruct (Property_validate p []) as [e|] eqn:E; simpl; [done|].
    repeat case_bool_decide; naive_solver.
Qed.

Lemma collect_errors_lookup (m : Model) (s : Schema)
    (input : gmap string (PyValues Value)) (n : string) :
  collect_errors m s input !! n =
  l ← properties s !! n; p ← heap m !! l; property_error s input n p.
Proof.
  unfold collect_errors.
  rewrite (map_fold_select _ (λ k l, p ← heap m !! l; property_error s input k p)).
  - done.
  - intros k l acc. by destruct (heap m !! l).
Qed.

Lemma validate_unfold (self : string) (data : EntityData Value) (m : Model)
    (s : Schema) :
  schemas m !! self = Some s →
  let errors := collect_errors m s (ensure_dict (data_properties data)) in
  fst (validate self data m) =
  if decide (errors = ∅) then Done None m
  else Raised (InvalidData (Plain (gettext "Entity validation failed")) errors) m.
Proof.
  intros Hs. simpl. unfold validate. rewrite Hs.
  destruct (size _) eqn:E.
  - apply map_size_empty_iff in E. by rewrite decide_True.
  - rewrite decide_False; [done|]. intros Hempty.
    rewrite Hempty, map_size_empty in E. done.
Qed.

(** C4.  [validate] computes one entry of the error mapping for every
    property of the schema's merged map, with the values of the input under
    that name and no values when the input has no such key: the entry is the
    validator's error if there is one, and ["Required"] if there is none, the
    values are empty and the property's name is listed in [required].  The
    mapping holds the entries of all properties; the call raises the entity
    validation error carrying the mapping when the mapping is not empty, and
    returns [None] when it is. *)
Theorem C4_validate_collects_all (self : string) (data : EntityData Value)
    (m : Model) (s : Schema) :
  schemas m !! self = Some s →
  let input := ensure_dict (data_properties data) in
  let errors := collect_errors m s input in
  (∀ n l p, properties s !! n = Some l → heap m !! l = Some p →
     errors !! n =
     match Property_validate p (values_for input n) with
     | Some e => Some e
     | None =>
       if bool_decide (values_for input n = [] ∧ prop_name p ∈ required s)
       then Some (gettext "Required") else None
     end) ∧
  (∀ n, properties s !! n = None → errors !! n = None) ∧
  (∀ n l p, properties s !! n = Some l → heap m !! l = Some p →
     Property_validate p [] = None → input !! n = None →
     prop_name p ∈ required s → errors !! n = Some (gettext "Required")) ∧
  (errors ≠ ∅ →
   fst (validate self data m) =
   Raised (InvalidData (Plain (gettext "Entity validation failed")) errors) m) ∧
  (errors = ∅ → fst (validate self data m) = Done None m).
Proof.
  intros Hs input errors.
  assert (∀ n l p, properties s !! n = Some l → heap m !! l = Some p →
            errors !! n = property_error s input n p) as Hentry.
  { intros n l p Hl Hp. subst errors. rewrite collect_errors_lookup, Hl. simpl.
    by rewrite Hp. }
  split_and!.
  - intros n l p Hl Hp. rewrite (Hentry n l p Hl Hp). apply property_error_spec.
  - intros n Hn. subst errors. by rewrite collect_errors_lookup, Hn.
  - intros n l p Hl Hp Hv Hin Hreq.
    rewrite (Hentry n l p Hl Hp), property_error_spec.
    unfold values_for. rewrite Hin, Hv. by rewrite bool_decide_eq_true_2.
  - intros Hne. rewrite (validate_unfold _ _ _ _ Hs). by rewrite decide_False.
  - intros He. rewrite (validate_unfold _ _ _ _ Hs). by rewrite decide_True.
Qed.

Lemma collect_errors_known_keys (m : Model) (s : Schema)
    (input : gmap string (PyValues Value)) :
  collect_errors m s
    (filter (λ kv, fst kv ∈ dom (properties s)) input)
  = collect_errors m s input.
Proof.
  apply map_eq. intros n. rewrite !collect_errors_lookup.
  destruct (properties s !! n) as [l|] eqn:Hl; simpl; [|done].
  destruct (heap m !! l) as [p|]; simpl; [|done].
  unfold property_error.
  assert (filter (λ kv, fst kv ∈ dom (properties s)) input !! n = input !! n)
    as ->; [|done].
  destruct (input !! n) as [v|] eqn:Hv.
  - apply map_lookup_filter_Some. split; [done|]. simpl.
    apply elem_of_dom. eauto.
  - apply map_lookup_filter_None. left. done.
Qed.

(** C10.  [validate] leaves the model as it was, whether it returns or
    raises, and leaves the caller's data as it was: the input keys that are
    not property names are still there.  They play no part in the result:
    the call on the data without those keys has the same outcome. *)
Theorem C10_validate_changes_nothing (self : string) (data : EntityData Value)
    (m : Model) :
  outcome_state (fst (validate self data m)) = Some m ∧
  snd (validate self data m) = data ∧
  fst (validate self (known_keys_only m self data) m) = fst (validate self data m).
Proof.
  unfold validate, known_keys_only, properties_of, props_at.
  destruct (schemas m !! self) as [s|] eqn:Hs; simpl; [|done].
  rewrite collect_errors_known_keys.
  destruct (size _); done.
Qed.

End Validation.

(** ** The inheritance graph and [inherit] *)

Section Graph.

Lemma schema_ext (s s' : Schema) :
  config s = config s' →
  extends s = extends s' →
  schemata s = schemata s' →
  names s = names s' →
  descendants s = descendants s' →
  _matchable_schemata s = _matchable_schemata s' →
  properties s = properties s' →
  s = s'.
Proof.
  destruct s, s'. unfold config, rebuild. simpl.
  intros H. injection H. intros. by subst.
Qed.

Ltac schema_eq :=
  simpl; try apply (f_equal Some); apply schema_ext;
  [ reflexivity
  | simpl; try done; set_solver
  | simpl; try done; set_solver
  | simpl; try done; set_solver
  | simpl; try done; set_solver
  | reflexivity
  | simpl; try done ].

Lemma merge_properties_union (parent_props own : gmap string loc) :
  merge_properties parent_props own = own ∪ parent_props.
Proof.
  unfold merge_properties.
  apply (map_fold_weak_ind (λ r (d : gmap string loc), r = own ∪ d)).
  - by rewrite (right_id_L ∅ (∪)).
  - intros k l d r Hk ->.
    destruct ((own ∪ d) !! k) as [l'|] eqn:E.
    + apply lookup_union_Some_raw in E as [E|[E1 E2]]; [|congruence].
      apply map_eq. intros j. rewrite !lookup_union.
      destruct (decide (k = j)) as [->|Hne].
      * rewrite E, lookup_insert_eq, Hk. done.
      * by rewrite lookup_insert_ne.
    + apply lookup_union_None in E as [E1 E2].
      by rewrite insert_union_r.
Qed.

Lemma name_of_same (r r' : gmap string Schema) :
  (∀ k, name <$> r' !! k = name <$> r !! k) →
  ∀ a, name_of r' a = name_of r a.
Proof.
  intros Hr a. unfold name_of. specialize (Hr (ref_name a)).
  destruct (r' !! ref_name a), (r !! ref_name a); simpl in *; congruence.
Qed.

Lemma name_of_alter (f : Schema → Schema) i (r : gmap string Schema) a :
  (∀ s, name (f s) = name s) → name_of (alter f i r) a = name_of r a.
Proof.
  intros Hf. unfold name_of. rewrite lookup_alter.
  case_decide; subst; destruct (r !! ref_name a); simpl; auto.
Qed.

Lemma name_after_ancestors self X nm k s :
  name (after_ancestors self X nm k s) = name s.
Proof. unfold after_ancestors. by repeat case_decide. Qed.

Lemma add_ancestors_lookup (self : string) (r : gmap string Schema)
    (nm : SchemaRef → string) (X : gset SchemaRef) (k : string) :
  (∀ a, name_of r a = nm a) →
  set_fold (add_ancestor self) r X !! k
  = after_ancestors self X nm k <$> r !! k.
Proof.
  intros Hnm. revert k.
  apply (set_fold_ind_L (λ r' Y, ∀ k, r' !! k
                           = after_ancestors self Y nm k <$> r !! k)).
  - intros k. unfold after_ancestors.
    rewrite decide_False by set_solver.
    destruct (r !! k) as [s|]; simpl; [|done].
    case_decide; [|done]. unfold take. schema_eq.
  - intros x Y r' Hx IH k. unfold add_ancestor.
    rewrite name_of_alter by done.
    rewrite (name_of_same r r'), Hnm.
    2:{ intros j. rewrite IH. destruct (r !! j); simpl; [|done].
        by rewrite name_after_ancestors. }
    destruct x as [n]. simpl.
    rewrite !lookup_alter.
    assert (∀ (A : Type) (u v : A),
              (if decide (Ref k ∈ ({[Ref n]} ∪ Y : gset SchemaRef)) then u else v)
              = if decide (n = k) then u
                else if decide (Ref k ∈ Y) then u else v) as Hdec.
    { intros A u v. repeat case_decide; try done; exfalso; set_solver. }
    unfold after_ancestors. rewrite Hdec.
    destruct (decide (n = k)) as [->|Hn], (decide (self = k)) as [->|Hs];
      rewrite ?IH; destruct (r !! k) as [s|] eqn:Hk; simpl; try done;
      unfold after_ancestors; rewrite ?(decide_False (P := Ref k ∈ Y)) by done;
      repeat case_decide; try done; unfold take; schema_eq.
Qed.

Lemma inherit_lookup (self parent : string) (r : gmap string Schema)
    (p : Schema) (k : string) :
  r !! parent = Some p →
  inherit self parent r !! k
  = after_inherit self parent p (name_of r) k <$> r !! k.
Proof.
  intros Hp. unfold inherit. rewrite Hp.
  rewrite (add_ancestors_lookup _ _ (name_of r)).
  2:{ intros a. by rewrite !name_of_alter. }
  rewrite !lookup_alter.
  unfold after_inherit, after_ancestors.
  destruct (decide (self = k)) as [->|Hs]; destruct (r !! k) as [s|] eqn:Hk;
    simpl; try done; repeat case_decide; try done; unfold take, absorb.
  all: schema_eq; apply merge_properties_union.
Qed.

Lemma after_inherit_config self parent p nm k s :
  config (after_inherit self parent p nm k s) = config s.
Proof. unfold after_inherit. by repeat case_decide. Qed.

Lemma after_inherit_schemata self parent p nm k s :
  schemata (after_inherit self parent p nm k s)
  = if decide (k = self) then schemata s ∪ schemata p else schemata s.
Proof. unfold after_inherit. by repeat case_decide. Qed.

Lemma after_inherit_extends self parent p nm k s :
  extends (after_inherit self parent p nm k s)
  = if decide (k = self) then extends s ∪ {[Ref parent]} else extends s.
Proof. unfold after_inherit. by repeat case_decide. Qed.

Lemma after_inherit_names self parent p nm k s :
  names (after_inherit self parent p nm k s)
  = if decide (k = self) then names s ∪ set_map nm (schemata p) else names s.
Proof. unfold after_inherit. by repeat case_decide. Qed.

Lemma after_inherit_descendants self parent p nm k s :
  descendants (after_inherit self parent p nm k s)
  = if decide (Ref k ∈ schemata p) then descendants s ∪ {[Ref self]}
    else descendants s.
Proof. unfold after_inherit. by repeat case_decide. Qed.

Lemma after_inherit_properties self parent p nm k s :
  properties (after_inherit self parent p nm k s)
  = if decide (k = self) then properties s ∪ properties p else properties s.
Proof. unfold after_inherit. by repeat case_decide. Qed.

Lemma after_inherit_cache self parent p nm k s :
  _matchable_schemata (after_inherit self parent p nm k s)
  = _matchable_schemata s.
Proof. unfold after_inherit. by repeat case_decide. Qed.

(** *** The graph is fixed by the configuration *)

Lemma config_name s s' : config s = config s' → name s = name s'.
Proof. intros H. apply (f_equal name) in H. exact H. Qed.

Lemma config_extends s s' : config s = config s' → _extends s = _extends s'.
Proof. intros H. apply (f_equal _extends) in H. exact H. Qed.

Lemma grows_refl r : grows r r.
Proof.
  intros k. destruct (r !! k) as [s|] eqn:E; [|done]. by exists s.
Qed.

Lemma grows_trans r1 r2 r3 : grows r1 r2 → grows r2 r3 → grows r1 r3.
Proof.
  intros H12 H23 k. specialize (H12 k). specialize (H23 k).
  destruct (r1 !! k) as [s1|]; [|by rewrite H12 in H23].
  destruct H12 as (s2 & E2 & Hc & He & Hs & Hd). rewrite E2 in H23.
  destruct H23 as (s3 & E3 & Hc' & He' & Hs' & Hd').
  exists s3. split_and!; [done|congruence|set_solver..].
Qed.

Lemma grows_lookup r r' k s :
  grows r r' → r !! k = Some s →
  ∃ s', r' !! k = Some s' ∧ config s = config s' ∧ extends s ⊆ extends s' ∧
        schemata s ⊆ schemata s' ∧ descendants s ⊆ descendants s'.
Proof. intros H E. specialize (H k). by rewrite E in H. Qed.

Lemma grows_lookup_inv r r' k s' :
  grows r r' → r' !! k = Some s' →
  ∃ s, r !! k = Some s ∧ config s = config s' ∧ extends s ⊆ extends s' ∧
       schemata s ⊆ schemata s' ∧ descendants s ⊆ descendants s'.
Proof.
  intros H E. specialize (H k). destruct (r !! k) as [s|]; [|congruence].
  destruct H as (s'' & E' & ?). exists s. by simplify_eq.
Qed.

Lemma grows_is_Some r r' k : grows r r' → is_Some (r !! k) ↔ is_Some (r' !! k).
Proof.
  intros H. split; intros [s E].
  - destruct (grows_lookup _ _ _ _ H E) as (s' & ? & _). eauto.
  - destruct (grows_lookup_inv _ _ _ _ H E) as (s' & ? & _). eauto.
Qed.

Lemma parent_of_grows r r' a b :
  grows r r' → parent_of r a b ↔ parent_of r' a b.
Proof.
  intros H. split; intros (s & E & Hin & Hb).
  - destruct (grows_lookup _ _ _ _ H E) as (s' & E' & Hc & _).
    exists s'. split_and!; [done| |by apply (grows_is_Some r r')].
    by rewrite <- (config_extends _ _ Hc).
  - destruct (grows_lookup_inv _ _ _ _ H E) as (s' & E' & Hc & _).
    exists s'. split_and!; [done| |by apply (grows_is_Some r r')].
    by rewrite (config_extends _ _ Hc).
Qed.

Lemma ancestor_grows r r' a b :
  grows r r' → ancestor r a b ↔ ancestor r' a b.
Proof.
  intros H. split; apply rtc_subrel; intros x y Hxy;
    by apply (parent_of_grows r r').
Qed.

Lemma ancestor_registered r a b :
  ancestor r a b → is_Some (r !! a) → is_Some (r !! b).
Proof.
  induction 1 as [|a e b (s & _ & _ & He) _ IH]; [done|]. intros _. by apply IH.
Qed.

Lemma ancestor_inv r a b :
  ancestor r a b → a = b ∨ ∃ e, parent_of r a e ∧ ancestor r e b.
Proof. intros H. destruct H; eauto. Qed.

Lemma closed_grows r r' k : grows r r' → closed r k → closed r' k.
Proof.
  intros H (s & E & Hanc & Hext).
  destruct (grows_lookup _ _ _ _ H E) as (s' & E' & Hc & He & Hs & _).
  exists s'. split_and!; [done| |].
  - intros a Ha. apply Hs, Hanc. by apply (ancestor_grows r r').
  - intros e Hin. rewrite <- (config_extends _ _ Hc) in Hin.
    destruct (Hext e Hin) as [Hreg Hmem].
    split; [by apply (grows_is_Some r r')|by apply He].
Qed.

Lemma absorbed_grows r r' self e :
  grows r r' → absorbed r self e → absorbed r' self e.
Proof.
  intros H (Hcl & s & E & Hin & Hanc).
  split; [by apply (closed_grows r)|].
  destruct (grows_lookup _ _ _ _ H E) as (s' & E' & Hc & He & Hs & _).
  exists s'. split_and!; [done|by apply He|].
  intros a Ha. apply Hs, Hanc. by apply (ancestor_grows r r').
Qed.

(** *** inherit and the hierarchy slots *)

Lemma inherit_grows self parent r : grows r (inherit self parent r).
Proof.
  unfold inherit. destruct (r !! parent) as [p|] eqn:Hp; [|apply grows_refl].
  intros k.
  assert (inherit self parent r !! k
          = after_inherit self parent p (name_of r) k <$> r !! k) as Hk
    by by apply inherit_lookup.
  unfold inherit in Hk. rewrite Hp in Hk. rewrite Hk.
  destruct (r !! k) as [s|]; simpl; [|done].
  eexists. split; [done|].
  rewrite after_inherit_config, after_inherit_extends, after_inherit_schemata,
    after_inherit_descendants.
  split; [done|]. repeat case_decide; set_solver.
Qed.

Lemma ref_name_Ref (a : SchemaRef) : Ref (ref_name a) = a.
Proof. by destruct a. Qed.

Lemma set_map_agree (f g : SchemaRef → string) (X : gset SchemaRef) :
  (∀ a, a ∈ X → f a = g a) →
  (set_map f X : gset string) = set_map g X.
Proof.
  intros H. apply set_eq. intros n. rewrite !elem_of_map.
  split; intros (a & -> & Ha); exists a; split; auto. symmetry. auto.
Qed.

Lemma hier_inv_name_of r k s a :
  hier_inv r → r !! k = Some s → a ∈ schemata s → name_of r a = ref_name a.
Proof.
  intros Hinv Hk Ha.
  destruct (Hinv k s Hk) as (_ & _ & _ & Hanc & _).
  destruct (ancestor_registered r k (ref_name a) (Hanc a Ha)) as [x Hx]; [eauto|].
  unfold name_of. rewrite Hx. by destruct (Hinv _ _ Hx) as (-> & _).
Qed.

Lemma inherit_hier_inv self parent r :
  hier_inv r → parent_of r self parent → hier_inv (inherit self parent r).
Proof.
  intros Hinv Hpar.
  assert (Hpar' := Hpar). destruct Hpar' as (s0 & Hself & Hin & [p Hp]).
  assert (∀ j, inherit self parent r !! j
               = after_inherit self parent p (name_of r) j <$> r !! j) as Hlk
    by (intros j; by apply inherit_lookup).
  assert (Hg := inherit_grows self parent r).
  intros k s' Hk'. rewrite Hlk in Hk'.
  destruct (r !! k) as [s|] eqn:Hk; simpl in Hk'; [|done].
  injection Hk' as <-.
  destruct (Hinv k s Hk) as (Hname & Hown & Hnames & Hanc & Hdesc & Hext & Hinvd).
  destruct (Hinv parent p Hp) as (_ & _ & _ & Hpanc & _).
  rewrite after_inherit_schemata, after_inherit_names, after_inherit_extends,
    after_inherit_descendants.
  split; [by rewrite (config_name _ _ (after_inherit_config _ _ _ _ _ _))|].
  clear Hname. split_and!.
  - case_decide; [apply elem_of_union_l|]; done.
  - case_decide; [|done]. rewrite set_map_union_L, Hnames. f_equal.
    apply set_map_agree. intros a Ha. by apply (hier_inv_name_of r parent p).
  - intros a Ha. apply (ancestor_grows r _ _ _ Hg).
    case_decide as Hks; [|by apply Hanc]. subst k.
    apply elem_of_union in Ha as [Ha|Ha]; [by apply Hanc|].
    eapply rtc_l; [exact Hpar|]. by apply Hpanc.
  - intros a Ha Hne.
    assert (a ∈ schemata s ∨ (k = self ∧ a ∈ schemata p)) as [Hold|[-> Hnew]].
    { case_decide; [|by left].
      apply elem_of_union in Ha as [Ha|Ha]; [by left|by right]. }
    all: clear Ha.
    + destruct (Hdesc a Hold Hne) as (x & Hx & Hmem).
      exists (after_inherit self parent p (name_of r) (ref_name a) x).
      rewrite Hlk, Hx. split; [done|].
      rewrite after_inherit_descendants.
      case_decide; [apply elem_of_union_l|]; done.
    + destruct (ancestor_registered r parent (ref_name a) (Hpanc a Hnew))
        as [x Hx]; [eauto|].
      exists (after_inherit self parent p (name_of r) (ref_name a) x).
      rewrite Hlk, Hx. split; [done|].
      rewrite after_inherit_descendants, ref_name_Ref.
      rewrite decide_True by done. apply elem_of_union_r. by apply elem_of_singleton.
  - intros e He. apply (parent_of_grows r _ _ _ Hg).
    case_decide as Hks; [|by apply Hext]. subst k.
    apply elem_of_union in He as [He|He]; [by apply Hext|].
    apply elem_of_singleton in He. by subst e.
  - intros d Hd.
    assert (d ∈ descendants s ∨ (d = Ref self ∧ Ref k ∈ schemata p))
      as [Hold|[-> Hnew]].
    { case_decide; [|by left].
      apply elem_of_union in Hd as [Hd|Hd]; [by left|].
      apply elem_of_singleton in Hd. by right. }
    all: clear Hd.
    + destruct (Hinvd d Hold) as (x & Hx & Hmem).
      exists (after_inherit self parent p (name_of r) (ref_name d) x).
      rewrite Hlk, Hx. split; [done|].
      rewrite after_inherit_schemata.
      case_decide; [apply elem_of_union_l|]; done.
    + exists (after_inherit self parent p (name_of r) self s0).
      simpl. rewrite Hlk, Hself. split; [done|].
      rewrite after_inherit_schemata, decide_True by done.
      by apply elem_of_union_r.
Qed.

Lemma inherit_absorbed self parent r :
  hier_inv r → parent_of r self parent → closed r parent →
  absorbed (inherit self parent r) self parent.
Proof.
  intros Hinv Hpar Hcl.
  assert (Hg := inherit_grows self parent r).
  split; [by apply (closed_grows r)|].
  destruct Hpar as (s0 & Hself & Hin & [p Hp]).
  exists (after_inherit self parent p (name_of r) self s0).
  rewrite (inherit_lookup _ _ _ p) by done. rewrite Hself.
  split; [done|].
  rewrite after_inherit_extends, after_inherit_schemata, !decide_True by done.
  split; [apply elem_of_union_r; by apply elem_of_singleton|].
  intros a Ha. apply (ancestor_grows r _ _ _ Hg) in Ha.
  destruct Hcl as (p' & Hp' & Hanc & _). simplify_eq.
  apply elem_of_union_r. by apply Hanc.
Qed.

Lemma closed_from_absorbed r k s :
  hier_inv r → r !! k = Some s →
  (∀ e, e ∈ _extends s → is_Some (r !! e) ∧ absorbed r k e) →
  closed r k.
Proof.
  intros Hinv Hk Hall. exists s. split; [done|]. split.
  - intros a Ha. apply ancestor_inv in Ha as [<-|(e & (s' & Hk' & Hin & _) & Hea)].
    + by destruct (Hinv k s Hk) as (_ & Hown & _).
    + simplify_eq. destruct (Hall e Hin) as (_ & _ & s'' & Hk'' & _ & Hanc).
      simplify_eq. by apply Hanc.
  - intros e Hin. destruct (Hall e Hin) as (Hreg & _ & s'' & Hk'' & Hmem & _).
    by simplify_eq.
Qed.

(** *** Changes outside the hierarchy slots *)

Lemma skeleton_fields s s' :
  skeleton s = skeleton s' →
  config s = config s' ∧ extends s = extends s' ∧ schemata s = schemata s' ∧
  names s = names s' ∧ descendants s = descendants s'.
Proof.
  intros H. split_and!.
  - apply (f_equal config) in H. exact H.
  - apply (f_equal extends) in H. exact H.
  - apply (f_equal schemata) in H. exact H.
  - apply (f_equal names) in H. exact H.
  - apply (f_equal descendants) in H. exact H.
Qed.

Lemma skeleton_lookup (r r' : gmap string Schema) k s' :
  skeleton <$> r = skeleton <$> r' → r' !! k = Some s' →
  ∃ s, r !! k = Some s ∧ skeleton s = skeleton s'.
Proof.
  intros H E. apply (f_equal (.!! k)) in H. rewrite !lookup_fmap, E in H.
  destruct (r !! k) as [s|]; simpl in H; [|done].
  exists s. split; [done|]. congruence.
Qed.

Lemma skeleton_grows (r r' : gmap string Schema) :
  skeleton <$> r = skeleton <$> r' → grows r r'.
Proof.
  intros H k. destruct (r !! k) as [s|] eqn:E.
  - destruct (skeleton_lookup r' r k s (eq_sym H) E) as (s' & E' & Hs).
    apply skeleton_fields in Hs as (? & ? & ? & ? & ?).
    exists s'. split_and!; [done|done|set_solver..].
  - apply (f_equal (.!! k)) in H. rewrite !lookup_fmap, E in H.
    by destruct (r' !! k).
Qed.

Lemma skeleton_hier_inv (r r' : gmap string Schema) :
  skeleton <$> r = skeleton <$> r' → hier_inv r → hier_inv r'.
Proof.
  intros H Hinv k s' E'.
  assert (Hg := skeleton_grows r r' H).
  destruct (skeleton_lookup r r' k s' H E') as (s & E & Hs).
  apply skeleton_fields in Hs as (Hc & He & Hsch & Hn & Hd).
  destruct (Hinv k s E) as (Hname & Hown & Hnames & Hanc & Hdesc & Hext & Hinvd).
  rewrite <- He, <- Hsch, <- Hn, <- Hd.
  split; [by rewrite <- (config_name _ _ Hc)|]. clear Hname. split_and!; try done.
  - intros a Ha. apply (ancestor_grows r r' _ _ Hg). by apply Hanc.
  - intros a Ha Hne. destruct (Hdesc a Ha Hne) as (x & Hx & Hmem).
    destruct (grows_lookup _ _ _ _ Hg Hx) as (x' & Hx' & _ & _ & _ & Hsub).
    exists x'. split; [done|]. by apply Hsub.
  - intros e Hin. apply (parent_of_grows r r' _ _ Hg). by apply Hext.
  - intros d Hin. destruct (Hinvd d Hin) as (x & Hx & Hmem).
    destruct (grows_lookup _ _ _ _ Hg Hx) as (x' & Hx' & _ & _ & Hsub & _).
    exists x'. split; [done|]. by apply Hsub.
Qed.

(** *** Loops *)

Lemma for_each_inv {A} (I : Model → Prop) (body : A → Model → outcome unit)
    (l : list A) :
  (∀ x m m', x ∈ l → I m → outcome_state (body x m) = Some m' → I m') →
  ∀ m m', I m → outcome_state (for_each body l m) = Some m' → I m'.
Proof.
  induction l as [|x l IH]; intros Hbody m m' HI Hrun; simpl in Hrun.
  - by simplify_eq.
  - unfold seq in Hrun. destruct (body x m) as [[] m1|e m1|] eqn:Hx.
    + apply (IH (λ y m0 m0' Hy, Hbody y m0 m0' (list_elem_of_further _ _ _ Hy)) m1);
        [|done].
      apply (Hbody x m m1); [left|done|by rewrite Hx].
    + simpl in Hrun. simplify_eq.
      apply (Hbody x m m'); [left|done|by rewrite Hx].
    + done.
Qed.

(** When the loop returns, every round returned; what a round establishes
    ([Q]) holds at the end when every round keeps what was established. *)
Lemma for_each_done {A} (I : Model → Prop) (Q : A → Model → Prop)
    (body : A → Model → outcome unit) (l : list A) :
  (∀ x m m', x ∈ l → I m → body x m = Done tt m' →
             I m' ∧ Q x m' ∧ ∀ y, Q y m → Q y m') →
  ∀ m m', I m → for_each body l m = Done tt m' →
          I m' ∧ (∀ x, x ∈ l → Q x m') ∧ ∀ y, Q y m → Q y m'.
Proof.
  induction l as [|x l IH]; intros Hbody m m' HI Hrun; simpl in Hrun.
  - simplify_eq. split_and!; [done| |done].
    intros x Hx. by apply elem_of_nil in Hx.
  - unfold seq in Hrun. destruct (body x m) as [[] m1|e m1|] eqn:Hx; [|done..].
    destruct (Hbody x m m1) as (HI1 & HQ1 & Hkeep1); [left|done|done|].
    destruct (IH (λ y m0 m0' Hy, Hbody y m0 m0' (list_elem_of_further _ _ _ Hy))
                 m1 m' HI1 Hrun) as (HI' & HQ' & Hkeep').
    split_and!; [done| |by auto].
    intros y Hy. apply elem_of_cons in Hy as [->|Hy]; auto.
Qed.

End Graph.

Section Hierarchy.
Context `{ext : Collaborators}.
Hypothesis Hkeep : keeps_hierarchy.

Lemma call_Property_generate_hier l m m' :
  outcome_state (call_Property_generate l m) = Some m' →
  skeleton <$> schemas m = skeleton <$> schemas m'.
Proof.
  unfold call_Property_generate. specialize (Hkeep l m).
  destruct (Property_generate l m) as [m1 [e|]]; simpl in *; intros; by simplify_eq.
Qed.

Lemma generate_properties_hier self m m' :
  outcome_state (generate_properties self m) = Some m' →
  skeleton <$> schemas m = skeleton <$> schemas m'.
Proof.
  unfold generate_properties.
  apply (for_each_inv (λ m1, skeleton <$> schemas m = skeleton <$> schemas m1));
    [|done].
  intros l m1 m2 _ H1 H2. rewrite H1. by apply (call_Property_generate_hier l).
Qed.

Lemma require_property_state template self n m :
  outcome_state (require_property template self n m) = Some m.
Proof. unfold require_property. by destruct (properties_of m self !! n). Qed.

Lemma require_properties_state template self ns m :
  outcome_state (for_each (require_property template self) ns m) = Some m.
Proof.
  induction ns as [|n ns IH]; [done|]. simpl. unfold seq.
  assert (Hn := require_property_state template self n m).
  destruct (require_property template self n m) as [[] m1|e m1|];
    simpl in Hn; by simplify_eq.
Qed.

Lemma check_edge_state self m : outcome_state (check_edge self m) = Some m.
Proof.
  unfold check_edge. destruct (schemas m !! self) as [s|]; [|done].
  destruct (edge s); [|done].
  destruct (source_prop s); [|done]. by destruct (target_prop s).
Qed.

Lemma seq_state (f g : Model → outcome unit) m :
  outcome_state (f m) = Some m → outcome_state (g m) = Some m →
  outcome_state (seq f g m) = Some m.
Proof.
  unfold seq. intros Hf Hg. destruct (f m) as [[] m1|e m1|]; simpl in *;
    by simplify_eq.
Qed.

Lemma check_declared_state self s m :
  outcome_state (check_declared self s m) = Some m.
Proof.
  unfold check_declared.
  repeat (apply seq_state; [apply require_properties_state|]).
  apply check_edge_state.
Qed.

Lemma seq_keeps_state (f g : Model → outcome unit) m m' :
  (∀ m0, outcome_state (g m0) = Some m0) →
  outcome_state (seq f g m) = Some m' → outcome_state (f m) = Some m'.
Proof.
  unfold seq. intros Hg H. destruct (f m) as [[] m1|e m1|]; simpl in *; [|done..].
  rewrite Hg in H. done.
Qed.

Lemma seq_keeps_done (f g : Model → outcome unit) m m' :
  (∀ m0, outcome_state (g m0) = Some m0) →
  seq f g m = Done tt m' → f m = Done tt m'.
Proof.
  unfold seq. intros Hg H. destruct (f m) as [[] m1|e m1|]; simpl in *; [|done..].
  specialize (Hg m1). rewrite H in Hg. simpl in Hg. by simplify_eq.
Qed.

Lemma generate_unfold fuel self m s :
  schemas m !! self = Some s →
  generate (S fuel) self m =
  seq (for_each (generate_parent (generate fuel) self) (_extends s))
      (seq (generate_properties self) (check_declared self s)) m.
Proof. intros H. simpl. by rewrite H. Qed.

Lemma generate_parent_hier fuel self e m m' s :
  hier_effect fuel →
  hier_inv (schemas m) → schemas m !! self = Some s → e ∈ _extends s →
  outcome_state (generate_parent (generate fuel) self e m) = Some m' →
  hier_inv (schemas m') ∧ grows (schemas m) (schemas m') ∧
  (generate_parent (generate fuel) self e m = Done tt m' →
   is_Some (schemas m' !! e) ∧ absorbed (schemas m') self e).
Proof.
  intros IH Hinv Hself He. unfold generate_parent, model_get.
  destruct (schemas m !! e) as [p|] eqn:Hp; simpl.
  2:{ intros ?; simplify_eq. split_and!; [done|apply grows_refl|done]. }
  destruct (generate fuel e m) as [[] m1|ex m1|] eqn:Hrun; simpl; [| |done].
  - intros ?; simplify_eq.
    destruct (IH e m m1 Hinv) as (Hinv1 & Hg1 & Hcl1); [by rewrite Hrun|].
    assert (parent_of (schemas m1) self e) as Hpar.
    { apply (parent_of_grows _ _ _ _ Hg1). exists s. eauto. }
    assert (Hg2 := inherit_grows self e (schemas m1)).
    split_and!.
    + by apply inherit_hier_inv.
    + by eapply grows_trans.
    + intros _. split.
      * apply (grows_is_Some _ _ _ Hg2). by destruct Hpar as (? & ? & ? & ?).
      * apply inherit_absorbed; [done..|]. apply Hcl1; [done|eauto].
  - intros ?; simplify_eq.
    destruct (IH e m m' Hinv) as (Hinv1 & Hg1 & _); [by rewrite Hrun|].
    done.
Qed.

Lemma generate_hier fuel : hier_effect fuel.
Proof.
  induction fuel as [|fuel IH]; intros self m m' Hinv Hrun; [done|].
  destruct (schemas m !! self) as [s|] eqn:Hself.
  2:{ simpl in *. rewrite Hself in *. simpl in Hrun. simplify_eq.
      split_and!; [done|apply grows_refl|]. by intros _ [? ?]. }
  rewrite (generate_unfold _ _ _ s Hself) in *.
  set (parents := for_each (generate_parent (generate fuel) self) (_extends s)) in *.
  set (I := λ m0, hier_inv (schemas m0) ∧ grows (schemas m) (schemas m0)).
  assert (∀ e m0 m0', e ∈ _extends s → I m0 →
            outcome_state (generate_parent (generate fuel) self e m0) = Some m0' →
            hier_inv (schemas m0') ∧ grows (schemas m0) (schemas m0') ∧
            (generate_parent (generate fuel) self e m0 = Done tt m0' →
             is_Some (schemas m0' !! e) ∧ absorbed (schemas m0') self e))
    as Hstep.
  { intros e m0 m0' He [Hinv0 Hg0] Hrun0.
    destruct (grows_lookup _ _ _ _ Hg0 Hself) as (s0 & Hs0 & Hc & _).
    apply (generate_parent_hier fuel self e m0 m0' s0); try done.
    by rewrite <- (config_extends _ _ Hc). }
  assert (I m) as HI by (split; [done|apply grows_refl]).
  destruct (parents m) as [[] m1|ex m1|] eqn:Hparents.
  - (* the loop over the parents returned *)
    destruct (for_each_done I (λ e m0, is_Some (schemas m0 !! e)
                                       ∧ absorbed (schemas m0) self e)
                (generate_parent (generate fuel) self) (_extends s))
      with (m := m) (m' := m1)
      as ([Hinv1 Hg1] & Habs & _); [|done|done|].
    { intros e m0 m0' He HI0 Hrun0.
      destruct (Hstep e m0 m0' He HI0) as (Hinv0' & Hg0' & Hdone);
        [by rewrite Hrun0|].
      split; [|split].
      - split; [done|]. destruct HI0. by eapply grows_trans.
      - by apply Hdone.
      - intros y [Hy1 Hy2]. split.
        + by apply (grows_is_Some _ _ _ Hg0').
        + by apply (absorbed_grows _ _ _ _ Hg0'). }
    assert (outcome_state (generate_properties self m1) = Some m') as Hprops.
    { apply (seq_keeps_state _ (check_declared self s));
        [apply check_declared_state|].
      unfold seq in Hrun at 1. by rewrite Hparents in Hrun. }
    assert (Hsk := generate_properties_hier self m1 m' Hprops).
    assert (Hg2 := skeleton_grows _ _ Hsk).
    split_and!.
    + by apply (skeleton_hier_inv _ _ Hsk).
    + by eapply grows_trans.
    + intros _ _.
      assert (grows (schemas m) (schemas m')) as Hg by by eapply grows_trans.
      destruct (grows_lookup _ _ _ _ Hg Hself) as (s' & Hs' & Hc & _).
      apply (closed_from_absorbed _ _ s'); [by apply (skeleton_hier_inv _ _ Hsk)|done|].
      intros e He. rewrite <- (config_extends _ _ Hc) in He.
      destruct (Habs e He) as [Hreg Habsorbed]. split.
      * by apply (grows_is_Some _ _ _ Hg2).
      * by apply (absorbed_grows _ _ _ _ Hg2).
  - (* a parent raised *)
    unfold seq in Hrun at 1. rewrite Hparents in Hrun. simpl in Hrun. simplify_eq.
    destruct (for_each_inv I (generate_parent (generate fuel) self) (_extends s))
      with (m := m) (m' := m')
      as [Hinv1 Hg1]; [|done|by unfold parents in Hparents; rewrite Hparents|].
    { intros e m0 m0' He HI0 Hrun0.
      destruct (Hstep e m0 m0' He HI0 Hrun0) as (Hinv0' & Hg0' & _).
      split; [done|]. destruct HI0. by eapply grows_trans. }
    split_and!; [done|done|].
    intros Hd. unfold seq in Hd. by rewrite Hparents in Hd.
  - unfold seq in Hrun at 1. by rewrite Hparents in Hrun.
Qed.

Lemma constructed_hier_inv r : constructed r → hier_inv r.
Proof.
  intros Hc k s Hk. destruct (Hc k s Hk) as (Hn & He & Hs & Hns & Hd).
  rewrite He, Hs, Hns, Hd. split_and!.
  - done.
  - by apply elem_of_singleton.
  - by rewrite set_map_singleton_L.
  - intros a Ha. apply elem_of_singleton in Ha. subst a. simpl. reflexivity.
  - intros a Ha Hne. by apply elem_of_singleton in Ha.
  - intros e Hin. by apply elem_of_empty in Hin.
  - intros d Hin. by apply elem_of_empty in Hin.
Qed.

Lemma elem_of_parents_schemata (r : gmap string Schema) (E : gset SchemaRef) x :
  x ∈ ⋃ (schemata_of r <$> elements E) ↔
  ∃ P p, P ∈ E ∧ r !! ref_name P = Some p ∧ x ∈ schemata p.
Proof.
  rewrite elem_of_union_list. split.
  - intros (X & HX & Hx). apply list_elem_of_fmap in HX as (P & -> & HP).
    apply elem_of_elements in HP. unfold schemata_of in Hx.
    destruct (r !! ref_name P) as [p|] eqn:Hp; [eauto|].
    by apply elem_of_empty in Hx.
  - intros (P & p & HP & Hp & Hx). exists (schemata_of r P). split.
    + apply list_elem_of_fmap. exists P. split; [done|]. by apply elem_of_elements.
    + unfold schemata_of. by rewrite Hp.
Qed.

(** With the invariant, complete hierarchy slots are the closure. *)
Lemma closed_everywhere r :
  hier_inv r → (∀ k, is_Some (r !! k) → closed r k) →
  ∀ S s, r !! S = Some s →
    schemata s = {[Ref S]} ∪ ⋃ (schemata_of r <$> elements (extends s)) ∧
    (∀ A, A ∈ schemata s ↔ ancestor r S (ref_name A)) ∧
    names s = set_map (name_of r) (schemata s) ∧
    (∀ P, P ∈ schemata s → P ≠ Ref S →
          ∃ p, r !! ref_name P = Some p ∧ Ref S ∈ descendants p) ∧
    (∀ D, D ∈ descendants s → Ref S ∈ schemata_of r D).
Proof.
  intros Hinv Hall S s HS.
  destruct (Hinv S s HS) as (_ & Hown & Hnames & Hanc & Hdesc & Hext & Hinvd).
  destruct (Hall S) as (s' & HS' & Hcl & Hpar); [eauto|].
  rewrite HS in HS'. injection HS' as <-.
  assert (∀ A, A ∈ schemata s ↔ ancestor r S (ref_name A)) as Hiff.
  { intros A. split; [apply Hanc|]. intros HA. rewrite <- (ref_name_Ref A).
    by apply Hcl. }
  split_and!; try done.
  - apply set_eq. intros A.
    rewrite elem_of_union, elem_of_singleton, elem_of_parents_schemata, Hiff.
    split.
    + intros HA. apply ancestor_inv in HA as [HA|(e & Hpe & Hea)].
      * left. by rewrite <- (ref_name_Ref A), <- HA.
      * right. destruct Hpe as (s0 & Hs0 & Hin & [p Hp]).
        rewrite HS in Hs0. injection Hs0 as <-.
        exists (Ref e), p. split_and!; [by apply Hpar|done|].
        destruct (Hall e) as (p' & Hp' & Hcl' & _); [eauto|].
        simpl in Hp'. rewrite Hp in Hp'. injection Hp' as <-.
        rewrite <- (ref_name_Ref A). by apply Hcl'.
    + intros [->|(P & p & HP & Hp & HA)]; [reflexivity|].
      eapply rtc_l; [by apply Hext|].
      by destruct (Hinv _ _ Hp) as (_ & _ & _ & Hanc' & _); apply Hanc'.
  - rewrite Hnames. apply set_map_agree. intros a Ha. symmetry.
    by apply (hier_inv_name_of r S s).
  - intros D HD. destruct (Hinvd D HD) as (x & Hx & Hmem).
    unfold schemata_of. by rewrite Hx.
Qed.

(** C1.  From freshly constructed schemata, once [generate()] has returned
    for every schema of the registry (in any order, [prop.generate()] leaving
    the hierarchy slots alone): [schemata] of every schema [S] is [{S}] united
    with the [schemata] of the members of [S.extends], and it is the least
    such set, the ancestors of [S] along resolvable [extends] names;
    [names] is the set of names of [schemata]; [S] is in [P.descendants] for
    every [P] in [S.schemata] other than [S]; and every member [D] of
    [S.descendants] has [S] in its [schemata]. *)
Theorem C1_closure_correctness (fuel : nat) (order : list string) (m0 m : Model) :
  constructed (schemas m0) →
  (∀ k, is_Some (schemas m0 !! k) → k ∈ order) →
  generate_each fuel order m0 = Done tt m →
  ∀ S s, schemas m !! S = Some s →
    schemata s
    = {[Ref S]} ∪ ⋃ (schemata_of (schemas m) <$> elements (extends s)) ∧
    (∀ A, A ∈ schemata s ↔ ancestor (schemas m) S (ref_name A)) ∧
    names s = set_map (name_of (schemas m)) (schemata s) ∧
    (∀ P, P ∈ schemata s → P ≠ Ref S →
          ∃ p, schemas m !! ref_name P = Some p ∧ Ref S ∈ descendants p) ∧
    (∀ D, D ∈ descendants s → Ref S ∈ schemata_of (schemas m) D).
Proof.
  intros Hc Hall Hrun.
  destruct (for_each_done
              (λ m1, hier_inv (schemas m1) ∧ grows (schemas m0) (schemas m1))
              (λ k m1, is_Some (schemas m0 !! k) → closed (schemas m1) k)
              (generate fuel) order) with (m := m0) (m' := m)
    as ([Hinv Hg] & Hcl & _); [| |done|].
  - intros k m1 m2 _ [Hinv1 Hg1] Hk.
    destruct (generate_hier fuel k m1 m2 Hinv1) as (Hinv2 & Hg2 & Hcl2);
      [by rewrite Hk|].
    split; [|split].
    + split; [done|by eapply grows_trans].
    + intros Hreg. apply Hcl2; [done|]. by apply (grows_is_Some _ _ _ Hg1).
    + intros y Hy Hreg. apply (closed_grows _ _ _ Hg2). by apply Hy.
  - split; [by apply constructed_hier_inv|apply grows_refl].
  - apply closed_everywhere; [done|].
    intros k Hk. apply (grows_is_Some _ _ _ Hg) in Hk. apply Hcl; [|done].
    by apply Hall.
Qed.

End Hierarchy.

(** ** Merging and repeated runs *)

Section Merging.

Lemma union_absorb_L {A} `{Countable A} (X Y : gset A) : Y ⊆ X → X ∪ Y = X.
Proof. set_solver. Qed.

Lemma map_union_absorb (s p : gmap string loc) : dom p ⊆ dom s → s ∪ p = s.
Proof.
  intros Hdom. apply map_eq. intros i. rewrite lookup_union.
  destruct (s !! i) as [l|] eqn:Hs; simpl; [by destruct (p !! i)|].
  destruct (p !! i) as [l|] eqn:Hp; [|done].
  assert (i ∈ dom s) as Hi by (apply Hdom, elem_of_dom; eauto).
  apply elem_of_dom in Hi as [? ?]. congruence.
Qed.

Lemma evolves_grows r r' : evolves r r' → grows r r'.
Proof.
  intros H k. specialize (H k). destruct (r !! k) as [s|]; [|done].
  destruct H as (s' & ? & ? & ? & ? & ? & ? & ? & ?). eauto 10.
Qed.

Lemma evolves_refl r : evolves r r.
Proof.
  intros k. destruct (r !! k) as [s|] eqn:E; [|done]. exists s. split_and!; done.
Qed.

Lemma evolves_trans r1 r2 r3 : evolves r1 r2 → evolves r2 r3 → evolves r1 r3.
Proof.
  intros H12 H23 k. specialize (H12 k). specialize (H23 k).
  destruct (r1 !! k) as [s1|]; [|by rewrite H12 in H23].
  destruct H12 as (s2 & E2 & Hc & Hp & He & Hs & Hn & Hd & Hm). rewrite E2 in H23.
  destruct H23 as (s3 & E3 & Hc' & Hp' & He' & Hs' & Hn' & Hd' & Hm').
  exists s3. split_and!; [done|congruence|by etrans|set_solver..|congruence].
Qed.

Lemma evolves_lookup r r' k s :
  evolves r r' → r !! k = Some s →
  ∃ s', r' !! k = Some s' ∧ config s = config s' ∧
        properties s ⊆ properties s' ∧
        extends s ⊆ extends s' ∧ schemata s ⊆ schemata s' ∧
        names s ⊆ names s' ∧ descendants s ⊆ descendants s' ∧
        _matchable_schemata s = _matchable_schemata s'.
Proof. intros H E. specialize (H k). by rewrite E in H. Qed.

Lemma evolves_name_of r r' a : evolves r r' → name_of r' a = name_of r a.
Proof.
  intros H. unfold name_of. specialize (H (ref_name a)).
  destruct (r !! ref_name a) as [s|].
  - destruct H as (s' & -> & Hc & _). symmetry. by apply config_name.
  - by rewrite H.
Qed.

Lemma inherit_evolves self parent r : evolves r (inherit self parent r).
Proof.
  destruct (r !! parent) as [p|] eqn:Hp.
  2:{ unfold inherit. rewrite Hp. apply evolves_refl. }
  intros k. rewrite (inherit_lookup _ _ _ p) by done.
  destruct (r !! k) as [s|]; simpl; [|done].
  eexists. split; [done|].
  rewrite after_inherit_config, after_inherit_extends, after_inherit_schemata,
    after_inherit_descendants, after_inherit_names, after_inherit_properties,
    after_inherit_cache.
  split_and!; try done; repeat case_decide; try done; try set_solver.
  apply map_union_subseteq_l.
Qed.

Lemma merged_inherit_id self e r : merged r self e → inherit self e r = r.
Proof.
  intros (s & p & Hs & Hp & Hprops & Hext & Hsch & Hnames & Hdesc).
  apply map_eq. intros k. rewrite (inherit_lookup _ _ _ p) by done.
  destruct (r !! k) as [x|] eqn:Hk; simpl; [|done]. f_equal.
  apply schema_ext.
  - apply after_inherit_config.
  - rewrite after_inherit_extends. case_decide; [|done]. simplify_eq.
    apply union_absorb_L. by apply singleton_subseteq_l.
  - rewrite after_inherit_schemata. case_decide; [|done]. simplify_eq.
    by apply union_absorb_L.
  - rewrite after_inherit_names. case_decide; [|done]. simplify_eq.
    apply union_absorb_L. exact Hnames.
  - rewrite after_inherit_descendants. case_decide as Hin; [|done].
    apply union_absorb_L, singleton_subseteq_l. by apply (Hdesc (Ref k) x).
  - apply after_inherit_cache.
  - rewrite after_inherit_properties. case_decide; [|done]. simplify_eq.
    by apply map_union_absorb.
Qed.

Lemma inherit_merged self e r :
  is_Some (r !! self) → is_Some (r !! e) → merged (inherit self e r) self e.
Proof.
  intros [s Hs] [p Hp].
  assert (Hev := inherit_evolves self e r).
  exists (after_inherit self e p (name_of r) self s),
         (after_inherit self e p (name_of r) e p).
  rewrite !(inherit_lookup _ _ _ p), Hs, Hp by done.
  split; [done|]. split; [done|].
  rewrite !after_inherit_properties, !after_inherit_schemata,
    after_inherit_extends, after_inherit_names.
  rewrite !(decide_True (P := self = self)) by done.
  assert ((if decide (e = self) then schemata p ∪ schemata p else schemata p)
          = schemata p) as -> by (case_decide; set_solver).
  split_and!.
  - rewrite dom_union_L. case_decide; [rewrite dom_union_L|]; set_solver.
  - set_solver.
  - set_solver.
  - rewrite (set_map_agree _ (name_of r)); [set_solver|].
    intros a _. by apply evolves_name_of.
  - intros a x Ha Hx. rewrite (inherit_lookup _ _ _ p) in Hx by done.
    destruct (r !! ref_name a) as [x0|]; simpl in Hx; [|done].
    injection Hx as <-. rewrite after_inherit_descendants, ref_name_Ref.
    rewrite decide_True by done. set_solver.
Qed.

(** *** Settled schemata stay as they are *)

Lemma evolves_lookup_inv r r' k s' :
  evolves r r' → r' !! k = Some s' →
  ∃ s, r !! k = Some s ∧ config s = config s' ∧
       properties s ⊆ properties s' ∧
       extends s ⊆ extends s' ∧ schemata s ⊆ schemata s' ∧
       names s ⊆ names s' ∧ descendants s ⊆ descendants s'.
Proof.
  intros H E. specialize (H k). destruct (r !! k) as [s|]; [|congruence].
  destruct H as (s'' & E' & ? & ? & ? & ? & ? & ? & ?). exists s.
  rewrite E in E'. injection E' as <-. split_and!; done.
Qed.

Lemma own_eq_refl s : own_eq s s.
Proof. by repeat split. Qed.

Lemma own_eq_trans s1 s2 s3 : own_eq s1 s2 → own_eq s2 s3 → own_eq s1 s3.
Proof.
  intros (? & ? & ? & ?) (? & ? & ? & ?). repeat split; congruence.
Qed.

Lemma config_declared s s' :
  config s = config s' → properties s = properties s' →
  declared_ok s → declared_ok s'.
Proof.
  intros Hc Hp [Hn He].
  assert (featured s = featured s') as Hf by exact (f_equal featured Hc).
  assert (caption s = caption s') as Hca by exact (f_equal caption Hc).
  assert (required s = required s') as Hr by exact (f_equal required Hc).
  assert (edge s = edge s') as Hed by exact (f_equal edge Hc).
  assert (edge_source s = edge_source s') as Hes by exact (f_equal edge_source Hc).
  assert (edge_target s = edge_target s') as Het by exact (f_equal edge_target Hc).
  unfold declared_ok, source_prop, target_prop, get in *.
  rewrite <- Hf, <- Hca, <- Hr, <- Hed, <- Hes, <- Het, <- Hp. done.
Qed.

Lemma merged_steady r r' n k e :
  steady r r' → settled n r e → merged r k e → merged r' k e.
Proof.
  intros [Hev Hown] Hset (s & p & Hs & Hp & Hprops & Hext & Hsch & Hnames & Hdesc).
  destruct (evolves_lookup _ _ _ _ Hev Hs)
    as (s' & Hs' & _ & Hp1 & He1 & Hs1 & Hn1 & _).
  destruct (Hown n e p Hset Hp) as (p' & Hp' & Hpp & _ & Hps & _).
  exists s', p'. split; [done|]. split; [done|].
  rewrite <- Hpp, <- Hps. split_and!.
  - etrans; [exact Hprops|]. by apply subseteq_dom.
  - by apply He1.
  - by etrans.
  - rewrite (set_map_agree _ (name_of r)).
    + etrans; [exact Hnames|done].
    + intros a _. by apply evolves_name_of.
  - intros a x' Ha Hx'.
    destruct (evolves_lookup_inv _ _ _ _ Hev Hx') as (x & Hx & _ & _ & _ & _ & _ & Hd).
    apply Hd. by apply (Hdesc a x).
Qed.

Lemma settled_steady r r' n k : steady r r' → settled n r k → settled n r' k.
Proof.
  intros Hst. revert k. induction n as [|n IH]; intros k Hset; [done|].
  intros s' Hs'. destruct Hst as [Hev Hown].
  destruct (evolves_lookup_inv _ _ _ _ Hev Hs') as (s & Hs & Hc & _).
  destruct (Hown (S n) k s Hset Hs) as (s'' & Hs'' & Hpp & _).
  rewrite Hs' in Hs''. injection Hs'' as <-.
  destruct (Hset s Hs) as [Hok Hpar]. split.
  - by apply (config_declared s).
  - intros e He. rewrite <- (config_extends _ _ Hc) in He.
    destruct (Hpar e He) as [Hse Hme]. split; [by apply IH|].
    by apply (merged_steady r r' n).
Qed.

Lemma steady_refl r : steady r r.
Proof.
  split; [apply evolves_refl|]. intros n k s _ Hs. exists s. split; [done|].
  apply own_eq_refl.
Qed.

Lemma steady_trans r1 r2 r3 : steady r1 r2 → steady r2 r3 → steady r1 r3.
Proof.
  intros H12 H23. split.
  - destruct H12, H23. by eapply evolves_trans.
  - intros n k s Hset Hs.
    destruct (proj2 H12 n k s Hset Hs) as (s2 & Hs2 & Ho2).
    destruct (proj2 H23 n k s2 (settled_steady _ _ _ _ H12 Hset) Hs2)
      as (s3 & Hs3 & Ho3).
    exists s3. split; [done|]. by eapply own_eq_trans.
Qed.

Lemma inherit_steady self e r s :
  r !! self = Some s → e ∈ _extends s → steady r (inherit self e r).
Proof.
  intros Hs He. split; [apply inherit_evolves|].
  intros n k sk Hset Hk.
  destruct (decide (k = self)) as [->|Hne].
  - destruct n as [|n]; [done|].
    destruct (Hset s Hs) as [_ Hpar]. destruct (Hpar e He) as [_ Hm].
    rewrite (merged_inherit_id _ _ _ Hm). exists sk. split; [done|].
    apply own_eq_refl.
  - destruct (r !! e) as [p|] eqn:Hp.
    2:{ unfold inherit. rewrite Hp. exists sk. split; [done|apply own_eq_refl]. }
    exists (after_inherit self e p (name_of r) k sk).
    rewrite (inherit_lookup _ _ _ p), Hk by done. split; [done|].
    unfold own_eq.
    rewrite after_inherit_properties, after_inherit_extends,
      after_inherit_schemata, after_inherit_names, !decide_False by done.
    done.
Qed.

End Merging.

Section Runs.
Context `{ext : Collaborators}.
Hypothesis Hframe : keeps_schemas.

Lemma call_Property_generate_schemas l m :
  call_Property_generate l m ≠ Diverged ∧
  ∀ m', outcome_state (call_Property_generate l m) = Some m' →
        schemas m' = schemas m.
Proof.
  unfold call_Property_generate. specialize (Hframe l m).
  destruct (Property_generate l m) as [m1 [e|]]; simpl in *;
    (split; [done|]); intros; by simplify_eq.
Qed.

Lemma for_each_total {A} (I : Model → Prop) (body : A → Model → outcome unit)
    (l : list A) :
  (∀ x m, x ∈ l → I m →
          body x m ≠ Diverged ∧
          ∀ m', outcome_state (body x m) = Some m' → I m') →
  ∀ m, I m →
       for_each body l m ≠ Diverged ∧
       ∀ m', outcome_state (for_each body l m) = Some m' → I m'.
Proof.
  induction l as [|x l IH]; intros Hbody m HI; simpl.
  - split; [done|]. intros m' ?; by simplify_eq/=.
  - unfold seq. destruct (Hbody x m) as [Hnd Hst]; [left|done|].
    destruct (body x m) as [[] m1|e m1|]; [|done|done].
    apply IH; [|by apply Hst].
    intros y m0 Hy. apply Hbody. by right.
Qed.

Lemma generate_properties_schemas self m :
  generate_properties self m ≠ Diverged ∧
  ∀ m', outcome_state (generate_properties self m) = Some m' →
        schemas m' = schemas m.
Proof.
  unfold generate_properties.
  apply (for_each_total (λ m1, schemas m1 = schemas m)); [|done].
  intros l m1 _ H1. destruct (call_Property_generate_schemas l m1) as [Hnd Hst].
  split; [done|]. intros m' Hm'. rewrite <- H1. by apply Hst.
Qed.

(** *** The checks at the end of [generate] *)


Lemma require_properties_raised template self ns m o :
  for_each (require_property template self) ns m = o →
  o ≠ Done tt m →
  ∃ n, n ∈ ns ∧ props_at (schemas m) self !! n = None ∧
       o = Raised (InvalidModel (Format template (ArgStr n))) m.
Proof.
  induction ns as [|n ns IH]; intros Ho Hne; simpl in Ho; [by subst o|].
  unfold seq, require_property in Ho.
  change (properties_of m self) with (props_at (schemas m) self) in Ho.
  destruct (props_at (schemas m) self !! n) as [l|] eqn:Hn.
  - destruct (IH Ho Hne) as (n' & Hin & Hnone & Heq).
    exists n'. split; [by right|done].
  - exists n. split; [left|done].
Qed.


Lemma check_declared_ok self s m s' :
  schemas m !! self = Some s' → config s = config s' →
  check_declared self s m = Done tt m → declared_ok s'.
Proof.
  intros Hs Hc Hdone.
  assert (featured s = featured s') as Hf by exact (f_equal featured Hc).
  assert (caption s = caption s') as Hca by exact (f_equal caption Hc).
  assert (required s = required s') as Hr by exact (f_equal required Hc).
  assert (props_at (schemas m) self = properties s') as Hprops
    by (unfold props_at; by rewrite Hs).
  assert (∀ template ns rest,
            seq (for_each (require_property template self) ns) rest m = Done tt m →
            (∀ n, n ∈ ns → is_Some (properties s' !! n)) ∧ rest m = Done tt m)
    as Hseq.
  { intros template ns rest Hrun. unfold seq in Hrun.
    destruct (for_each (require_property template self) ns m) as [[] m1|e m1|] eqn:Hl;
      [|done..].
    assert (m1 = m) as ->.
    { assert (H := require_properties_state template self ns m).
      rewrite Hl in H. simpl in H. by simplify_eq. }
    split; [|done]. intros n Hn.
    destruct (properties s' !! n) as [l|] eqn:Hlook; [eauto|].
    exfalso. clear Hrun. revert Hl. clear -Hn Hlook Hprops.
    induction ns as [|n' ns IH]; [by apply elem_of_nil in Hn|].
    simpl. unfold seq, require_property at 1.
    change (properties_of m self) with (props_at (schemas m) self). rewrite Hprops.
    apply elem_of_cons in Hn as [->|Hn].
    - by rewrite Hlook.
    - destruct (properties s' !! n'); [by apply IH|done]. }
  unfold check_declared in Hdone.
  apply Hseq in Hdone as [H1 Hdone]. apply Hseq in Hdone as [H2 Hdone].
  apply Hseq in Hdone as [H3 Hdone].
  split.
  - intros n Hn. rewrite <- Hf, <- Hca, <- Hr in Hn.
    apply elem_of_app in Hn as [Hn|Hn]; [by apply H1|].
    apply elem_of_app in Hn as [Hn|Hn]; [by apply H2|by apply H3].
  - intros He. unfold check_edge in Hdone. rewrite Hs, He in Hdone.
    destruct (source_prop s'); [|done]. destruct (target_prop s'); [|done].
    eauto.
Qed.

(** *** A run settles the schema, and a settled schema stays *)

Lemma generate_parent_steady fuel self e m m' s :
  steady_effect fuel →
  schemas m !! self = Some s → e ∈ _extends s →
  outcome_state (generate_parent (generate fuel) self e m) = Some m' →
  steady (schemas m) (schemas m') ∧
  (generate_parent (generate fuel) self e m = Done tt m' →
   settled fuel (schemas m') e ∧ merged (schemas m') self e).
Proof.
  intros IH Hself He. unfold generate_parent, model_get.
  destruct (schemas m !! e) as [p|] eqn:Hp; simpl.
  2:{ intros ?; simplify_eq. split; [apply steady_refl|done]. }
  destruct (generate fuel e m) as [[] m1|ex m1|] eqn:Hrun; simpl; [| |done].
  - intros ?; simplify_eq.
    destruct (IH e m m1) as [Hst1 Hset1]; [by rewrite Hrun|].
    destruct (evolves_lookup _ _ _ _ (proj1 Hst1) Hself) as (s1 & Hs1 & Hc & _).
    destruct (evolves_lookup _ _ _ _ (proj1 Hst1) Hp) as (p1 & Hp1 & _).
    assert (steady (schemas m1) (inherit self e (schemas m1))) as Hst2.
    { apply (inherit_steady _ _ _ s1); [done|]. by rewrite <- (config_extends _ _ Hc). }
    split; [by eapply steady_trans|].
    intros _. split.
    + apply (settled_steady _ _ _ _ Hst2). by apply Hset1.
    + apply inherit_merged; eauto.
  - intros ?; simplify_eq.
    destruct (IH e m m') as [Hst1 _]; [by rewrite Hrun|]. done.
Qed.

Lemma generate_steady fuel : steady_effect fuel.
Proof.
  induction fuel as [|fuel IH]; intros self m m' Hrun; [done|].
  destruct (schemas m !! self) as [s|] eqn:Hself.
  2:{ simpl in *. rewrite Hself in *. simpl in Hrun. simplify_eq.
      split; [apply steady_refl|]. intros _ s Hs. congruence. }
  rewrite (generate_unfold _ _ _ s Hself) in *.
  set (body := generate_parent (generate fuel) self) in *.
  set (I := λ m0, steady (schemas m) (schemas m0)).
  assert (∀ e m0 m0', e ∈ _extends s → I m0 →
            outcome_state (body e m0) = Some m0' →
            steady (schemas m0) (schemas m0') ∧
            (body e m0 = Done tt m0' →
             settled fuel (schemas m0') e ∧ merged (schemas m0') self e))
    as Hstep.
  { intros e m0 m0' He HI0 Hrun0.
    destruct (evolves_lookup _ _ _ _ (proj1 HI0) Hself) as (s0 & Hs0 & Hc & _).
    apply (generate_parent_steady fuel self e m0 m0' s0); try done.
    by rewrite <- (config_extends _ _ Hc). }
  assert (I m) as HI by apply steady_refl.
  destruct (for_each body (_extends s) m) as [[] m1|ex m1|] eqn:Hparents.
  - destruct (for_each_done I (λ e m0, settled fuel (schemas m0) e
                                       ∧ merged (schemas m0) self e)
                body (_extends s)) with (m := m) (m' := m1)
      as (HI1 & Hpar & _); [|done|done|].
    { intros e m0 m0' He HI0 Hrun0.
      destruct (Hstep e m0 m0' He HI0) as (Hst0 & Hdone); [by rewrite Hrun0|].
      split; [|split].
      - by eapply steady_trans.
      - by apply Hdone.
      - intros y [Hy1 Hy2]. split.
        + by apply (settled_steady _ _ _ _ Hst0).
        + by apply (merged_steady _ _ fuel _ _ Hst0). }
    assert (outcome_state (generate_properties self m1) = Some m') as Hprops.
    { apply (seq_keeps_state _ (check_declared self s));
        [apply check_declared_state|].
      unfold seq in Hrun at 1. by rewrite Hparents in Hrun. }
    assert (schemas m' = schemas m1) as Hsame
      by by apply (generate_properties_schemas self m1).
    rewrite Hsame. split; [done|].
    intros Hdone. unfold seq in Hdone at 1. rewrite Hparents in Hdone.
    assert (generate_properties self m1 = Done tt m') as Hpd
      by (apply (seq_keeps_done _ (check_declared self s));
          [apply check_declared_state|done]).
    unfold seq in Hdone. rewrite Hpd in Hdone.
    assert (check_declared self s m' = Done tt m') as Hchk by done.
    intros s' Hs'. rewrite <- Hsame in Hs'.
    destruct (evolves_lookup _ _ _ _ (proj1 HI1) Hself) as (s1 & Hs1 & Hc & _).
    rewrite <- Hsame in Hs1. rewrite Hs' in Hs1. injection Hs1 as <-.
    split; [by apply (check_declared_ok self s m')|].
    intros e He. rewrite <- (config_extends _ _ Hc) in He. by apply Hpar.
  - unfold seq in Hrun at 1. rewrite Hparents in Hrun. simpl in Hrun. simplify_eq.
    split.
    + apply (for_each_inv I body (_extends s) ) with (m := m); [|done|by rewrite Hparents].
      intros e m0 m0' He HI0 Hrun0.
      destruct (Hstep e m0 m0' He HI0 Hrun0) as (Hst0 & _). by eapply steady_trans.
    + intros Hd. unfold seq in Hd. by rewrite Hparents in Hd.
  - unfold seq in Hrun at 1. by rewrite Hparents in Hrun.
Qed.




End Runs.

(** ** Which parent's property a child holds *)

Section Chains.

Lemma tall_grows r r' n k : grows r r' → tall n r k ↔ tall n r' k.
Proof.
  intros Hg. revert k. induction n as [|n IH]; intros k; simpl.
  - by apply grows_is_Some.
  - split; intros (e & Hpe & Ht); exists e.
    + split; [by apply (parent_of_grows r r')|by apply IH].
    + split; [by apply (parent_of_grows r r')|by apply IH].
Qed.

Lemma tall_down r n k : tall (S n) r k → tall n r k.
Proof.
  revert k. induction n as [|n IH]; intros k (e & Hpe & Ht).
  - destruct Hpe as (s & Hs & _). simpl. eauto.
  - exists e. split; [done|]. by apply IH.
Qed.

Lemma tall_ancestor r n a b : ancestor r a b → tall n r b → tall n r a.
Proof.
  induction 1 as [|a e b Hae _ IH]; [done|]. intros Hb.
  apply tall_down. exists e. split; [done|]. by apply IH.
Qed.

Lemma cycle_tall r k e n : parent_of r k e → ancestor r e k → tall n r k.
Proof.
  intros Hke Hek. induction n as [|n IH].
  - destruct Hke as (s & Hs & _). simpl. eauto.
  - exists e. split; [done|]. by apply (tall_ancestor r n e k).
Qed.

Lemma merge_all_lookup r own parents n :
  merge_all r own parents !! n =
  match own !! n with
  | Some l => Some l
  | None => inherited_from r parents n
  end.
Proof.
  unfold merge_all. revert own. induction parents as [|e rest IH]; intros own; simpl.
  - by destruct (own !! n).
  - rewrite IH, lookup_union.
    destruct (own !! n) as [l|]; simpl.
    + by destruct (props_at r e !! n).
    + by destruct (props_at r e !! n).
Qed.

Lemma inherited_from_Some r parents n l :
  inherited_from r parents n = Some l →
  ∃ e, e ∈ parents ∧ props_at r e !! n = Some l.
Proof.
  induction parents as [|e rest IH]; simpl; [done|].
  destruct (props_at r e !! n) as [l'|] eqn:He.
  - intros ?; simplify_eq. exists e. split; [left|done].
  - intros H. destruct (IH H) as (e' & ? & ?). exists e'. split; [by right|done].
Qed.

Lemma inherited_from_is_Some r parents e n :
  e ∈ parents → is_Some (props_at r e !! n) →
  is_Some (inherited_from r parents n).
Proof.
  induction parents as [|e' rest IH]; intros Hin Hn; [by apply elem_of_nil in Hin|].
  simpl. destruct (props_at r e' !! n) as [l'|] eqn:He; [eauto|].
  apply elem_of_cons in Hin as [->|Hin]; [|by apply IH].
  rewrite He in Hn. by destruct Hn.
Qed.

End Chains.

Section FirstWins.
Context `{ext : Collaborators}.
Hypothesis Hframe : keeps_schemas.

Lemma seq_done (f g : Model → outcome unit) m m' :
  seq f g m = Done tt m' → ∃ m1, f m = Done tt m1 ∧ g m1 = Done tt m'.
Proof.
  unfold seq. destruct (f m) as [[] m1|e m1|]; [eauto|done..].
Qed.

Lemma generate_parent_done (recur : string → Model → outcome unit) self e m m' :
  generate_parent recur self e m = Done tt m' →
  ∃ p m1, schemas m !! e = Some p ∧ recur e m = Done tt m1 ∧
          m' = on_schemas (inherit self e) m1.
Proof.
  unfold generate_parent, model_get.
  destruct (schemas m !! e) as [p|]; [|done].
  destruct (recur e m) as [[] m1|ex m1|]; [|done..].
  intros ?; simplify_eq. eauto.
Qed.

Lemma steady_grows r r' : steady r r' → grows r r'.
Proof. intros [H _]. by apply evolves_grows. Qed.

(** The steps of the loop over the parents, from a state reached from [m]. *)
Lemma parents_steady fuel self s m l m0 m1 :
  schemas m !! self = Some s → (∀ e, e ∈ l → e ∈ _extends s) →
  steady (schemas m) (schemas m0) →
  outcome_state (for_each (generate_parent (generate fuel) self) l m0) = Some m1 →
  steady (schemas m0) (schemas m1).
Proof.
  intros Hself Hl Hst0 Hrun.
  apply (for_each_inv (λ m2, steady (schemas m) (schemas m2)
                             ∧ steady (schemas m0) (schemas m2))
           (generate_parent (generate fuel) self) l) with (m := m0);
    [|split; [done|apply steady_refl]|done].
  intros e m2 m2' He [H2 H02] Hrun2.
  destruct (evolves_lookup _ _ _ _ (proj1 H2) Hself) as (s2 & Hs2 & Hc & _).
  destruct (generate_parent_steady fuel self e m2 m2' s2) as [Hst _];
    [apply (generate_steady Hframe)|done| |done|].
  { rewrite <- (config_extends _ _ Hc). by apply Hl. }
  split; by eapply steady_trans.
Qed.

Lemma generate_not_tall fuel self m m' :
  generate fuel self m = Done tt m' → ¬ tall fuel (schemas m) self.
Proof.
  revert self m m'. induction fuel as [|fuel IH]; intros self m m' Hrun; [done|].
  intros (e & (s & Hself & He & Hreg) & Ht).
  rewrite (generate_unfold _ _ _ s Hself) in Hrun.
  apply seq_done in Hrun as (m1 & Hparents & _).
  destruct (for_each_done (λ m0, steady (schemas m) (schemas m0))
              (λ e m0, ¬ tall fuel (schemas m) e)
              (generate_parent (generate fuel) self) (_extends s))
    with (m := m) (m' := m1) as (_ & Hall & _);
    [|apply steady_refl|done|by apply (Hall e)].
  intros e' m0 m0' He' Hst0 Hbody.
  assert (steady (schemas m0) (schemas m0')) as Hst.
  { apply (parents_steady fuel self s m [e'] m0 m0'); [done| |done|].
    - intros ? ->%list_elem_of_singleton. done.
    - simpl. unfold seq. by rewrite Hbody. }
  split; [by eapply steady_trans|]. split; [|done].
  apply generate_parent_done in Hbody as (p & mg & _ & Hgen & _).
  intros Htall. apply (IH e' m0 mg Hgen).
  by apply (tall_grows _ _ _ _ (steady_grows _ _ Hst0)).
Qed.

Lemma generate_untouched fuel : untouched_effect fuel.
Proof.
  induction fuel as [|fuel IH]; intros self m m' z sz Hrun Hanc Hz; [done|].
  destruct (schemas m !! self) as [s|] eqn:Hself.
  2:{ simpl in Hrun. rewrite Hself in Hrun. simpl in Hrun. simplify_eq.
      exists sz. split; [done|apply own_eq_refl]. }
  rewrite (generate_unfold _ _ _ s Hself) in Hrun.
  assert (z ≠ self) as Hne by (intros ->; apply Hanc; reflexivity).
  set (I := λ m0, steady (schemas m) (schemas m0)
                  ∧ ∃ sz0, schemas m0 !! z = Some sz0 ∧ own_eq sz sz0).
  assert (∀ m1, outcome_state
                  (for_each (generate_parent (generate fuel) self) (_extends s) m)
                = Some m1 → I m1) as Hloop.
  { intros m1 Hm1.
    apply (for_each_inv I (generate_parent (generate fuel) self) (_extends s))
      with (m := m); [| |done].
    2:{ split; [apply steady_refl|]. exists sz. split; [done|apply own_eq_refl]. }
    intros e m0 m0' He [Hst0 (sz0 & Hz0 & Ho0)] Hbody.
    assert (steady (schemas m0) (schemas m0')) as Hst.
    { apply (parents_steady fuel self s m [e] m0 m0'); [done| |done|].
      - intros ? ->%list_elem_of_singleton. done.
      - simpl. unfold seq.
        by destruct (generate_parent (generate fuel) self e m0) as [[] ?|? ?|]. }
    split; [by eapply steady_trans|].
    unfold generate_parent, model_get in Hbody.
    destruct (schemas m0 !! e) as [p|] eqn:Hp; simpl in Hbody.
    2:{ simplify_eq. eauto. }
    assert (¬ ancestor (schemas m0) e z) as Hanc0.
    { intros H0. apply Hanc. eapply rtc_l.
      - exists s. split; [done|]. split; [done|].
        apply (grows_is_Some _ _ _ (steady_grows _ _ Hst0)). eauto.
      - by apply (ancestor_grows _ _ _ _ (steady_grows _ _ Hst0)). }
    destruct (generate fuel e m0) as [[] mg|ex mg|] eqn:Hgen; simpl in Hbody;
      [| |done].
    - simplify_eq.
      destruct (IH e m0 mg z sz0) as (szg & Hzg & Hog);
        [by rewrite Hgen|done|done|].
      assert (is_Some (schemas mg !! e)) as [pg Hpg].
      { assert (Hsg := generate_steady Hframe fuel e m0 mg).
        destruct Hsg as [Hsg _]; [by rewrite Hgen|].
        apply (grows_is_Some _ _ _ (steady_grows _ _ Hsg)). eauto. }
      exists (after_inherit self e pg (name_of (schemas mg)) z szg).
      simpl. rewrite (inherit_lookup _ _ _ pg), Hzg by done.
      split; [done|]. eapply own_eq_trans; [exact Ho0|].
      eapply own_eq_trans; [exact Hog|]. unfold own_eq.
      rewrite after_inherit_properties, after_inherit_extends,
        after_inherit_schemata, after_inherit_names, !decide_False by done.
      done.
    - simplify_eq.
      destruct (IH e m0 m0' z sz0) as (szg & Hzg & Hog);
        [by rewrite Hgen|done|done|].
      exists szg. split; [done|]. by eapply own_eq_trans. }
  unfold seq in Hrun at 1.
  destruct (for_each (generate_parent (generate fuel) self) (_extends s) m)
    as [[] m1|ex m1|] eqn:Hparents; [| |done].
  - destruct (Hloop m1 eq_refl) as [_ (sz1 & Hz1 & Ho1)].
    apply seq_keeps_state in Hrun; [|apply check_declared_state].
    rewrite (proj2 (generate_properties_schemas Hframe self m1) m' Hrun). eauto.
  - simpl in Hrun. simplify_eq. by destruct (Hloop m' eq_refl) as [_ ?].
Qed.

Lemma props_at_lookup r k s : r !! k = Some s → props_at r k = properties s.
Proof. intros H. unfold props_at. by rewrite H. Qed.

(** The loop over the parents leaves [self] with its properties and, after
    them, those of each parent in turn. *)
Lemma parents_merge fuel self s m :
  schemas m !! self = Some s → ¬ tall (S fuel) (schemas m) self →
  ∀ l m0 m1,
    (∀ e, e ∈ l → e ∈ _extends s) →
    steady (schemas m) (schemas m0) →
    for_each (generate_parent (generate fuel) self) l m0 = Done tt m1 →
    props_at (schemas m1) self
    = merge_all (schemas m1) (props_at (schemas m0) self) l.
Proof.
  intros Hself Hshort.
  induction l as [|e l IH]; intros m0 m1 Hl Hst0 Hrun; simpl in Hrun.
  { by simplify_eq. }
  apply seq_done in Hrun as (m0' & Hbody & Hrest).
  assert (Hg0 := steady_grows _ _ Hst0).
  destruct (evolves_lookup _ _ _ _ (proj1 Hst0) Hself) as (s0 & Hs0 & Hc0 & _).
  assert (e ∈ _extends s0) as He0.
  { rewrite <- (config_extends _ _ Hc0). apply Hl. by left. }
  destruct (generate_parent_steady fuel self e m0 m0' s0) as [Hst Hdone];
    [apply (generate_steady Hframe)|done|done|by rewrite Hbody|].
  destruct (Hdone Hbody) as [Hsettled _].
  apply generate_parent_done in Hbody as (p & mg & Hp & Hgen & ->).
  assert (parent_of (schemas m) self e) as Hpar.
  { exists s. split; [done|]. split; [apply Hl; by left|].
    apply (grows_is_Some _ _ _ Hg0). eauto. }
  assert (¬ ancestor (schemas m) e self) as Hnocycle.
  { intros Hcyc. apply Hshort. by apply (cycle_tall _ _ e). }
  assert (e ≠ self) as Hne by (intros ->; apply Hnocycle; reflexivity).
  destruct (generate_untouched fuel e m0 mg self s0) as (sg & Hsg & Hog);
    [by rewrite Hgen| |done|].
  { intros H0. apply Hnocycle. by apply (ancestor_grows _ _ _ _ Hg0). }
  assert (is_Some (schemas mg !! e)) as [pg Hpg].
  { destruct (generate_steady Hframe fuel e m0 mg) as [Hsg' _]; [by rewrite Hgen|].
    apply (grows_is_Some _ _ _ (steady_grows _ _ Hsg')). eauto. }
  simpl in *.
  assert (props_at (inherit self e (schemas mg)) self
          = props_at (schemas m0) self ∪ props_at (inherit self e (schemas mg)) e)
    as Hnow.
  { unfold props_at. rewrite !(inherit_lookup _ _ _ pg), Hsg, Hpg, Hs0 by done.
    simpl. rewrite !after_inherit_properties.
    rewrite decide_True, decide_False by done. by destruct Hog as (-> & _). }
  assert (steady (inherit self e (schemas mg)) (schemas m1)) as Hst1.
  { apply (parents_steady fuel self s m l (on_schemas (inherit self e) mg) m1);
      [done| |by eapply steady_trans|by rewrite Hrest].
    intros e' He'. apply Hl. by right. }
  assert (props_at (schemas m1) e = props_at (inherit self e (schemas mg)) e)
    as Hkeep.
  { assert (is_Some (inherit self e (schemas mg) !! e)) as [pe Hpe].
    { rewrite (inherit_lookup _ _ _ pg), Hpg by done. eauto. }
    destruct (proj2 Hst1 fuel e pe Hsettled Hpe) as (pe' & Hpe' & Hoe & _).
    by rewrite (props_at_lookup _ _ _ Hpe), (props_at_lookup _ _ _ Hpe'). }
  rewrite (IH (on_schemas (inherit self e) mg) m1);
    [|intros e' He'; apply Hl; by right|by eapply steady_trans|done].
  simpl. unfold merge_all. simpl. by rewrite Hnow, Hkeep.
Qed.

Lemma generate_merge fuel self s m m' :
  schemas m !! self = Some s →
  generate fuel self m = Done tt m' →
  props_at (schemas m') self
  = merge_all (schemas m') (properties s) (_extends s).
Proof.
  intros Hself Hrun.
  destruct fuel as [|fuel]; [done|].
  assert (Hshort := generate_not_tall _ _ _ _ Hrun).
  rewrite (generate_unfold _ _ _ s Hself) in Hrun.
  apply seq_done in Hrun as (m1 & Hparents & Hrest).
  apply seq_keeps_done in Hrest; [|apply check_declared_state].
  assert (schemas m' = schemas m1) as ->.
  { apply (generate_properties_schemas Hframe self m1). by rewrite Hrest. }
  rewrite (parents_merge fuel self s m Hself Hshort (_extends s) m m1);
    [|done|apply steady_refl|done].
  by rewrite (props_at_lookup _ _ _ Hself).
Qed.

(** When [prop.generate()] changes no schema object, the child holds the
    property of the first parent that has the name. *)
Lemma first_parent_wins (fuel : nat) (child : string)
    (m m' : Model) (c : Schema) :
  generate fuel child m = Done tt m' →
  schemas m !! child = Some c →
  let final := props_at (schemas m') in
  (∀ parent n, parent ∈ _extends c → is_Some (final parent !! n) →
               is_Some (final child !! n)) ∧
  (∀ n l, properties c !! n = Some l → final child !! n = Some l) ∧
  (∀ n, properties c !! n = None →
        final child !! n = inherited_from (schemas m') (_extends c) n) ∧
  (∀ parent rest n l, _extends c = parent :: rest →
        properties c !! n = None → final parent !! n = Some l →
        final child !! n = Some l).
Proof.
  intros Hrun Hc final.
  assert (∀ n, final child !! n =
               match properties c !! n with
               | Some l => Some l
               | None => inherited_from (schemas m') (_extends c) n
               end) as Hfinal.
  { intros n. unfold final. rewrite (generate_merge fuel child c m m') by done.
    apply merge_all_lookup. }
  split_and!.
  - intros parent n Hin Hn. rewrite Hfinal.
    destruct (properties c !! n); [eauto|].
    by apply (inherited_from_is_Some _ _ parent).
  - intros n l Hn. by rewrite Hfinal, Hn.
  - intros n Hn. by rewrite Hfinal, Hn.
  - intros parent rest n l Hext Hn Hl. rewrite Hfinal, Hn, Hext. simpl.
    fold (final parent). by rewrite Hl.
Qed.

End FirstWins.

(** ** When [generate] raises *)

Section Verdict.
Context `{ext : Collaborators}.
Hypothesis Hframe : keeps_schemas.
Hypothesis Hquiet : never_raises.







Lemma evolves_is_Some r r' k : evolves r r' → is_Some (r !! k) ↔ is_Some (r' !! k).
Proof. intros H. apply grows_is_Some. by apply evolves_grows. Qed.



End Verdict.

(** * [generate] with a [prop.generate()] that adds reverse stubs *)

Section Simulation.
Context `{ext : Collaborators}.
Variable Q : Model → Prop.
Hypothesis HQ : quiet_on Q.

Lemma frozen_keeps_schemas : @keeps_schemas (frozen ext).
Proof. intros l m. reflexivity. Qed.


Lemma call_Property_generate_sim l m :
  Q m →
  call_Property_generate (ext := frozen ext) l m
  = call_Property_generate (ext := ext) l m ∧
  ∀ m', outcome_state (call_Property_generate (ext := ext) l m) = Some m' → Q m'.
Proof.
  intros Hm. destruct HQ as [Hpg _]. destruct (Hpg l m Hm) as [Hs Hq].
  unfold call_Property_generate. simpl.
  destruct (Property_generate (Collaborators := ext) l m) as [[r h] e]. simpl in *. subst r.
  destruct m as [r0 h0]. simpl in *.
  destruct e; (split; [done|]); intros m' [= <-]; done.
Qed.

Lemma for_each_sim {A} (body body' : A → Model → outcome unit) (l : list A) :
  (∀ x m, x ∈ l → Q m →
          body' x m = body x m ∧
          ∀ m', outcome_state (body x m) = Some m' → Q m') →
  ∀ m, Q m →
       for_each body' l m = for_each body l m ∧
       ∀ m', outcome_state (for_each body l m) = Some m' → Q m'.
Proof.
  induction l as [|x l IH]; intros Hbody m Hm; simpl.
  - split; [done|]. by intros m' [= <-].
  - unfold seq. destruct (Hbody x m) as [Heq Hq]; [left|done|]. rewrite Heq.
    destruct (body x m) as [[] m1|e m1|]; simpl in *.
    + apply IH; [|by apply Hq]. intros y m0 Hy. apply Hbody. by right.
    + split; [done|]. intros m' [= <-]. by apply Hq.
    + done.
Qed.

Lemma generate_properties_sim self m :
  Q m →
  generate_properties (ext := frozen ext) self m
  = generate_properties (ext := ext) self m ∧
  ∀ m', outcome_state (generate_properties (ext := ext) self m) = Some m' → Q m'.
Proof.
  intros Hm. unfold generate_properties. apply for_each_sim; [|done].
  intros l m0 _. apply call_Property_generate_sim.
Qed.

Lemma seq_sim (f f' g g' : Model → outcome unit) (m : Model) :
  (f' m = f m ∧ ∀ m', outcome_state (f m) = Some m' → Q m') →
  (∀ m1, Q m1 → g' m1 = g m1 ∧ ∀ m', outcome_state (g m1) = Some m' → Q m') →
  seq f' g' m = seq f g m ∧ ∀ m', outcome_state (seq f g m) = Some m' → Q m'.
Proof.
  intros [Heq Hf] Hg. unfold seq. rewrite Heq.
  destruct (f m) as [[] m1|e m1|]; simpl in *.
  - apply Hg. by apply Hf.
  - split; [done|]. intros m' [= <-]. by apply Hf.
  - done.
Qed.

Lemma generate_sim fuel : ∀ self m,
  Q m →
  generate (ext := frozen ext) fuel self m = generate (ext := ext) fuel self m ∧
  ∀ m', outcome_state (generate (ext := ext) fuel self m) = Some m' → Q m'.
Proof.
  induction fuel as [|fuel IH]; intros self m Hm; [done|]. simpl.
  destruct (schemas m !! self) as [s|]; [|split; [done|by intros m' [= <-]]].
  apply seq_sim.
  - apply for_each_sim; [|done]. intros e m0 _ Hm0.
    unfold generate_parent. destruct (model_get m0 e).
    + destruct (IH e m0 Hm0) as [Heq Hq]. rewrite Heq.
      destruct (generate (ext := ext) fuel e m0) as [[] m1|ex m1|]; simpl in *.
      * split; [done|]. intros m' Hm'. simplify_eq/=. destruct HQ as [_ Hinh].
        apply Hinh. by apply Hq.
      * split; [done|]. intros m' Hm'. simplify_eq/=. by apply Hq.
      * done.
    + split; [done|]. by intros m' [= <-].
  - intros m1 Hm1. apply seq_sim.
    + by apply generate_properties_sim.
    + intros m2 Hm2. split; [done|]. intros m' Hm'.
      rewrite check_declared_state in Hm'. by injection Hm' as <-.
Qed.

End Simulation.

Section Growth.
Context `{ext : Collaborators}.
Hypothesis Hadd : only_adds.

Lemma call_Property_generate_evolves l m m' :
  outcome_state (call_Property_generate l m) = Some m' →
  evolves (schemas m) (schemas m').
Proof.
  unfold call_Property_generate. specialize (Hadd l m).
  destruct (Property_generate l m) as [m1 [e|]]; simpl in *;
    intros; by simplify_eq.
Qed.

Lemma generate_properties_evolves self m m' :
  outcome_state (generate_properties self m) = Some m' →
  evolves (schemas m) (schemas m').
Proof.
  unfold generate_properties.
  apply (for_each_inv (λ m1, evolves (schemas m) (schemas m1)));
    [|apply evolves_refl].
  intros l m1 m2 _ H1 H2. eapply evolves_trans; [done|].
  by apply (call_Property_generate_evolves l).
Qed.

Lemma rest_evolves self s m1 m' :
  outcome_state (seq (generate_properties self) (check_declared self s) m1)
  = Some m' →
  evolves (schemas m1) (schemas m').
Proof.
  intros Hrest. apply (generate_properties_evolves self).
  apply (seq_keeps_state _ (check_declared self s)); [|done].
  apply check_declared_state.
Qed.

Lemma generate_evolves fuel : ∀ self m m',
  outcome_state (generate fuel self m) = Some m' →
  evolves (schemas m) (schemas m').
Proof.
  induction fuel as [|fuel IH]; intros self m m' Hrun; [done|].
  destruct (schemas m !! self) as [s|] eqn:Hself.
  2:{ simpl in Hrun. rewrite Hself in Hrun. simpl in Hrun. simplify_eq.
      apply evolves_refl. }
  rewrite (generate_unfold _ _ _ s Hself) in Hrun.
  set (I := λ m0 : Model, evolves (schemas m) (schemas m0)).
  assert (∀ e m0 m0', e ∈ _extends s → I m0 →
            outcome_state (generate_parent (generate fuel) self e m0) = Some m0' →
            I m0') as Hstep.
  { intros e m0 m0' _ HI0 Hrun0. unfold generate_parent in Hrun0.
    destruct (model_get m0 e); simpl in Hrun0; [|by simplify_eq].
    destruct (generate fuel e m0) as [[] mg|ex mg|] eqn:Hgen; simpl in Hrun0;
      [| |done]; simplify_eq.
    - unfold I. eapply evolves_trans; [done|].
      eapply evolves_trans; [apply (IH e m0 mg); by rewrite Hgen|].
      apply inherit_evolves.
    - unfold I. eapply evolves_trans; [done|].
      apply (IH e m0 m0'). by rewrite Hgen. }
  set (parents := for_each (generate_parent (generate fuel) self) (_extends s)) in *.
  destruct (parents m) as [[] m1|ex m1|] eqn:Hparents.
  - assert (I m1) as HI1.
    { apply (for_each_inv I (generate_parent (generate fuel) self) (_extends s))
        with (m := m); [exact Hstep|apply evolves_refl|].
      unfold parents in Hparents. by rewrite Hparents. }
    eapply evolves_trans; [exact HI1|]. apply (rest_evolves self s).
    unfold seq in Hrun at 1. by rewrite Hparents in Hrun.
  - unfold seq in Hrun at 1. rewrite Hparents in Hrun. simpl in Hrun. simplify_eq.
    apply (for_each_inv I (generate_parent (generate fuel) self) (_extends s))
      with (m := m); [exact Hstep|apply evolves_refl|].
    unfold parents in Hparents. by rewrite Hparents.
  - unfold seq in Hrun at 1. by rewrite Hparents in Hrun.
Qed.



Lemma parents_reach_child fuel child m m' c :
  generate fuel child m = Done tt m' →
  schemas m !! child = Some c →
  (∀ parent n, parent ∈ _extends c →
               is_Some (props_at (schemas m) parent !! n) →
               is_Some (props_at (schemas m') child !! n)) ∧
  (∀ n l, properties c !! n = Some l →
          props_at (schemas m') child !! n = Some l).
Proof.
  intros Hrun Hc.
  assert (evolves (schemas m) (schemas m')) as Hev
    by (apply (generate_evolves fuel child); by rewrite Hrun).
  assert (∀ r r' k n, evolves r r' → is_Some (props_at r k !! n) →
                      is_Some (props_at r' k !! n)) as Hmono.
  { intros r r' k n Hev' [l Hl]. unfold props_at in *.
    destruct (r !! k) as [s|] eqn:Hs; [|by rewrite lookup_empty in Hl].
    destruct (evolves_lookup _ _ _ _ Hev' Hs) as (s' & -> & _ & Hsub & _).
    exists l. by apply (lookup_weaken _ _ _ _ Hl Hsub). }
  split.
  - destruct fuel as [|fuel]; [done|].
    rewrite (generate_unfold _ _ _ c Hc) in Hrun.
    apply seq_done in Hrun as (m1 & Hparents & Hrest).
    assert (evolves (schemas m1) (schemas m')) as Hev1
      by (apply (rest_evolves child c); by rewrite Hrest).
    destruct (for_each_done
                (λ m0, evolves (schemas m) (schemas m0))
                (λ e m0, ∀ n, is_Some (props_at (schemas m) e !! n) →
                              is_Some (props_at (schemas m0) child !! n))
                (generate_parent (generate fuel) child) (_extends c))
      with (m := m) (m' := m1) as (_ & Hall & _);
      [|apply evolves_refl|done|].
    { intros e m0 m0' He Hev0 Hbody.
      apply generate_parent_done in Hbody as (p & mg & Hp & Hgen & ->).
      assert (evolves (schemas m0) (schemas mg)) as Hevg
        by (apply (generate_evolves fuel e); by rewrite Hgen).
      assert (evolves (schemas mg) (inherit child e (schemas mg))) as Hevi
        by apply inherit_evolves.
      split; [by do 2 (eapply evolves_trans; [|done])|]. split.
      - intros n Hn. simpl.
        assert (evolves (schemas m) (schemas mg)) as Hevm
          by by eapply evolves_trans.
        destruct (inherit_merged child e (schemas mg))
          as (s' & p' & Hs' & Hp' & Hdom & _).
        { apply (evolves_is_Some _ _ _ Hevm). by eexists. }
        { apply (evolves_is_Some _ _ _ Hevg). by eexists. }
        rewrite (props_at_lookup _ _ _ Hs').
        apply elem_of_dom, Hdom, elem_of_dom.
        rewrite <- (props_at_lookup _ _ _ Hp').
        apply (Hmono (schemas m)); [|done].
        by eapply evolves_trans.
      - intros y Hy n Hn. simpl.
        apply (Hmono (schemas m0)); [by eapply evolves_trans|]. by apply Hy. }
    intros parent n Hin Hn. apply (Hmono (schemas m1)); [done|].
    by apply (Hall parent).
  - intros n l Hl.
    destruct (evolves_lookup _ _ _ _ Hev Hc) as (c' & Hc' & _ & Hsub & _).
    rewrite (props_at_lookup _ _ _ Hc'). by apply (lookup_weaken _ _ _ _ Hl Hsub).
Qed.

End Growth.

Section Raising.
Context `{ext : Collaborators}.
Hypothesis Hquiet : never_raises.






End Raising.

Section Revised.
Context `{ext : Collaborators}.


(** C3.  With a [prop.generate()] that only adds to the schema objects,
    after [generate()] has returned for a child: every property name that a
    parent named in the child's [extends] had when the call began is in the
    child's [properties], and a property the child had before the call is
    still there, the same object.  When, moreover, the call started from a
    state of a set [Q] in which [prop.generate()] changes no schema object:
    every property name a parent has after the call is in the child's
    [properties]; a name the child did not have maps to the property object
    of the first parent in [extends] order whose map has the name; so it is
    the object of the first parent in [extends], if that has the name. *)
Theorem C3_inheritance_first_parent_wins (Q : Model → Prop) (fuel : nat) (child : string)
    (m m' : Model) (c : Schema) :
  only_adds →
  generate fuel child m = Done tt m' →
  schemas m !! child = Some c →
  let final := props_at (schemas m') in
  (∀ parent n, parent ∈ _extends c →
               is_Some (props_at (schemas m) parent !! n) →
               is_Some (final child !! n)) ∧
  (∀ n l, properties c !! n = Some l → final child !! n = Some l) ∧
  (quiet_on Q → Q m →
   (∀ parent n, parent ∈ _extends c → is_Some (final parent !! n) →
                is_Some (final child !! n)) ∧
   (∀ n, properties c !! n = None →
         final child !! n = inherited_from (schemas m') (_extends c) n) ∧
   (∀ parent rest n l, _extends c = parent :: rest →
         properties c !! n = None → final parent !! n = Some l →
         final child !! n = Some l)).
Proof.
  intros Hadd Hrun Hc final.
  destruct (parents_reach_child Hadd fuel child m m' c Hrun Hc) as [Hreach Hown].
  split; [done|]. split; [done|].
  intros HQ Hm.
  destruct (generate_sim Q HQ fuel child m Hm) as [Hsim _].
  rewrite <- Hsim in Hrun.
  destruct (first_parent_wins (ext := frozen ext)
              frozen_keeps_schemas fuel child m m' c Hrun Hc)
    as (H1 & _ & H3 & H4).
  done.
Qed.


End Revised.

(** * Instances of the statements on the concrete model *)

(** C7, the claim as stated fails: a schema constructed with the default
    [matchable] serialises with the key ["matchable"]. *)
Lemma C7_default_matchable_is_written :
  ¬ @written_iff_not_default Example.demo Example.constructed Example.thing.
Proof.
  intros (_ & _ & _ & _ & _ & _ & _ & H).
  assert (matchable Example.thing ≠ true) as Hne by (apply H; vm_compute; eauto).
  by apply Hne.
Qed.

(** C4 on the generated model: [Company.validate({})] fails with
    [{"name": "Required"}]. *)
Lemma C4_validate_witness :
  schemas Example.generated_model !! "Company" = Some Example.company ∧
  fst (validate (ext := Example.demo) "Company" (mkEntityData None)
         Example.generated_model)
  = Raised (InvalidData (Plain "Entity validation failed") {[ "name" := "Required" ]})
      Example.generated_model.
Proof.
  assert (schemas Example.generated_model !! "Company" = Some Example.company)
    as Hs by (vm_compute; reflexivity).
  split; [exact Hs|].
  destruct (C4_validate_collects_all (ext := Example.demo) "Company"
              (mkEntityData None) Example.generated_model Example.company Hs)
    as (_ & _ & _ & Hraise & _).
  rewrite Hraise; [|vm_compute; discriminate].
  vm_compute. reflexivity.
Defined.

(** C6 on the generated model: the second access to
    [Company.matchable_schemata] gives what the first gave. *)
Lemma C6_matchable_schemata_witness :
  schemas Example.generated_model !! "Company" = Some Example.company ∧
  _matchable_schemata Example.company = None ∧
  matchable_schemata "Company"
    (snd (matchable_schemata "Company" Example.generated_model))
  = matchable_schemata "Company" Example.generated_model.
Proof.
  assert (schemas Example.generated_model !! "Company" = Some Example.company)
    as Hs by (vm_compute; reflexivity).
  assert (_matchable_schemata Example.company = None)
    as Hc by (vm_compute; reflexivity).
  split; [exact Hs|]. split; [exact Hc|].
  destruct (C6_matchable_schemata Example.generated_model
              "Company" Example.company Hs Hc)
    as (_ & _ & _ & _ & _ & Hagain & _).
  rewrite Hagain. symmetry. apply surjective_pairing.
Defined.

(** The collaborators of the concrete model leave the schemata alone. *)
Lemma demo_keeps_schemas : @keeps_schemas Example.demo.
Proof. intros l m. reflexivity. Defined.

Lemma demo_keeps_hierarchy : @keeps_hierarchy Example.demo.
Proof. intros l m. reflexivity. Defined.

(** C1 on the concrete model: after the three schemata are generated,
    [Company.schemata] is [{Company, LegalEntity, Thing}]. *)
Lemma C1_closure_witness :
  @keeps_hierarchy Example.demo ∧
  constructed (schemas Example.constructed) ∧
  generate_each (ext := Example.demo) 3 ["Thing"; "LegalEntity"; "Company"]
    Example.constructed = Done tt Example.generated_model ∧
  schemata Example.company = {[Ref "Company"; Ref "LegalEntity"; Ref "Thing"]}.
Proof.
  assert (constructed (schemas Example.constructed)) as Hc.
  { change (map_Forall (λ k s, name s = k ∧ extends s = ∅ ∧ schemata s = {[Ref k]}
                                 ∧ names s = {[k]} ∧ descendants s = ∅)
                      (schemas Example.constructed)).
    apply (bool_decide_unpack _). vm_compute. exact I. }
  assert (generate_each (ext := Example.demo) 3 ["Thing"; "LegalEntity"; "Company"]
            Example.constructed = Done tt Example.generated_model) as Hrun
    by (vm_compute; reflexivity).
  split; [exact demo_keeps_hierarchy|]. split; [exact Hc|]. split; [exact Hrun|].
  destruct (C1_closure_correctness (ext := Example.demo) demo_keeps_hierarchy 3
              ["Thing"; "LegalEntity"; "Company"] Example.constructed
              Example.generated_model Hc) with (S := "Company") (s := Example.company)
    as (Heq & _).
  - intros k Hk.
    assert (map_Forall (λ k _, k ∈ ["Thing"; "LegalEntity"; "Company"])
              (schemas Example.constructed)) as Hall.
    { apply (bool_decide_unpack _). vm_compute. exact I. }
    destruct Hk as [s Hs]. exact (Hall k s Hs).
  - exact Hrun.
  - vm_compute. reflexivity.
  - rewrite Heq. vm_compute. reflexivity.
Defined.

(** C3, the claim as stated fails: [Child] extends [P1] and [P2], which both
    declare [x]; after [Child.generate()] the child's [x] is the object of
    [P1], not the object under [x] in the map of its parent [P2]. *)
Lemma C3_second_parent_reference_differs :
  generate (ext := Example.demo) 2 "Child" Example.clash
  = Done tt Example.clash_generated ∧
  schemas Example.clash !! "Child" = Some Example.child ∧
  "P2" ∈ _extends Example.child ∧
  ¬ same_reference_as_parent Example.clash Example.clash_generated "Child" "P2".
Proof.
  split; [vm_compute; reflexivity|]. split; [vm_compute; reflexivity|].
  split; [vm_compute; right; left|].
  intros H. destruct (H "x" 2%positive) as [_ Hsame]; [vm_compute; reflexivity|].
  assert (props_at (schemas Example.clash_generated) "Child" !! "x"
          = Some 1%positive) as Hfirst by (vm_compute; reflexivity).
  rewrite Hsame in Hfirst; [discriminate|]. vm_compute. reflexivity.
Qed.

Lemma demo_never_raises : @never_raises Example.demo.
Proof. intros l m. reflexivity. Defined.



(** ** The collaborator that adds reverse stubs *)

Lemma insert_property_evolves (r : gmap string Schema) k n l :
  props_at r k !! n = None →
  evolves r (alter (set_properties <[n := l]>) k r).
Proof.
  intros Hnone i. destruct (r !! i) as [s|] eqn:Hs.
  - destruct (decide (i = k)) as [->|Hne].
    + rewrite lookup_alter_eq, Hs. simpl. eexists. split; [reflexivity|].
      simpl. split_and!; try done.
      apply insert_subseteq. by rewrite (props_at_lookup _ _ _ Hs) in Hnone.
    + rewrite lookup_alter_ne by done. exists s. by split_and!.
  - destruct (decide (i = k)) as [->|Hne].
    + by rewrite lookup_alter_eq, Hs.
    + by rewrite lookup_alter_ne.
Qed.

Lemma add_reverse_demo_evolves self data other m :
  ∀ m', outcome_state (_add_reverse (ext := Example.demo) self data other m)
        = Some m' →
        evolves (schemas m) (schemas m').
Proof.
  intros m'. unfold _add_reverse.
  destruct (rev_name data) as [n|]; simpl; [|intros [= <-]; apply evolves_refl].
  destruct (properties_of m self !! n) as [l|] eqn:Hl; simpl.
  - intros [= <-]. apply evolves_refl.
  - intros [= <-]. simpl. by apply insert_property_evolves.
Qed.

Lemma linked_only_adds : @only_adds Linked.linked.
Proof.
  intros l m. simpl. unfold Linked.generate_reverse.
  destruct (heap m !! l) as [p|]; [|apply evolves_refl].
  destruct (ps_range (prop_data p)) as [range_|]; [|apply evolves_refl].
  destruct (ps_reverse (prop_data p)) as [reverse_|]; [|apply evolves_refl].
  destruct (schemas m !! range_); [|apply evolves_refl].
  pose proof (add_reverse_demo_evolves range_ reverse_ p m) as Hev.
  destruct (_add_reverse range_ reverse_ p m) as [prop m'|e m'|]; simpl in *;
    [by apply Hev|by apply Hev|apply evolves_refl].
Defined.





(** C3 (as amended) with the stubs: after the first [Note.generate()] the
    property [name] that [Thing] had is a property of [Note]. *)
Lemma C3_first_parent_witness :
  @only_adds Linked.linked ∧
  generate (ext := Linked.linked) 3 "Note" Linked.notes_model
  = Done tt Linked.once ∧
  schemas Linked.notes_model !! "Note" = Some Linked.note ∧
  is_Some (props_at (schemas Linked.once) "Note" !! "name").
Proof.
  assert (generate (ext := Linked.linked) 3 "Note" Linked.notes_model
          = Done tt Linked.once) as Hrun by (vm_compute; reflexivity).
  assert (schemas Linked.notes_model !! "Note" = Some Linked.note) as Hc
    by (vm_compute; reflexivity).
  split; [exact linked_only_adds|]. split; [exact Hrun|]. split; [exact Hc|].
  destruct (C3_inheritance_first_parent_wins (ext := Linked.linked)
              Linked.linked_up 3 "Note" Linked.notes_model Linked.once
              Linked.note linked_only_adds Hrun Hc) as (Hreach & _).
  apply (Hreach "Thing" "name").
  - vm_compute. left.
  - vm_compute. eexists. reflexivity.
Defined.


(** * Further properties of the methods *)

Section Construction.
Context `{ext : Collaborators}.

Lemma init_properties_spec (self : SchemaRef) (specs : gmap string PropertySpec)
    (h : gmap loc Property) :
  let r := init_properties self specs h in
  (∀ n, fst r !! n = None ↔ specs !! n = None) ∧
  (∀ n l, fst r !! n = Some l →
          h !! l = None ∧
          ∃ spec, specs !! n = Some spec ∧
                  snd r !! l = Some (Property_new self n spec)) ∧
  (∀ n n' l, fst r !! n = Some l → fst r !! n' = Some l → n = n') ∧
  (∀ l p, h !! l = Some p → snd r !! l = Some p) ∧
  (∀ l, is_Some (snd r !! l) →
        is_Some (h !! l) ∨ ∃ n, fst r !! n = Some l).
Proof.
  unfold init_properties.
  apply (map_fold_weak_ind (λ acc (specs : gmap string PropertySpec),
    (∀ n, fst acc !! n = None ↔ specs !! n = None) ∧
    (∀ n l, fst acc !! n = Some l →
            h !! l = None ∧
            ∃ spec, specs !! n = Some spec ∧
                    snd acc !! l = Some (Property_new self n spec)) ∧
    (∀ n n' l, fst acc !! n = Some l → fst acc !! n' = Some l → n = n') ∧
    (∀ l p, h !! l = Some p → snd acc !! l = Some p) ∧
    (∀ l, is_Some (snd acc !! l) →
          is_Some (h !! l) ∨ ∃ n, fst acc !! n = Some l))).
  - simpl. split; [|split; [|split; [|split]]].
    + intros n. by rewrite !lookup_empty.
    + intros n l Hn. by rewrite lookup_empty in Hn.
    + intros n n' l Hn. by rewrite lookup_empty in Hn.
    + done.
    + intros l Hl. by left.
  - intros k spec specs' [props hp] Hk (Hdom & Hobj & Hinj & Hold & Hnew). simpl in *.
    set (l0 := fresh (dom hp)).
    assert (hp !! l0 = None) as Hfresh.
    { apply not_elem_of_dom. apply is_fresh. }
    assert (h !! l0 = None) as Hfresh0.
    { destruct (h !! l0) as [p|] eqn:E; [|done].
      apply Hold in E. congruence. }
    assert (∀ n, props !! n ≠ Some l0) as Hunused.
    { intros n Hn. destruct (Hobj n l0 Hn) as (_ & sp & _ & Hsp). congruence. }
    split; [|split; [|split; [|split]]].
    + intros n. destruct (decide (n = k)) as [->|Hne].
      * rewrite !lookup_insert_eq. done.
      * rewrite !lookup_insert_ne by done. apply Hdom.
    + intros n l. destruct (decide (n = k)) as [->|Hne].
      * rewrite !lookup_insert_eq. intros [= <-]. split; [done|].
        exists spec. split; [done|]. by rewrite lookup_insert_eq.
      * rewrite !lookup_insert_ne by done. intros Hn.
        destruct (Hobj n l Hn) as (Hl & sp & Hsp & Hp). split; [done|].
        exists sp. split; [done|]. rewrite lookup_insert_ne; [done|].
        intros <-. congruence.
    + intros n n' l.
      destruct (decide (n = k)) as [->|Hne]; destruct (decide (n' = k)) as [->|Hne'];
        rewrite ?lookup_insert_eq, ?lookup_insert_ne by done; try done.
      * intros [= <-] Hn'. by destruct (Hunused n').
      * intros Hn [= <-]. by destruct (Hunused n).
      * apply Hinj.
    + intros l p Hl. rewrite lookup_insert_ne; [by apply Hold|].
      intros <-. congruence.
    + intros l. destruct (decide (l = l0)) as [->|Hne].
      * intros _. right. exists k. by rewrite lookup_insert_eq.
      * rewrite lookup_insert_ne by done. intros Hl.
        destruct (Hnew l Hl) as [?|(n & Hn)]; [by left|].
        right. exists n. rewrite lookup_insert_ne; [done|].
        intros Heq. apply Hdom in Hk. congruence.
Qed.


(** X1. [Schema.__init__] makes one property object for every entry of
    the specification's [properties] and no other: the object is new (its
    address was not in use), it is made from the schema, the entry's name and
    the entry's specification, and two names never share an object.  The
    objects that were there before are kept, no other object appears, and a
    registry of freshly constructed schemata is still one after the new
    schema is stored under its name. *)
Theorem Schema_init_allocates (nm : string) (data : SchemaSpec)
    (h : gmap loc Property) :
  let s := fst (Schema_init nm data h) in
  let h' := snd (Schema_init nm data h) in
  (∀ n, is_Some (properties s !! n) ↔ is_Some (spec_properties data !! n)) ∧
  (∀ n l, properties s !! n = Some l →
          h !! l = None ∧
          ∃ spec, spec_properties data !! n = Some spec ∧
                  h' !! l = Some (Property_new (Ref nm) n spec)) ∧
  (∀ n n' l, properties s !! n = Some l → properties s !! n' = Some l → n = n') ∧
  (∀ l p, h !! l = Some p → h' !! l = Some p) ∧
  (∀ l, is_Some (h' !! l) →
        is_Some (h !! l) ∨ ∃ n, properties s !! n = Some l) ∧
  (∀ r, constructed r → constructed (<[nm := s]> r)).
Proof.
  intros s h'.
  destruct (init_properties_spec (Ref nm) (spec_properties data) h)
    as (Hdom & Hobj & Hinj & Hold & Hnew).
  split; [|split; [|split; [|split; [|split]]]].
  - intros n. rewrite <- !not_eq_None_Some. unfold s. simpl.
    destruct (Hdom n). naive_solver.
  - exact Hobj.
  - exact Hinj.
  - exact Hold.
  - exact Hnew.
  - intros r Hr k s' Hk. destruct (decide (k = nm)) as [->|Hne].
    + rewrite lookup_insert_eq in Hk. injection Hk as <-. done.
    + rewrite lookup_insert_ne in Hk by done. by apply Hr.
Qed.

Lemma sorted_strings_singleton (x : string) : sorted_strings [x] = [x].
Proof. reflexivity. Qed.

Lemma own_properties_to_dict_get (m : Model) (s : Schema) n :
  own_properties_to_dict m s !! n =
  l ← properties s !! n; p ← heap m !! l;
  if bool_decide (prop_schema p = Ref (name s)) then Some (Property_to_dict p)
  else None.
Proof.
  unfold own_properties_to_dict.
  rewrite (map_fold_select _
    (λ _ l, p ← heap m !! l;
            if bool_decide (prop_schema p = Ref (name s))
            then Some (Property_to_dict p) else None)); [done|].
  intros k l acc. simpl. destruct (heap m !! l) as [p|]; simpl; [|done].
  by destruct (bool_decide _).
Qed.

(** X2. [to_dict] of a schema that [__init__] has just built gives
    the specification back: the label (the schema's name when the
    specification has none), [schemata] as the list of the schema's own name,
    an empty [extends], the lists [featured], [required] and [caption] when
    they are not empty and no such key otherwise, and under [properties] the
    serialisation of exactly the declared properties. *)
Theorem to_dict_after_init (nm : string) (data : SchemaSpec)
    (h : gmap loc Property) (r : gmap string Schema) :
  let s := fst (Schema_init nm data h) in
  let d := to_dict (mkModel r (snd (Schema_init nm data h))) s in
  td_label d = Some (gettext (default nm (spec_label data))) ∧
  td_schemata d = Some [nm] ∧
  td_extends d = Some [] ∧
  td_featured d
  = (if nonempty (spec_featured data) then Some (spec_featured data) else None) ∧
  td_required d
  = (if nonempty (spec_required data) then Some (spec_required data) else None) ∧
  td_caption d
  = (if nonempty (spec_caption data) then Some (spec_caption data) else None) ∧
  ∃ ps, td_properties d = Some ps ∧
        ∀ n, ps !! n
             = (λ spec, Property_to_dict (Property_new (Ref nm) n spec))
               <$> spec_properties data !! n.
Proof.
  intros s d.
  destruct (init_properties_spec (Ref nm) (spec_properties data) h)
    as (Hdom & Hobj & _).
  split; [done|]. split.
  { unfold d, to_dict. simpl. by rewrite elements_singleton. }
  split.
  { unfold d, to_dict. simpl. by rewrite elements_empty. }
  split; [done|]. split; [done|]. split; [done|].
  eexists. split; [reflexivity|]. intros n.
  rewrite own_properties_to_dict_get. simpl.
  destruct (fst (init_properties (Ref nm) (spec_properties data) h) !! n)
    as [l|] eqn:El; simpl.
  - destruct (Hobj n l El) as (_ & spec & Hspec & Hl).
    rewrite Hl, Hspec. simpl. by rewrite bool_decide_true.
  - apply Hdom in El. by rewrite El.
Qed.

End Construction.

Section AfterGenerate.
Context `{ext : Collaborators}.
Hypothesis Hadd : only_adds.

(** X3. With a [prop.generate()] that only adds to the schema objects,
    [generate()], whether it returns or raises, leaves the registry with the
    names it had, and every schema with its configuration, its cached
    matchable set and every property it had under the same object; the sets
    [extends], [schemata], [names] and [descendants] only gain members. *)
Theorem generate_only_adds (fuel : nat) (self : string) (m m' : Model) :
  outcome_state (generate fuel self m) = Some m' →
  (∀ k, is_Some (schemas m' !! k) ↔ is_Some (schemas m !! k)) ∧
  ∀ k s, schemas m !! k = Some s →
    ∃ s', schemas m' !! k = Some s' ∧
          config s' = config s ∧
          _matchable_schemata s' = _matchable_schemata s ∧
          (∀ n l, properties s !! n = Some l → properties s' !! n = Some l) ∧
          extends s ⊆ extends s' ∧ schemata s ⊆ schemata s' ∧
          names s ⊆ names s' ∧ descendants s ⊆ descendants s'.
Proof.
  intros Hst.
  assert (Hev := generate_evolves Hadd fuel self m m' Hst).
  split.
  - intros k. symmetry. by apply evolves_is_Some.
  - intros k s Hs.
    destruct (evolves_lookup _ _ _ _ Hev Hs)
      as (s' & Hs' & Hc & Hp & He & Hsch & Hn & Hd & Hm).
    exists s'. split_and!; try done.
    intros n l Hl. by apply (lookup_weaken _ _ _ _ Hl Hp).
Qed.

(** X4. With a [prop.generate()] that only adds to the schema objects,
    what [matchable_schemata] has returned for a registered schema is what it
    returns after any later [generate()], returned or raised, of any schema:
    the set is cached at the first access and never computed again, and the
    later access changes nothing. *)
Theorem matchable_schemata_survives_generate (fuel : nat) (self k : string)
    (m m1 m2 : Model) (X : gset SchemaRef) :
  is_Some (schemas m !! self) →
  matchable_schemata self m = (X, m1) →
  outcome_state (generate fuel k m1) = Some m2 →
  matchable_schemata self m2 = (X, m2).
Proof.
  intros [s Hs] Hfirst Hst.
  assert (∃ s1, schemas m1 !! self = Some s1 ∧ _matchable_schemata s1 = Some X)
    as (s1 & Hs1 & Hc1).
  { unfold matchable_schemata in Hfirst. rewrite Hs in Hfirst.
    destruct (_matchable_schemata s) as [c|] eqn:Ec.
    - injection Hfirst as <- <-. by exists s.
    - injection Hfirst as <- <-. eexists. unfold update. simpl.
      rewrite lookup_alter_eq, Hs. simpl. split; [reflexivity|]. done. }
  assert (Hev := generate_evolves Hadd fuel k m1 m2 Hst).
  destruct (evolves_lookup _ _ _ _ Hev Hs1)
    as (s2 & Hs2 & _ & _ & _ & _ & _ & _ & Hm).
  apply (matchable_schemata_cached _ _ s2); [done|]. by rewrite <- Hm.
Qed.

End AfterGenerate.

Section Reachable.
Context `{ext : Collaborators}.
Hypothesis Hkeep : keeps_hierarchy.

Lemma generate_each_hier fuel order m0 m :
  hier_inv (schemas m0) →
  outcome_state (generate_each fuel order m0) = Some m →
  hier_inv (schemas m) ∧ grows (schemas m0) (schemas m).
Proof.
  intros Hinv Hst.
  apply (for_each_inv
           (λ m1, hier_inv (schemas m1) ∧ grows (schemas m0) (schemas m1))
           (generate fuel) order) with (m := m0); [| |done].
  - intros k m1 m2 _ [Hinv1 Hg1] Hk.
    destruct (generate_hier Hkeep fuel k m1 m2 Hinv1 Hk) as (Hinv2 & Hg2 & _).
    split; [done|by eapply grows_trans].
  - split; [done|apply grows_refl].
Qed.

Lemma generate_each_closed fuel order m0 m :
  hier_inv (schemas m0) →
  (∀ k, is_Some (schemas m0 !! k) → k ∈ order) →
  generate_each fuel order m0 = Done tt m →
  hier_inv (schemas m) ∧ grows (schemas m0) (schemas m) ∧
  ∀ k, is_Some (schemas m !! k) → closed (schemas m) k.
Proof.
  intros Hc Hall Hrun.
  destruct (for_each_done
              (λ m1, hier_inv (schemas m1) ∧ grows (schemas m0) (schemas m1))
              (λ k m1, is_Some (schemas m0 !! k) → closed (schemas m1) k)
              (generate fuel) order) with (m := m0) (m' := m)
    as ([Hinv Hg] & Hcl & _); [| |done|].
  - intros k m1 m2 _ [Hinv1 Hg1] Hk.
    destruct (generate_hier Hkeep fuel k m1 m2 Hinv1) as (Hinv2 & Hg2 & Hcl2);
      [by rewrite Hk|].
    split; [|split].
    + split; [done|by eapply grows_trans].
    + intros Hreg. apply Hcl2; [done|]. by apply (grows_is_Some _ _ _ Hg1).
    + intros y Hy Hreg. apply (closed_grows _ _ _ Hg2). by apply Hy.
  - split; [done|apply grows_refl].
  - split; [done|]. split; [done|].
    intros k Hk. apply (grows_is_Some _ _ _ Hg) in Hk. apply Hcl; [|done].
    by apply Hall.
Qed.

Lemma fresh_matchable_schemata (m : Model) (self : string) (s : Schema) x :
  schemas m !! self = Some s → _matchable_schemata s = None →
  x ∈ fst (matchable_schemata self m) ↔
  matchable s = true ∧ (x ∈ schemata s ∨ x ∈ descendants s) ∧
  is_matchable m x = true.
Proof.
  intros Hs Hc. unfold matchable_schemata. rewrite Hs, Hc. simpl.
  destruct (matchable s).
  - rewrite set_fold_select, elem_of_union. naive_solver.
  - rewrite elem_of_empty. naive_solver.
Qed.

(** X5. In a state reached from freshly constructed schemata by
    [generate()] calls (returned or raised, with a [prop.generate()] that
    leaves the hierarchy slots alone), for two registered schemata whose matchable
    sets have not been computed yet: [A.can_match(B)] and [B.can_match(A)]
    agree, [A.can_match(A)] is [A.matchable], and [A.can_match(B)] holds only
    if both schemata are matchable. *)
Theorem can_match_symmetric (fuel : nat) (order : list string) (m0 m : Model)
    (A B : string) (sa sb : Schema) :
  constructed (schemas m0) →
  outcome_state (generate_each fuel order m0) = Some m →
  schemas m !! A = Some sa → schemas m !! B = Some sb →
  _matchable_schemata sa = None → _matchable_schemata sb = None →
  fst (can_match A (Ref B) m) = fst (can_match B (Ref A) m) ∧
  fst (can_match A (Ref A) m) = matchable sa ∧
  (fst (can_match A (Ref B) m) = true → matchable sa = true ∧ matchable sb = true).
Proof.
  intros Hc Hst Ha Hb Hca Hcb.
  destruct (generate_each_hier fuel order m0 m) as [Hinv _];
    [by apply constructed_hier_inv|done|].
  assert (is_matchable m (Ref A) = matchable sa) as Hma
    by (unfold is_matchable; simpl; by rewrite Ha).
  assert (is_matchable m (Ref B) = matchable sb) as Hmb
    by (unfold is_matchable; simpl; by rewrite Hb).
  assert (∀ X Y sx sy, schemas m !! X = Some sx → schemas m !! Y = Some sy →
            Ref Y ∈ schemata sx ∨ Ref Y ∈ descendants sx →
            Ref X ∈ schemata sy ∨ Ref X ∈ descendants sy) as Hflip.
  { intros X Y sx sy Hx Hy [Hin|Hin].
    - destruct (decide (Y = X)) as [->|Hne].
      + rewrite Hx in Hy. injection Hy as <-. by left.
      + destruct (Hinv X sx Hx) as (_ & _ & _ & _ & Hdesc & _).
        destruct (Hdesc (Ref Y) Hin) as (y & Hy' & Hd); [congruence|].
        simpl in Hy'. rewrite Hy in Hy'. injection Hy' as <-. by right.
    - destruct (Hinv X sx Hx) as (_ & _ & _ & _ & _ & _ & Hsch).
      destruct (Hsch (Ref Y) Hin) as (y & Hy' & Hd).
      simpl in Hy'. rewrite Hy in Hy'. injection Hy' as <-. by left. }
  unfold can_match. simpl. split; [|split].
  - apply bool_decide_ext.
    rewrite (fresh_matchable_schemata m A sa) by done.
    rewrite (fresh_matchable_schemata m B sb) by done.
    rewrite Hma, Hmb. split.
    + intros (? & ? & ?). split_and!; try done. by apply (Hflip A B sa sb).
    + intros (? & ? & ?). split_and!; try done. by apply (Hflip B A sb sa).
  - destruct (Hinv A sa Ha) as (_ & Hself & _).
    destruct (matchable sa) eqn:Em.
    + apply bool_decide_eq_true.
      rewrite (fresh_matchable_schemata m A sa) by done.
      rewrite Hma. by split_and!; [|left|].
    + apply bool_decide_eq_false.
      rewrite (fresh_matchable_schemata m A sa) by done.
      intros (? & _). congruence.
  - intros Hyes%bool_decide_eq_true.
    rewrite (fresh_matchable_schemata m A sa) in Hyes by done.
    rewrite Hmb in Hyes. naive_solver.
Qed.

(** X6. After [generate()] has returned for every schema of a registry
    of freshly constructed schemata (with a [prop.generate()] that leaves the
    hierarchy slots alone), [S.is_a(other)] holds exactly when [other] is [S]
    or is reached from [S] along [extends]; so [is_a] is reflexive, and
    transitive through registered schemata. *)
Theorem is_a_iff_ancestor (fuel : nat) (order : list string) (m0 m : Model) :
  constructed (schemas m0) →
  (∀ k, is_Some (schemas m0 !! k) → k ∈ order) →
  generate_each fuel order m0 = Done tt m →
  (∀ S s other, schemas m !! S = Some s →
     (is_a m s other = true ↔ ancestor (schemas m) S other)) ∧
  (∀ S s, schemas m !! S = Some s → is_a m s S = true) ∧
  (∀ S s B sb C, schemas m !! S = Some s → schemas m !! B = Some sb →
     is_a m s B = true → is_a m sb C = true → is_a m s C = true).
Proof.
  intros Hc Hall Hrun.
  destruct (generate_each_closed fuel order m0 m) as (Hinv & _ & Hcl);
    [by apply constructed_hier_inv|done|done|].
  assert (∀ S s other, schemas m !! S = Some s →
            (is_a m s other = true ↔ ancestor (schemas m) S other)) as Hiff.
  { intros S s other Hs. unfold is_a, model_get. split.
    - destruct (schemas m !! other); [|done].
      intros Hin%bool_decide_eq_true.
      destruct (Hinv S s Hs) as (_ & _ & _ & Hanc & _).
      by apply (Hanc (Ref other)).
    - intros Hanc.
      destruct (ancestor_registered _ _ _ Hanc) as [o Ho]; [by eexists|].
      rewrite Ho. apply bool_decide_eq_true.
      destruct (Hcl S) as (s' & Hs' & Hall' & _); [by eexists|].
      rewrite Hs in Hs'. injection Hs' as <-. by apply Hall'. }
  split; [exact Hiff|]. split.
  - intros S s Hs. apply (Hiff S s S Hs). apply rtc_refl.
  - intros S s B sb C Hs Hb H1 H2.
    apply (Hiff S s C Hs). apply (Hiff S s B Hs) in H1.
    apply (Hiff B sb C Hb) in H2. by eapply rtc_trans.
Qed.

End Reachable.

Section Reverse.
Context `{ext : Collaborators}.

(** X7. Once [_add_reverse] has returned a property for a reverse
    name, every later request on that schema with the same name, whatever the
    rest of the specification and whatever the requesting property, returns
    the same object and changes nothing. *)
Theorem _add_reverse_idempotent (self : string) (data : ReverseSpec)
    (other : Property) (m m' : Model) (prop : loc) :
  _add_reverse self data other m = Done prop m' →
  is_Some (schemas m' !! self) →
  ∀ data' other', rev_name data' = rev_name data →
                  _add_reverse self data' other' m' = Done prop m'.
Proof.
  intros Hrun Hreg data' other' Hname. unfold _add_reverse in *. rewrite Hname.
  destruct (rev_name data) as [name_|]; [|done].
  destruct (properties_of m self !! name_) as [l|] eqn:El.
  - injection Hrun as <- <-. by rewrite El.
  - unfold call_Property_generate in Hrun.
    destruct (Property_generate _ _) as [m2 [e|]]; [done|]. simpl in Hrun.
    injection Hrun as <- <-.
    destruct Hreg as [s' Hs'].
    unfold properties_of, props_at. rewrite Hs'.
    unfold update in Hs'. simpl in Hs'. rewrite lookup_alter_eq in Hs'.
    destruct (schemas m2 !! self) as [s2|]; [|done]. simpl in Hs'.
    injection Hs' as <-. simpl. by rewrite lookup_insert_eq.
Qed.

(** X8. [_add_reverse] writes at most one entry.  When it raises, the
    schema objects are as before.  When it returns, every other schema is
    untouched and the schema keeps its hierarchy slots, and its [properties]
    are the old ones with the reverse name bound to the returned object; if
    the name was not bound, that object is new, and if it was bound, the
    object is the one already there and nothing has changed.  This is for
    a [prop.generate()] that, called on the new stub, changes no schema
    object. *)
Theorem _add_reverse_writes_one_entry (self : string) (data : ReverseSpec)
    (other : Property) (m : Model) :
  (∀ m1, schemas m1 = schemas m →
         schemas (fst (Property_generate (fresh (dom (heap m))) m1)) = schemas m) →
  (∀ e m', _add_reverse self data other m = Raised e m' →
           schemas m' = schemas m) ∧
  (∀ prop m' s,
     _add_reverse self data other m = Done prop m' →
     schemas m !! self = Some s →
     (∀ k, k ≠ self → schemas m' !! k = schemas m !! k) ∧
     ∃ name_ s',
       rev_name data = Some name_ ∧ schemas m' !! self = Some s' ∧
       skeleton s' = skeleton s ∧
       properties s' = <[name_ := prop]> (properties s) ∧
       (∀ n, n ≠ name_ → properties s' !! n = properties s !! n) ∧
       (properties s !! name_ = None → heap m !! prop = None) ∧
       (∀ l, properties s !! name_ = Some l → l = prop ∧ m' = m)).
Proof.
  intros Hstub.
  unfold _add_reverse. destruct (rev_name data) as [name_|].
  2:{ split; [|done]. by intros e m' [= _ <-]. }
  destruct (properties_of m self !! name_) as [l|] eqn:El.
  - split; [done|]. intros prop m' s [= <- <-] Hs.
    unfold properties_of, props_at in El. rewrite Hs in El.
    split; [done|]. exists name_, s. split_and!; try done.
    + by rewrite insert_id.
    + congruence.
    + intros l' Hl'. split; congruence.
  - unfold call_Property_generate.
    set (prop0 := fresh (dom (heap m))) in *.
    set (m1 := mkModel _ _).
    pose proof (Hstub m1 eq_refl) as Hsame.
    destruct (Property_generate prop0 m1) as [m2 [e|]]; simpl in *.
    + split; [|done]. by intros e' m' [= _ <-].
    + split; [done|]. intros prop m' s [= <- <-] Hs.
      unfold properties_of, props_at in El. rewrite Hs in El.
      unfold update. simpl. rewrite Hsame. split.
      * intros k Hk. by rewrite lookup_alter_ne.
      * exists name_, (set_properties <[name_ := prop0]> s).
        rewrite lookup_alter_eq, Hs. simpl. split_and!; try done.
        -- intros n Hn. by rewrite lookup_insert_ne.
        -- intros _. apply not_elem_of_dom. apply is_fresh.
        -- congruence.
Qed.

End Reverse.

Section Validity.
Context `{ext : Collaborators}.

(** X9. [validate] of a registered schema returns [None] and leaves
    the state alone exactly when, for every property of the schema, the
    property's own [validate] accepts the values read from the data and the
    property is not a required one without values. *)
Theorem validate_accepts_iff (self : string) (data : EntityData Value)
    (m : Model) (s : Schema) :
  schemas m !! self = Some s →
  let input := ensure_dict (data_properties data) in
  fst (validate self data m) = Done None m ↔
  ∀ n l p, properties s !! n = Some l → heap m !! l = Some p →
           Property_validate p (values_for input n) = None ∧
           ¬ (values_for input n = [] ∧ prop_name p ∈ required s).
Proof.
  intros Hs input. rewrite (validate_unfold _ _ _ _ Hs). fold input.
  assert (collect_errors m s input = ∅ ↔
          ∀ n l p, properties s !! n = Some l → heap m !! l = Some p →
                   Property_validate p (values_for input n) = None ∧
                   ¬ (values_for input n = [] ∧ prop_name p ∈ required s))
    as Hempty.
  { rewrite map_empty. split.
    - intros Hnone n l p Hl Hp. specialize (Hnone n).
      rewrite collect_errors_lookup, Hl in Hnone. simpl in Hnone.
      rewrite Hp in Hnone. simpl in Hnone.
      rewrite property_error_spec in Hnone.
      destruct (Property_validate p (values_for input n)); [done|].
      split; [done|]. by case_bool_decide.
    - intros Hall n. rewrite collect_errors_lookup.
      destruct (properties s !! n) as [l|] eqn:El; [|done]. simpl.
      destruct (heap m !! l) as [p|] eqn:Ep; [|done]. simpl.
      rewrite property_error_spec.
      destruct (Hall n l p El Ep) as [-> Hno]. by rewrite bool_decide_false. }
  case_decide as Hd.
  - split; [intros _; by apply Hempty|done].
  - split; [done|]. intros Hall. by apply Hempty in Hall.
Qed.

(** X10. [validate] reads the data only through the value lists of
    the schema's properties ([ensure_list] of the entry under the property's
    name): two inputs that give every property of the schema the same list
    get the same result, so a single value and the one-element list are
    treated alike and keys that name no property are ignored. *)
Theorem validate_reads_value_lists (self : string) (data data' : EntityData Value)
    (m : Model) :
  (∀ n, is_Some (properties_of m self !! n) →
        values_for (ensure_dict (data_properties data')) n
        = values_for (ensure_dict (data_properties data)) n) →
  fst (validate self data' m) = fst (validate self data m).
Proof.
  intros Hsame. destruct (schemas m !! self) as [s|] eqn:Hs.
  2:{ unfold validate. by rewrite Hs. }
  rewrite !(validate_unfold _ _ _ _ Hs).
  set (input := ensure_dict (data_properties data)) in *.
  set (input' := ensure_dict (data_properties data')) in *.
  assert (collect_errors m s input' = collect_errors m s input) as ->; [|done].
  apply map_eq. intros n. rewrite !collect_errors_lookup.
  destruct (properties s !! n) as [l|] eqn:El; [|done]. simpl.
  destruct (heap m !! l) as [p|]; [|done]. simpl.
  rewrite !property_error_spec.
  assert (values_for input' n = values_for input n) as ->; [|done].
  specialize (Hsame n). unfold properties_of, props_at in Hsame.
  rewrite Hs, El in Hsame. specialize (Hsame (mk_is_Some _ _ eq_refl)).
  exact Hsame.
Qed.

End Validity.

Section Order.

Lemma ascii_compare_refl c : Ascii.compare c c = Eq.
Proof. unfold Ascii.compare. apply N.compare_refl. Qed.

Lemma ascii_compare_lt_trans a b c :
  Ascii.compare a b = Lt → Ascii.compare b c = Lt → Ascii.compare a c = Lt.
Proof.
  unfold Ascii.compare. rewrite !N.compare_lt_iff. apply N.lt_trans.
Qed.

Lemma string_compare_refl s : String.compare s s = Eq.
Proof.
  induction s as [|c s IH]; [done|]. simpl. by rewrite ascii_compare_refl.
Qed.

Lemma string_compare_lt_trans a b c :
  String.compare a b = Lt → String.compare b c = Lt → String.compare a c = Lt.
Proof.
  revert b c. induction a as [|x a IH]; intros [|y b] [|z c]; simpl; try done.
  destruct (Ascii.compare x y) eqn:Exy; try done;
    destruct (Ascii.compare y z) eqn:Eyz; try done.
  - apply Ascii.compare_eq_iff in Exy, Eyz. subst.
    rewrite ascii_compare_refl. apply IH.
  - apply Ascii.compare_eq_iff in Exy. subst. by rewrite Eyz.
  - apply Ascii.compare_eq_iff in Eyz. subst. by rewrite Exy.
  - by rewrite (ascii_compare_lt_trans _ _ _ Exy Eyz).
Qed.

Lemma string_leb_cases a b :
  String.leb a b = true ↔ a = b ∨ String.compare a b = Lt.
Proof.
  unfold String.leb. destruct (String.compare a b) eqn:E.
  - apply String.compare_eq_iff in E. naive_solver.
  - naive_solver.
  - split; [done|]. intros [->|?]; [|done]. by rewrite string_compare_refl in E.
Qed.

Lemma string_le_trans a b c : string_le a b → string_le b c → string_le a c.
Proof.
  unfold string_le. rewrite !Is_true_true, !string_leb_cases.
  intros [->|H1] [->|H2]; eauto using string_compare_lt_trans.
Qed.

Lemma string_le_total a b : string_le a b ∨ string_le b a.
Proof. unfold string_le. rewrite !Is_true_true. apply String.leb_total. Qed.

Lemma string_le_antisym a b : string_le a b → string_le b a → a = b.
Proof. unfold string_le. rewrite !Is_true_true. apply String.leb_antisym. Qed.

Lemma sorted_strings_sorted l : StronglySorted string_le (sorted_strings l).
Proof.
  apply (@StronglySorted_merge_sort _ string_le _ string_le_trans string_le_total).
Qed.

Lemma sorted_strings_perm l : sorted_strings l ≡ₚ l.
Proof. apply merge_sort_Permutation. Qed.

Lemma sorted_strings_unique l l' :
  StronglySorted string_le l' → l' ≡ₚ l → l' = sorted_strings l.
Proof.
  intros Hs Hp.
  apply (@StronglySorted_unique _ string_le string_le_antisym); [done| |].
  - apply sorted_strings_sorted.
  - by rewrite sorted_strings_perm.
Qed.

End Order.

Section Lists.
Context `{ext : Collaborators}.

(** X11. The lists [schemata] and [extends] written by [to_dict] are
    always present and sorted; [schemata] lists every member of [names] once
    and is the only sorted arrangement of them, and [extends] lists the name
    of every member of the set [extends], one entry for each. *)
Theorem to_dict_lists_sorted (m : Model) (s : Schema) :
  ∃ ls le,
    td_schemata (to_dict m s) = Some ls ∧ td_extends (to_dict m s) = Some le ∧
    StronglySorted string_le ls ∧ NoDup ls ∧ (∀ x, x ∈ ls ↔ x ∈ names s) ∧
    StronglySorted string_le le ∧
    (∀ x, x ∈ le ↔ ∃ e, e ∈ extends s ∧ x = name_of (schemas m) e) ∧
    length le = size (extends s) ∧
    (∀ l, StronglySorted string_le l → l ≡ₚ elements (names s) → l = ls).
Proof.
  eexists _, _. split; [reflexivity|]. split; [reflexivity|].
  split_and!.
  - apply sorted_strings_sorted.
  - rewrite sorted_strings_perm. apply NoDup_elements.
  - intros x. rewrite sorted_strings_perm. apply elem_of_elements.
  - apply sorted_strings_sorted.
  - intros x. rewrite sorted_strings_perm, list_elem_of_fmap.
    setoid_rewrite elem_of_elements. naive_solver.
  - rewrite sorted_strings_perm, length_fmap. done.
  - intros l. apply sorted_strings_unique.
Qed.

End Lists.

Section Invariants.
Context `{ext : Collaborators}.

Lemma keeps_schemas_hierarchy : keeps_schemas → keeps_hierarchy.
Proof. intros H l m. by rewrite H. Qed.

Hypothesis Hkeep : keeps_hierarchy.

Lemma generate_preserves (I : gmap string Schema → Prop) :
  (∀ r r', skeleton <$> r = skeleton <$> r' → I r → I r') →
  (∀ self e r, hier_inv r → parent_of r self e → I r → I (inherit self e r)) →
  ∀ fuel self m m',
    hier_inv (schemas m) → I (schemas m) →
    outcome_state (generate fuel self m) = Some m' → I (schemas m').
Proof.
  intros Hsk Hinh fuel.
  induction fuel as [|fuel IH]; intros self m m' Hinv HI Hrun; [done|].
  destruct (schemas m !! self) as [s|] eqn:Hself.
  2:{ simpl in Hrun. rewrite Hself in Hrun. simpl in Hrun. by simplify_eq. }
  rewrite (generate_unfold _ _ _ s Hself) in Hrun.
  set (J := λ m0, hier_inv (schemas m0) ∧ grows (schemas m) (schemas m0)
                  ∧ I (schemas m0)).
  assert (∀ e m0 m0', e ∈ _extends s → J m0 →
            outcome_state (generate_parent (generate fuel) self e m0) = Some m0' →
            J m0') as Hstep.
  { intros e m0 m0' He (Hinv0 & Hg0 & HI0) Hrun0.
    destruct (grows_lookup _ _ _ _ Hg0 Hself) as (s0 & Hs0 & Hc & _).
    assert (e ∈ _extends s0) as He0 by by rewrite <- (config_extends _ _ Hc).
    destruct (generate_parent_hier fuel self e m0 m0' s0
                (generate_hier Hkeep fuel) Hinv0 Hs0 He0 Hrun0) as (Hinv0' & Hg0' & _).
    split; [done|]. split; [by eapply grows_trans|].
    unfold generate_parent, model_get in Hrun0.
    destruct (schemas m0 !! e) as [p|] eqn:Hp; simpl in Hrun0; [|by simplify_eq].
    destruct (generate fuel e m0) as [[] m1|ex m1|] eqn:Hgen; simpl in Hrun0;
      [| |done]; simplify_eq.
    - destruct (generate_hier Hkeep fuel e m0 m1 Hinv0) as (Hinv1 & Hg1 & _);
        [by rewrite Hgen|].
      simpl. apply Hinh; [done| |].
      + apply (parent_of_grows _ _ _ _ Hg1). exists s0. eauto.
      + apply (IH e m0 m1); [done|done|by rewrite Hgen].
    - apply (IH e m0 m0'); [done|done|by rewrite Hgen]. }
  assert (J m) as HJ by (split; [done|split; [apply grows_refl|done]]).
  set (parents := for_each (generate_parent (generate fuel) self) (_extends s)) in *.
  destruct (parents m) as [[] m1|ex m1|] eqn:Hparents.
  - destruct (for_each_inv J (generate_parent (generate fuel) self) (_extends s))
      with (m := m) (m' := m1) as (Hinv1 & Hg1 & HI1);
      [exact Hstep|done|by unfold parents in Hparents; rewrite Hparents|].
    assert (outcome_state (generate_properties self m1) = Some m') as Hprops.
    { apply (seq_keeps_state _ (check_declared self s));
        [apply check_declared_state|].
      unfold seq in Hrun at 1. by rewrite Hparents in Hrun. }
    apply (Hsk (schemas m1)); [|done].
    by apply (generate_properties_hier Hkeep self).
  - unfold seq in Hrun at 1. rewrite Hparents in Hrun. simpl in Hrun. simplify_eq.
    destruct (for_each_inv J (generate_parent (generate fuel) self) (_extends s))
      with (m := m) (m' := m') as (_ & _ & HI1);
      [exact Hstep|done|by unfold parents in Hparents; rewrite Hparents|done].
  - unfold seq in Hrun at 1. by rewrite Hparents in Hrun.
Qed.

Lemma no_self_skeleton r r' :
  skeleton <$> r = skeleton <$> r' → no_self r → no_self r'.
Proof.
  intros Hsk Hno k s' Hk Hin.
  destruct (skeleton_lookup _ _ _ _ Hsk Hk) as (s & Hs & Hss).
  destruct (skeleton_fields _ _ Hss) as (_ & _ & _ & _ & Hd).
  destruct (Hno k s Hs) as (e & Hpar & Hanc); [by rewrite Hd|].
  assert (Hg := skeleton_grows _ _ Hsk).
  exists e. split.
  - by apply (parent_of_grows _ _ _ _ Hg).
  - by apply (ancestor_grows _ _ _ _ Hg).
Qed.

Lemma no_self_inherit self e r :
  hier_inv r → parent_of r self e → no_self r → no_self (inherit self e r).
Proof.
  intros Hinv Hpar Hno k s' Hk Hin.
  assert (Hg := inherit_grows self e r).
  destruct Hpar as (ss & Hss & He & [p Hp]).
  rewrite (inherit_lookup _ _ _ p _ Hp) in Hk.
  destruct (r !! k) as [s|] eqn:Hs; [|done]. simpl in Hk. injection Hk as <-.
  rewrite after_inherit_descendants in Hin.
  assert (Ref k ∈ descendants s ∨ (Ref k ∈ schemata p ∧ k = self)) as [Hold|[Hsch ->]].
  { case_decide.
    - apply elem_of_union in Hin as [?|Heq]; [by left|].
      apply elem_of_singleton in Heq. injection Heq as ->. by right.
    - by left. }
  - destruct (Hno k s Hs Hold) as (e' & Hpar' & Hanc').
    exists e'. split.
    + by apply (parent_of_grows _ _ _ _ Hg).
    + by apply (ancestor_grows _ _ _ _ Hg).
  - exists e. split.
    + apply (parent_of_grows _ _ _ _ Hg). exists ss. eauto.
    + apply (ancestor_grows _ _ _ _ Hg).
      destruct (Hinv e p Hp) as (_ & _ & _ & Hanc & _).
      by apply (Hanc (Ref self)).
Qed.

End Invariants.


Section Inverse.
Context `{ext : Collaborators}.
Hypothesis Hkeep : keeps_hierarchy.

Lemma constructed_no_self r : constructed r → no_self r.
Proof.
  intros Hc k s Hk Hin. destruct (Hc k s Hk) as (_ & _ & _ & _ & Hd).
  rewrite Hd in Hin. by apply elem_of_empty in Hin.
Qed.

Lemma generate_each_no_self fuel order m0 m :
  hier_inv (schemas m0) → no_self (schemas m0) →
  outcome_state (generate_each fuel order m0) = Some m →
  no_self (schemas m).
Proof.
  intros Hinv Hno Hst.
  apply (for_each_inv (λ m1, hier_inv (schemas m1) ∧ no_self (schemas m1))
           (generate fuel) order) with (m := m0); [| |done].
  - intros k m1 m2 _ [Hinv1 Hno1] Hk. split.
    + by destruct (generate_hier Hkeep fuel k m1 m2 Hinv1 Hk).
    + apply (generate_preserves Hkeep no_self no_self_skeleton no_self_inherit
               fuel k m1 m2); done.
  - done.
Qed.

Lemma generate_not_tall_hier fuel : ∀ self m m',
  hier_inv (schemas m) →
  generate fuel self m = Done tt m' → ¬ tall fuel (schemas m) self.
Proof.
  induction fuel as [|fuel IH]; intros self m m' Hinv Hrun; [done|].
  intros (e & (s & Hself & He & Hreg) & Ht).
  rewrite (generate_unfold _ _ _ s Hself) in Hrun.
  apply seq_done in Hrun as (m1 & Hparents & _).
  destruct (for_each_done
              (λ m0, hier_inv (schemas m0) ∧ grows (schemas m) (schemas m0))
              (λ e (_ : Model), ¬ tall fuel (schemas m) e)
              (generate_parent (generate fuel) self) (_extends s))
    with (m := m) (m' := m1) as (_ & Hall & _);
    [|split; [done|apply grows_refl]|done|by apply (Hall e)].
  intros e' m0 m0' He' [Hinv0 Hg0] Hbody.
  destruct (grows_lookup _ _ _ _ Hg0 Hself) as (s0 & Hs0 & Hc & _).
  assert (e' ∈ _extends s0) as He0 by by rewrite <- (config_extends _ _ Hc).
  destruct (generate_parent_hier fuel self e' m0 m0' s0
              (generate_hier Hkeep fuel) Hinv0 Hs0 He0) as (Hinv0' & Hg0' & _);
    [by rewrite Hbody|].
  split; [split; [done|by eapply grows_trans]|]. split; [|done].
  apply generate_parent_done in Hbody as (p & mg & _ & Hgen & _).
  intros Htall. apply (IH e' m0 mg Hinv0 Hgen).
  by apply (tall_grows _ _ _ _ Hg0).
Qed.

Lemma generate_each_not_tall fuel order m0 m :
  hier_inv (schemas m0) →
  generate_each fuel order m0 = Done tt m →
  ∀ k, k ∈ order → ¬ tall fuel (schemas m0) k.
Proof.
  intros Hinv Hrun.
  destruct (for_each_done
              (λ m1, hier_inv (schemas m1) ∧ grows (schemas m0) (schemas m1))
              (λ k (_ : Model), ¬ tall fuel (schemas m0) k)
              (generate fuel) order) with (m := m0) (m' := m)
    as (_ & Hall & _); [|split; [done|apply grows_refl]|done|done].
  intros k m1 m2 _ [Hinv1 Hg1] Hk.
  destruct (generate_hier Hkeep fuel k m1 m2 Hinv1) as (Hinv2 & Hg2 & _);
    [by rewrite Hk|].
  split; [split; [done|by eapply grows_trans]|]. split; [|done].
  intros Ht. apply (generate_not_tall_hier fuel k m1 m2 Hinv1 Hk).
  by apply (tall_grows _ _ _ _ Hg1).
Qed.

Lemma hierarchy_exact (fuel : nat) (order : list string) (m0 m : Model) :
  constructed (schemas m0) →
  (∀ k, is_Some (schemas m0 !! k) → k ∈ order) →
  generate_each fuel order m0 = Done tt m →
  ∀ S s, schemas m !! S = Some s →
    (∀ D, D ∈ descendants s ↔ D ≠ Ref S ∧ Ref S ∈ schemata_of (schemas m) D) ∧
    (∀ A, A ∈ schemata s → A ≠ Ref S → Ref S ∉ schemata_of (schemas m) A) ∧
    (∀ e, e ∈ extends s ↔ ref_name e ∈ _extends s).
Proof.
  intros Hc Hall Hrun S s Hs.
  assert (Hinv0 := constructed_hier_inv _ Hc).
  destruct (generate_each_closed Hkeep fuel order m0 m Hinv0 Hall Hrun)
    as (Hinv & Hg & Hcl).
  assert (no_self (schemas m)) as Hno.
  { apply (generate_each_no_self fuel order m0 m); [done| |by rewrite Hrun].
    by apply constructed_no_self. }
  assert (∀ k e, parent_of (schemas m) k e → ¬ ancestor (schemas m) e k) as Hacyc.
  { intros k e Hpar Hanc.
    apply (generate_each_not_tall fuel order m0 m Hinv0 Hrun k).
    - apply Hall. apply (grows_is_Some _ _ _ Hg). by destruct Hpar as (? & ? & _).
    - apply (tall_grows _ _ _ _ Hg). by apply (cycle_tall _ k e). }
  assert (∀ X sx, schemas m !! X = Some sx → Ref X ∉ descendants sx) as Hirr.
  { intros X sx Hx Hin. destruct (Hno X sx Hx Hin) as (e & Hpar & Hanc).
    by apply (Hacyc X e). }
  destruct (Hinv S s Hs) as (_ & _ & _ & Hanc & Hdown & Hext & Hup).
  split; [|split].
  - intros D. split.
    + intros Hin. split.
      * intros ->. by apply (Hirr S s).
      * destruct (Hup D Hin) as (x & Hx & Hsx). unfold schemata_of. by rewrite Hx.
    + intros [Hne Hin]. unfold schemata_of in Hin.
      destruct (schemas m !! ref_name D) as [x|] eqn:Hx;
        [|by apply elem_of_empty in Hin].
      destruct (Hinv (ref_name D) x Hx) as (_ & _ & _ & _ & Hdown' & _).
      destruct (Hdown' (Ref S) Hin) as (y & Hy & Hd).
      { intros Heq. rewrite ref_name_Ref in Heq. by apply Hne. }
      simpl in Hy. rewrite Hs in Hy. injection Hy as <-.
      by rewrite ref_name_Ref in Hd.
  - intros A HA Hne Hback. unfold schemata_of in Hback.
    destruct (schemas m !! ref_name A) as [x|] eqn:Hx;
      [|by apply elem_of_empty in Hback].
    destruct (Hinv (ref_name A) x Hx) as (_ & _ & _ & Hanc' & _).
    specialize (Hanc A HA). specialize (Hanc' (Ref S) Hback). simpl in Hanc'.
    destruct (ancestor_inv _ _ _ Hanc) as [Heq|(e & Hpar & Hrest)].
    + apply Hne. by rewrite <- (ref_name_Ref A), <- Heq.
    + apply (Hacyc S e Hpar). by eapply rtc_trans.
  - intros e. split.
    + intros He. by destruct (Hext e He) as (s' & Hs' & Hin & _); simplify_eq.
    + intros He. destruct (Hcl S) as (s' & Hs' & _ & Hcle); [by eexists|].
      rewrite Hs in Hs'. injection Hs' as <-.
      destruct (Hcle _ He) as [_ Hin]. by rewrite ref_name_Ref in Hin.
Qed.

(** X12. After [generate()] has returned for every schema of a
    registry of freshly constructed schemata (with a [prop.generate()] that
    leaves the hierarchy slots alone), [descendants] is the exact inverse of
    [schemata]: [D] is a descendant of [S] exactly when [D] is another
    schema whose [schemata] has [S]; no schema is among the [schemata] of one
    of its proper ancestors; and the set [extends] holds exactly the schemata
    named in the specification's [extends]. *)
Theorem descendants_exact_inverse (fuel : nat) (order : list string)
    (m0 m : Model) :
  constructed (schemas m0) →
  (∀ k, is_Some (schemas m0 !! k) → k ∈ order) →
  generate_each fuel order m0 = Done tt m →
  ∀ S s, schemas m !! S = Some s →
    (∀ D, D ∈ descendants s ↔ D ≠ Ref S ∧ Ref S ∈ schemata_of (schemas m) D) ∧
    (∀ A, A ∈ schemata s → A ≠ Ref S → Ref S ∉ schemata_of (schemas m) A) ∧
    (∀ e, e ∈ extends s ↔ ref_name e ∈ _extends s).
Proof. apply hierarchy_exact. Qed.

End Inverse.

Section Resolution.

Lemma merge_all_ext r r' own l :
  (∀ e, e ∈ l → props_at r' e = props_at r e) →
  merge_all r' own l = merge_all r own l.
Proof.
  unfold merge_all. revert own. induction l as [|e l IH]; intros own Hl; [done|].
  simpl. rewrite (Hl e) by left. apply IH. intros e' He'. apply Hl. by right.
Qed.

Lemma steady_props_at r r' n e :
  steady r r' → settled n r e → props_at r' e = props_at r e.
Proof.
  intros [Hev Hst] Hset. unfold props_at.
  destruct (r !! e) as [p|] eqn:Hp.
  - destruct (Hst n e p Hset Hp) as (p' & Hp' & Heq & _). by rewrite Hp', Heq.
  - specialize (Hev e). rewrite Hp in Hev. by rewrite Hev.
Qed.

Lemma resolved_steady r0 r r' z s n :
  steady r r' → r !! z = Some s → settled n r z →
  properties s = merge_all r (props_at r0 z) (_extends s) →
  ∃ s', r' !! z = Some s' ∧ settled n r' z ∧
        properties s' = merge_all r' (props_at r0 z) (_extends s').
Proof.
  intros Hst Hs Hset Hprops.
  destruct Hst as [Hev Hown].
  destruct (Hown n z s Hset Hs) as (s' & Hs' & Heq & _).
  destruct (evolves_lookup _ _ _ _ Hev Hs) as (s'' & Hs'' & Hc & _).
  rewrite Hs' in Hs''. injection Hs'' as <-.
  exists s'. split; [done|]. split; [by apply (settled_steady r r')|].
  rewrite <- Heq, <- (config_extends _ _ Hc), Hprops.
  symmetry. apply merge_all_ext. intros e He.
  destruct n as [|n]; [done|]. destruct (Hset s Hs) as (_ & Hpar).
  destruct (Hpar e He) as (Hse & _).
  by apply (steady_props_at r r' n).
Qed.

Lemma kept_or_resolved_steady r0 r r' z :
  steady r r' →
  (∀ s s', r !! z = Some s → r' !! z = Some s' → properties s' = properties s) →
  kept_or_resolved r0 r z → kept_or_resolved r0 r' z.
Proof.
  intros Hst Hsame Hk s' Hs'.
  destruct (evolves_lookup_inv _ _ _ _ (proj1 Hst) Hs') as (s & Hs & _).
  destruct (Hk s Hs) as [Hkept|[[n Hset] Hres]].
  - left. by rewrite (Hsame s s').
  - right. destruct (resolved_steady r0 r r' z s n Hst Hs Hset Hres)
      as (s2 & Hs2 & Hset2 & Hres2).
    rewrite Hs' in Hs2. injection Hs2 as <-. split; [by exists n|done].
Qed.

End Resolution.

Section Determined.
Context `{ext : Collaborators}.
Hypothesis Hframe : keeps_schemas.

Lemma rest_schemas self s m1 m' :
  seq (generate_properties self) (check_declared self s) m1 = Done tt m' →
  schemas m' = schemas m1.
Proof.
  intros Hrest. apply seq_done in Hrest as (m2 & Hprops & Hchk).
  assert (outcome_state (check_declared self s m2) = Some m2) as Hst
    by apply check_declared_state.
  rewrite Hchk in Hst. injection Hst as ->.
  destruct (generate_properties_schemas Hframe self m1) as (_ & Hsame).
  apply Hsame. by rewrite Hprops.
Qed.

Lemma generate_resolves (r0 : gmap string Schema) fuel :
  ∀ self m m' z,
    generate fuel self m = Done tt m' →
    kept_or_resolved r0 (schemas m) z →
    kept_or_resolved r0 (schemas m') z ∧
    (z = self → resolved_from r0 (schemas m') z).
Proof.
  induction fuel as [|fuel IH]; intros self m m' z Hrun Hk; [done|].
  assert (outcome_state (generate (S fuel) self m) = Some m') as Hst
    by by rewrite Hrun.
  destruct (generate_steady Hframe (S fuel) self m m' Hst) as (Hsteady & Hset).
  specialize (Hset Hrun).
  destruct (schemas m !! self) as [s|] eqn:Hself.
  2:{ simpl in Hrun. rewrite Hself in Hrun. injection Hrun as <-.
      split; [done|]. intros -> s Hs. congruence. }
  destruct (decide (z = self)) as [->|Hne].
  - assert (resolved_from r0 (schemas m') self) as Hres.
    { intros s' Hs'. destruct (Hk s Hself) as [Hkept|[[n Hn] Hres]].
      - split; [by exists (S fuel)|].
        pose proof (generate_merge Hframe (S fuel) self s m m' Hself Hrun) as Hm.
        rewrite (props_at_lookup _ _ _ Hs') in Hm. rewrite Hm, Hkept.
        destruct (evolves_lookup _ _ _ _ (proj1 Hsteady) Hself)
          as (s'' & Hs'' & Hc & _).
        rewrite Hs' in Hs''. injection Hs'' as <-.
        by rewrite (config_extends _ _ Hc).
      - destruct (resolved_steady r0 _ _ self s n Hsteady Hself Hn Hres)
          as (s2 & Hs2 & Hset2 & Hres2).
        rewrite Hs' in Hs2. injection Hs2 as <-. split; [by exists n|done]. }
    split; [|done]. intros s' Hs'. right. by apply Hres.
  - split; [|done].
    rewrite (generate_unfold _ _ _ s Hself) in Hrun.
    apply seq_done in Hrun as (m1 & Hparents & Hrest).
    apply rest_schemas in Hrest. rewrite Hrest.
    destruct (for_each_done
                (λ m0, steady (schemas m) (schemas m0)
                       ∧ kept_or_resolved r0 (schemas m0) z)
                (λ (_ : string) (_ : Model), True)
                (generate_parent (generate fuel) self) (_extends s))
      with (m := m) (m' := m1) as ((_ & Hfinal) & _);
      [|split; [apply steady_refl|done]|done|done].
    intros e m0 m0' He [Hst0 Hk0] Hbody.
    assert (steady (schemas m0) (schemas m0')) as Hst1.
    { apply (parents_steady Hframe fuel self s m [e] m0 m0'); [done| |done|].
      - intros ? ->%list_elem_of_singleton. done.
      - simpl. unfold seq. by rewrite Hbody. }
    split; [|done]. split; [by eapply steady_trans|].
    apply generate_parent_done in Hbody as (p & mg & Hp & Hgen & ->).
    destruct (IH e m0 mg z Hgen Hk0) as [Hkg _].
    assert (outcome_state (generate fuel e m0) = Some mg) as Hgst
      by by rewrite Hgen.
    destruct (generate_steady Hframe fuel e m0 mg Hgst) as (Hstg & _).
    destruct (evolves_lookup _ _ _ _ (proj1 Hst0) Hself) as (s0 & Hs0 & Hc0 & _).
    destruct (evolves_lookup _ _ _ _ (proj1 Hstg) Hs0) as (sg & Hsg & Hcg & _).
    destruct (evolves_lookup _ _ _ _ (proj1 Hstg) Hp) as (pg & Hpg & _).
    simpl.
    apply (kept_or_resolved_steady r0 (schemas mg)); [| |done].
    + apply (inherit_steady self e (schemas mg) sg); [done|].
      by rewrite <- (config_extends _ _ Hcg), <- (config_extends _ _ Hc0).
    + intros sz sz' Hz Hz'.
      rewrite (inherit_lookup _ _ _ pg _ Hpg), Hz in Hz'. simpl in Hz'.
      injection Hz' as <-. rewrite after_inherit_properties.
      by rewrite decide_False.
Qed.


Lemma generate_each_steady fuel order m0 m :
  outcome_state (generate_each fuel order m0) = Some m →
  steady (schemas m0) (schemas m).
Proof.
  intros Hst.
  apply (for_each_inv (λ m1, steady (schemas m0) (schemas m1))
           (generate fuel) order) with (m := m0); [|apply steady_refl|done].
  intros k m1 m2 _ Hst1 Hk.
  destruct (generate_steady Hframe fuel k m1 m2 Hk) as (Hst2 & _).
  by eapply steady_trans.
Qed.

Lemma resolved_from_steady r0 r r' z :
  steady r r' → resolved_from r0 r z → resolved_from r0 r' z.
Proof.
  intros Hst Hres s' Hs'.
  destruct (evolves_lookup_inv _ _ _ _ (proj1 Hst) Hs') as (s & Hs & _).
  destruct (Hres s Hs) as [[n Hset] Hprops].
  destruct (resolved_steady r0 r r' z s n Hst Hs Hset Hprops)
    as (s2 & Hs2 & Hset2 & Hres2).
  rewrite Hs' in Hs2. injection Hs2 as <-. split; [by exists n|done].
Qed.

Lemma generate_each_resolved fuel order m0 m :
  (∀ k, is_Some (schemas m0 !! k) → k ∈ order) →
  generate_each fuel order m0 = Done tt m →
  ∀ z, resolved_from (schemas m0) (schemas m) z.
Proof.
  intros Hall Hrun.
  destruct (for_each_done
              (λ m1, ∀ z, kept_or_resolved (schemas m0) (schemas m1) z)
              (λ k m1, resolved_from (schemas m0) (schemas m1) k)
              (generate fuel) order) with (m := m0) (m' := m)
    as (_ & Hres & _); [| |done|].
  - intros k m1 m2 _ Hk Hgen. split; [|split].
    + intros z. by destruct (generate_resolves (schemas m0) fuel k m1 m2 z Hgen).
    + by destruct (generate_resolves (schemas m0) fuel k m1 m2 k Hgen) as [_ H];
        [|apply H].
    + intros y Hy. apply (resolved_from_steady _ (schemas m1)); [|done].
      destruct (generate_steady Hframe fuel k m1 m2) as (Hst2 & _); [|done].
      by rewrite Hgen.
  - intros z s Hs. left. by rewrite (props_at_lookup _ _ _ Hs).
  - intros z s Hs. apply Hres; [|done]. apply Hall.
    assert (steady (schemas m0) (schemas m)) as Hst
      by (apply (generate_each_steady fuel order); by rewrite Hrun).
    apply (evolves_is_Some _ _ _ (proj1 Hst)). by eexists.
Qed.

Lemma generate_each_not_tall_frame fuel order m0 m :
  generate_each fuel order m0 = Done tt m →
  ∀ k, k ∈ order → ¬ tall fuel (schemas m0) k.
Proof.
  intros Hrun.
  destruct (for_each_done (λ m1, steady (schemas m0) (schemas m1))
              (λ k _, ¬ tall fuel (schemas m0) k)
              (generate fuel) order) with (m := m0) (m' := m)
    as (_ & Hall & _); [|apply steady_refl|done|done].
  intros k m1 m2 _ Hst Hk.
  assert (outcome_state (generate fuel k m1) = Some m2) as Hk' by by rewrite Hk.
  destruct (generate_steady Hframe fuel k m1 m2 Hk') as (Hst2 & _).
  split; [by eapply steady_trans|]. split; [|done].
  intros Ht. apply (generate_not_tall Hframe fuel k m1 m2 Hk).
  by apply (tall_grows _ _ _ _ (steady_grows _ _ Hst)).
Qed.

End Determined.

Section Unique.

Lemma tall_registered n r k : tall n r k → is_Some (r !! k).
Proof.
  destruct n as [|n]; [done|]. intros (e & (s & Hs & _) & _). by eexists.
Qed.

Lemma resolved_unique r0 r1 r2 :
  evolves r0 r1 → evolves r0 r2 →
  (∀ z, resolved_from r0 r1 z) → (∀ z, resolved_from r0 r2 z) →
  ∀ n z, ¬ tall n r0 z → props_at r1 z = props_at r2 z.
Proof.
  intros He1 He2 Hr1 Hr2 n.
  induction n as [|n IH]; intros z Hz.
  - simpl in Hz. unfold props_at.
    pose proof (He1 z) as H1. pose proof (He2 z) as H2.
    destruct (r0 !! z) as [s0|]; [by destruct Hz|]. by rewrite H1, H2.
  - destruct (r0 !! z) as [s0|] eqn:Hs0.
    2:{ unfold props_at. pose proof (He1 z) as H1. pose proof (He2 z) as H2.
        rewrite Hs0 in H1, H2. by rewrite H1, H2. }
    destruct (evolves_lookup _ _ _ _ He1 Hs0) as (s1 & Hs1 & Hc1 & _).
    destruct (evolves_lookup _ _ _ _ He2 Hs0) as (s2 & Hs2 & Hc2 & _).
    rewrite (props_at_lookup _ _ _ Hs1), (props_at_lookup _ _ _ Hs2).
    destruct (Hr1 z s1 Hs1) as [_ ->]. destruct (Hr2 z s2 Hs2) as [_ ->].
    rewrite <- (config_extends _ _ Hc1), <- (config_extends _ _ Hc2).
    apply merge_all_ext. intros e He. apply IH. intros Ht.
    apply Hz. exists e. split; [|done].
    exists s0. split; [done|]. split; [done|]. by apply (tall_registered n).
Qed.

End Unique.

Section Independence.
Context `{ext : Collaborators}.
Hypothesis Hkeep : keeps_hierarchy.

Lemma final_hierarchy (fuel : nat) (order : list string) (m0 m : Model) :
  constructed (schemas m0) →
  (∀ k, is_Some (schemas m0 !! k) → k ∈ order) →
  generate_each fuel order m0 = Done tt m →
  ∀ S s, schemas m !! S = Some s →
    (∀ e, e ∈ extends s ↔ ref_name e ∈ _extends s) ∧
    (∀ A, A ∈ schemata s ↔ ancestor (schemas m0) S (ref_name A)) ∧
    names s = set_map ref_name (schemata s) ∧
    (∀ D, D ∈ descendants s ↔
          D ≠ Ref S ∧ is_Some (schemas m0 !! ref_name D) ∧
          ancestor (schemas m0) (ref_name D) S).
Proof.
  intros Hc Hall Hrun S s Hs.
  assert (Hinv0 := constructed_hier_inv _ Hc).
  destruct (generate_each_closed Hkeep fuel order m0 m Hinv0 Hall Hrun)
    as (Hinv & Hg & Hcl).
  destruct (hierarchy_exact Hkeep fuel order m0 m Hc Hall Hrun S s Hs)
    as (Hdesc & _ & Hext).
  assert (Hce := closed_everywhere _ Hinv Hcl).
  destruct (Hce S s Hs) as (_ & Hanc & _).
  destruct (Hinv S s Hs) as (_ & _ & Hnames & _).
  split; [done|]. split; [|split; [done|]].
  - intros A. rewrite (Hanc A). symmetry. by apply ancestor_grows.
  - intros D. rewrite (Hdesc D). unfold schemata_of.
    rewrite (grows_is_Some _ _ (ref_name D) Hg), (ancestor_grows _ _ _ _ Hg).
    destruct (schemas m !! ref_name D) as [x|] eqn:Hx.
    + destruct (Hce (ref_name D) x Hx) as (_ & Hancx & _).
      rewrite (Hancx (Ref S)). simpl. naive_solver.
    + rewrite elem_of_empty. split; [naive_solver|].
      intros (_ & [? ?] & _). done.
Qed.

Lemma generate_each_cache fuel order m0 m :
  hier_inv (schemas m0) →
  outcome_state (generate_each fuel order m0) = Some m →
  ∀ k s0 s, schemas m0 !! k = Some s0 → schemas m !! k = Some s →
            _matchable_schemata s = _matchable_schemata s0.
Proof.
  intros Hinv Hst.
  set (I := λ r : gmap string Schema,
              ∀ k s0 s, schemas m0 !! k = Some s0 → r !! k = Some s →
                        _matchable_schemata s = _matchable_schemata s0).
  assert (∀ r r', skeleton <$> r = skeleton <$> r' → I r → I r') as Hsk.
  { intros r r' Heq HI k s0 s' Hs0 Hs'.
    destruct (skeleton_lookup _ _ _ _ Heq Hs') as (s & Hs & Hss).
    rewrite <- (HI k s0 s Hs0 Hs).
    exact (eq_sym (f_equal _matchable_schemata Hss)). }
  assert (∀ self e r, hier_inv r → parent_of r self e → I r →
                      I (inherit self e r)) as Hinh.
  { intros self e r _ (_ & _ & _ & [p Hp]) HI k s0 s' Hs0 Hs'.
    rewrite (inherit_lookup _ _ _ p _ Hp) in Hs'.
    destruct (r !! k) as [s|] eqn:Hs; [|done]. simpl in Hs'.
    injection Hs' as <-. rewrite after_inherit_cache. by apply (HI k). }
  apply (for_each_inv (λ m1, hier_inv (schemas m1) ∧ I (schemas m1))
           (generate fuel) order) with (m := m0); [| |done].
  - intros k m1 m2 _ [Hinv1 HI1] Hk. split.
    + by destruct (generate_hier Hkeep fuel k m1 m2 Hinv1 Hk).
    + by apply (generate_preserves Hkeep I Hsk Hinh fuel k m1 m2).
  - split; [done|]. intros k s0 s Hs0 Hs. congruence.
Qed.

(** X13. The order of the [generate()] calls does not show in the
    hierarchy: two runs that generate every schema of the same freshly
    constructed registry, in any two orders and with any repetition, end with
    the same [extends], [schemata], [names] and [descendants] for every
    schema (with a [prop.generate()] that leaves those slots alone).  If
    [prop.generate()] changes no schema object at all, the two runs end with
    the same schema objects, properties included. *)
Theorem generate_order_irrelevant (fuel1 fuel2 : nat) (order1 order2 : list string)
    (m0 m1 m2 : Model) :
  constructed (schemas m0) →
  (∀ k, is_Some (schemas m0 !! k) → k ∈ order1) →
  (∀ k, is_Some (schemas m0 !! k) → k ∈ order2) →
  generate_each fuel1 order1 m0 = Done tt m1 →
  generate_each fuel2 order2 m0 = Done tt m2 →
  skeleton <$> schemas m1 = skeleton <$> schemas m2 ∧
  (keeps_schemas → schemas m1 = schemas m2).
Proof.
  intros Hc Hall1 Hall2 Hrun1 Hrun2.
  assert (Hinv0 := constructed_hier_inv _ Hc).
  destruct (generate_each_closed Hkeep fuel1 order1 m0 m1 Hinv0 Hall1 Hrun1)
    as (_ & Hg1 & _).
  destruct (generate_each_closed Hkeep fuel2 order2 m0 m2 Hinv0 Hall2 Hrun2)
    as (_ & Hg2 & _).
  assert (∀ k s1 s2, schemas m1 !! k = Some s1 → schemas m2 !! k = Some s2 →
            config s1 = config s2 ∧ extends s1 = extends s2 ∧
            schemata s1 = schemata s2 ∧ names s1 = names s2 ∧
            descendants s1 = descendants s2 ∧
            _matchable_schemata s1 = _matchable_schemata s2) as Hslots.
  { intros k s1 s2 Hs1 Hs2.
    destruct (grows_lookup_inv _ _ _ _ Hg1 Hs1) as (s0 & Hs0 & Hc1 & _).
    destruct (grows_lookup_inv _ _ _ _ Hg2 Hs2) as (s0' & Hs0' & Hc2 & _).
    rewrite Hs0 in Hs0'. injection Hs0' as <-.
    destruct (final_hierarchy fuel1 order1 m0 m1 Hc Hall1 Hrun1 k s1 Hs1)
      as (Hx1 & Hsch1 & Hn1 & Hd1).
    destruct (final_hierarchy fuel2 order2 m0 m2 Hc Hall2 Hrun2 k s2 Hs2)
      as (Hx2 & Hsch2 & Hn2 & Hd2).
    assert (schemata s1 = schemata s2) as Hsch.
    { apply set_eq. intros A. by rewrite Hsch1, Hsch2. }
    split_and!.
    - by rewrite <- Hc1, <- Hc2.
    - apply set_eq. intros e. rewrite Hx1, Hx2.
      by rewrite <- (config_extends _ _ Hc1), <- (config_extends _ _ Hc2).
    - done.
    - by rewrite Hn1, Hn2, Hsch.
    - apply set_eq. intros D. by rewrite Hd1, Hd2.
    - transitivity (_matchable_schemata s0).
      + apply (generate_each_cache fuel1 order1 m0 m1 Hinv0) with (k := k);
          [by rewrite Hrun1|done|done].
      + symmetry.
        apply (generate_each_cache fuel2 order2 m0 m2 Hinv0) with (k := k);
          [by rewrite Hrun2|done|done]. }
  assert (∀ k, is_Some (schemas m1 !! k) ↔ is_Some (schemas m2 !! k)) as Hdom.
  { intros k. by rewrite <- (grows_is_Some _ _ k Hg1), <- (grows_is_Some _ _ k Hg2). }
  split.
  - apply map_eq. intros k. rewrite !lookup_fmap.
    destruct (schemas m1 !! k) as [s1|] eqn:Hs1;
      destruct (schemas m2 !! k) as [s2|] eqn:Hs2; simpl.
    + f_equal. destruct (Hslots k s1 s2 Hs1 Hs2) as (? & ? & ? & ? & ? & ?).
      by apply schema_ext.
    + assert (is_Some (schemas m2 !! k)) as [? ?]
        by (apply Hdom; by eexists). congruence.
    + assert (is_Some (schemas m1 !! k)) as [? ?]
        by (apply Hdom; by eexists). congruence.
    + done.
  - intros Hframe.
    assert (steady (schemas m0) (schemas m1)) as [He1 _]
      by (apply (generate_each_steady Hframe fuel1 order1); by rewrite Hrun1).
    assert (steady (schemas m0) (schemas m2)) as [He2 _]
      by (apply (generate_each_steady Hframe fuel2 order2); by rewrite Hrun2).
    assert (Hres1 := generate_each_resolved Hframe fuel1 order1 m0 m1 Hall1 Hrun1).
    assert (Hres2 := generate_each_resolved Hframe fuel2 order2 m0 m2 Hall2 Hrun2).
    assert (Hnt := generate_each_not_tall Hkeep fuel1 order1 m0 m1 Hinv0 Hrun1).
    apply map_eq. intros k.
    destruct (schemas m1 !! k) as [s1|] eqn:Hs1;
      destruct (schemas m2 !! k) as [s2|] eqn:Hs2.
    + f_equal. destruct (Hslots k s1 s2 Hs1 Hs2) as (? & ? & ? & ? & ? & ?).
      apply schema_ext; try done.
      rewrite <- (props_at_lookup _ _ _ Hs1), <- (props_at_lookup _ _ _ Hs2).
      apply (resolved_unique (schemas m0) _ _ He1 He2 Hres1 Hres2 fuel1).
      apply Hnt. apply Hall1. apply (grows_is_Some _ _ _ Hg1). by eexists.
    + assert (is_Some (schemas m2 !! k)) as [? ?]
        by (apply Hdom; by eexists). congruence.
    + assert (is_Some (schemas m1 !! k)) as [? ?]
        by (apply Hdom; by eexists). congruence.
    + done.
Qed.

End Independence.

Section Origin.

Lemma props_at_registered r k n : is_Some (props_at r k !! n) → is_Some (r !! k).
Proof.
  unfold props_at. destruct (r !! k); [by eexists|].
  rewrite lookup_empty. by intros [? ?].
Qed.

Lemma resolved_origin r0 r :
  evolves r0 r → (∀ z, resolved_from r0 r z) →
  ∀ k z, ¬ tall k r0 z →
    ∀ n l, props_at r z !! n = Some l →
           ∃ A, ancestor r0 z A ∧ props_at r0 A !! n = Some l.
Proof.
  intros Hev Hres k. induction k as [|k IH]; intros z Hz n l Hl.
  - destruct Hz. simpl. apply (evolves_is_Some _ _ _ Hev).
    apply (props_at_registered _ _ n). by eexists.
  - assert (is_Some (r !! z)) as [s Hs]
      by (apply (props_at_registered _ _ n); by eexists).
    destruct (evolves_lookup_inv _ _ _ _ Hev Hs) as (s0 & Hs0 & Hc & _).
    rewrite (props_at_lookup _ _ _ Hs) in Hl.
    destruct (Hres z s Hs) as [_ Hprops]. rewrite Hprops, merge_all_lookup in Hl.
    destruct (props_at r0 z !! n) as [l'|] eqn:Hown.
    + injection Hl as <-. exists z. split; [apply rtc_refl|done].
    + apply inherited_from_Some in Hl as (e & He & Hl).
      assert (parent_of r0 z e) as Hpar.
      { exists s0. split; [done|]. split; [by rewrite (config_extends _ _ Hc)|].
        apply (evolves_is_Some _ _ _ Hev).
        apply (props_at_registered _ _ n). by eexists. }
      destruct (IH e) with (n := n) (l := l) as (A & HA & HlA); [|done|].
      * intros Ht. apply Hz. by exists e.
      * exists A. split; [by eapply rtc_l|done].
Qed.

Lemma resolved_reaches r0 r :
  evolves r0 r → (∀ z, resolved_from r0 r z) →
  ∀ z A n, ancestor r0 z A → is_Some (props_at r0 A !! n) →
           is_Some (props_at r z !! n).
Proof.
  intros Hev Hres z A n Hanc. induction Hanc as [z|z e A Hpar _ IH]; intros Hn.
  - assert (is_Some (r0 !! z)) as [s0 Hs0] by by apply (props_at_registered _ _ n).
    destruct (evolves_lookup _ _ _ _ Hev Hs0) as (s & Hs & _ & Hsub & _).
    rewrite (props_at_lookup _ _ _ Hs0) in Hn.
    rewrite (props_at_lookup _ _ _ Hs). destruct Hn as [l Hl].
    exists l. by apply (lookup_weaken _ _ _ _ Hl Hsub).
  - specialize (IH Hn). destruct Hpar as (s0 & Hs0 & He & _).
    destruct (evolves_lookup _ _ _ _ Hev Hs0) as (s & Hs & Hc & _).
    rewrite (props_at_lookup _ _ _ Hs).
    destruct (Hres z s Hs) as [_ ->]. rewrite merge_all_lookup.
    destruct (props_at r0 z !! n); [by eexists|].
    apply (inherited_from_is_Some _ _ e); [|done].
    by rewrite <- (config_extends _ _ Hc).
Qed.

End Origin.

Section Inherited.
Context `{ext : Collaborators}.
Hypothesis Hadd : only_adds.

Lemma props_at_evolves r r' k n :
  evolves r r' → is_Some (props_at r k !! n) → is_Some (props_at r' k !! n).
Proof.
  intros Hev [l Hl]. unfold props_at in *.
  destruct (r !! k) as [s|] eqn:Hs; [|by rewrite lookup_empty in Hl].
  destruct (evolves_lookup _ _ _ _ Hev Hs) as (s' & -> & _ & Hsub & _).
  exists l. by apply (lookup_weaken _ _ _ _ Hl Hsub).
Qed.

Lemma generate_reaches (r0 : gmap string Schema) fuel : ∀ self m m',
  evolves r0 (schemas m) →
  generate fuel self m = Done tt m' →
  ∀ A n, ancestor r0 self A → is_Some (props_at r0 A !! n) →
         is_Some (props_at (schemas m') self !! n).
Proof.
  induction fuel as [|fuel IH]; intros self m m' Hev0 Hrun A n HA Hn; [done|].
  assert (evolves (schemas m) (schemas m')) as Hev
    by (apply (generate_evolves Hadd (S fuel) self); by rewrite Hrun).
  destruct (ancestor_inv _ _ _ HA) as [<-|(e & (s0 & Hs0 & He & Hreg) & Hrest)].
  { apply (props_at_evolves r0); [by eapply evolves_trans|done]. }
  destruct (evolves_lookup _ _ _ _ Hev0 Hs0) as (s & Hself & Hc & _).
  rewrite (generate_unfold _ _ _ s Hself) in Hrun.
  apply seq_done in Hrun as (m1 & Hparents & Hrest').
  assert (evolves (schemas m1) (schemas m')) as Hev1
    by (apply (rest_evolves Hadd self s); by rewrite Hrest').
  destruct (for_each_done
              (λ m1, evolves r0 (schemas m1))
              (λ e m1, ∀ A n, ancestor r0 e A → is_Some (props_at r0 A !! n) →
                              is_Some (props_at (schemas m1) self !! n))
              (generate_parent (generate fuel) self) (_extends s))
    with (m := m) (m' := m1) as (_ & Hall & _); [|done|done|].
  { intros e' m2 m2' He' Hev2 Hbody.
    apply generate_parent_done in Hbody as (p & mg & Hp & Hgen & ->).
    assert (evolves (schemas m2) (schemas mg)) as Hevg
      by (apply (generate_evolves Hadd fuel e'); by rewrite Hgen).
    assert (evolves (schemas mg) (inherit self e' (schemas mg))) as Hevi
      by apply inherit_evolves.
    split; [by do 2 (eapply evolves_trans; [|done])|]. split.
    - intros A' n' HA' Hn'. simpl.
      destruct (inherit_merged self e' (schemas mg))
        as (s' & p' & Hs' & Hp' & Hdom & _).
      { apply (evolves_is_Some _ _ _ Hevg), (evolves_is_Some _ _ _ Hev2).
        by eexists. }
      { apply (evolves_is_Some _ _ _ Hevg). by eexists. }
      rewrite (props_at_lookup _ _ _ Hs').
      apply elem_of_dom, Hdom, elem_of_dom.
      rewrite <- (props_at_lookup _ _ _ Hp').
      apply (props_at_evolves (schemas mg)); [done|].
      by apply (IH e' m2 mg Hev2 Hgen A' n').
    - intros y Hy A' n' HA' Hn'. simpl.
      apply (props_at_evolves (schemas m2)); [by eapply evolves_trans|].
      by apply (Hy A' n'). }
  apply (props_at_evolves (schemas m1)); [done|].
  assert (e ∈ _extends s) as Hin by by rewrite <- (config_extends _ _ Hc).
  exact (Hall e Hin A n Hrest Hn).
Qed.

(** X14. After [generate()] has returned for every schema of a
    registry (with a [prop.generate()] that only adds to the schema objects),
    every property name that an ancestor of [S], or [S] itself, had at the
    start is a property name of [S].  If [prop.generate()] changes no schema
    object, the converse holds as well: every property object of [S] is one
    that [S] or one of its ancestors had at the start, under the same
    name. *)
Theorem inherited_properties_origin (fuel : nat) (order : list string)
    (m0 m : Model) :
  (∀ k, is_Some (schemas m0 !! k) → k ∈ order) →
  generate_each fuel order m0 = Done tt m →
  ∀ S n,
    ((∃ A, ancestor (schemas m0) S A ∧ is_Some (props_at (schemas m0) A !! n)) →
     is_Some (props_at (schemas m) S !! n)) ∧
    (keeps_schemas →
     ∀ l, props_at (schemas m) S !! n = Some l →
          ∃ A, ancestor (schemas m0) S A ∧ props_at (schemas m0) A !! n = Some l).
Proof.
  intros Hall Hrun S n. split.
  - intros (A & HA & Hn).
    assert (is_Some (schemas m0 !! S)) as Hreg.
    { destruct (ancestor_inv _ _ _ HA) as [<-|(e & (s & Hs & _) & _)];
        [|by eexists].
      unfold props_at in Hn. destruct (schemas m0 !! S); [by eexists|].
      rewrite lookup_empty in Hn. by destruct Hn. }
    destruct (for_each_done
                (λ m1, evolves (schemas m0) (schemas m1))
                (λ k m1, ∀ A n, ancestor (schemas m0) k A →
                                is_Some (props_at (schemas m0) A !! n) →
                                is_Some (props_at (schemas m1) k !! n))
                (generate fuel) order) with (m := m0) (m' := m)
      as (_ & Hreach & _); [|apply evolves_refl|done|].
    { intros k m1 m2 _ Hev1 Hgen.
      assert (evolves (schemas m1) (schemas m2)) as Hev2
        by (apply (generate_evolves Hadd fuel k); by rewrite Hgen).
      split; [by eapply evolves_trans|]. split.
      - by apply (generate_reaches (schemas m0) fuel k m1 m2).
      - intros y Hy A' n' HA' Hn'.
        apply (props_at_evolves (schemas m1)); [done|]. by apply (Hy A' n'). }
    exact (Hreach S (Hall S Hreg) A n HA Hn).
  - intros Hframe l Hl.
    assert (steady (schemas m0) (schemas m)) as [Hev _]
      by (apply (generate_each_steady Hframe fuel order); by rewrite Hrun).
    assert (Hres := generate_each_resolved Hframe fuel order m0 m Hall Hrun).
    assert (Hnt := generate_each_not_tall_frame Hframe fuel order m0 m Hrun).
    apply (resolved_origin _ _ Hev Hres fuel); [|done].
    apply Hnt, Hall. apply (evolves_is_Some _ _ _ Hev).
    apply (props_at_registered _ _ n). by eexists.
Qed.

End Inherited.

Section Sorting.

Lemma insert_by_perm {A} (lt : A → A → bool) x l : insert_by lt x l ≡ₚ x :: l.
Proof.
  induction l as [|y l IH]; [done|]. simpl. destruct (lt y x); [|done].
  rewrite IH. apply Permutation_swap.
Qed.

Lemma py_sorted_perm {A} (lt : A → A → bool) l : py_sorted lt l ≡ₚ l.
Proof.
  induction l as [|x l IH]; [done|]. unfold py_sorted in *. simpl.
  by rewrite insert_by_perm, IH.
Qed.

Lemma insert_by_sorted {A} (lt : A → A → bool) x l :
  (∀ a b, lt a b = true → lt b a = false) →
  (∀ a b c, lt b a = false → lt c b = false → lt c a = false) →
  StronglySorted (λ a b, lt b a = false) l →
  StronglySorted (λ a b, lt b a = false) (insert_by lt x l).
Proof.
  intros Hasym Htrans. induction 1 as [|y l Hl IH Hy]; simpl.
  - constructor; [constructor|done].
  - destruct (lt y x) eqn:E.
    + constructor; [done|].
      rewrite (insert_by_perm lt x l). constructor; [by apply Hasym|done].
    + constructor; [by constructor|]. constructor; [done|].
      rewrite Forall_forall in Hy |- *. intros z Hz.
      by apply (Htrans _ y); [|apply Hy].
Qed.

Lemma py_sorted_sorted {A} (lt : A → A → bool) l :
  (∀ a b, lt a b = true → lt b a = false) →
  (∀ a b c, lt b a = false → lt c b = false → lt c a = false) →
  StronglySorted (λ a b, lt b a = false) (py_sorted lt l).
Proof.
  intros Hasym Htrans. induction l as [|x l IH]; [constructor|].
  unfold py_sorted in *. simpl. by apply insert_by_sorted.
Qed.

Lemma insert_by_stable {A B} `{EqDecision B} (key : A → B) (lt : A → A → bool)
    (k : B) x l :
  (∀ a b, key a = key b → lt a b = false) →
  filter (λ a, key a = k) (insert_by lt x l) = filter (λ a, key a = k) (x :: l).
Proof.
  intros Hirr. induction l as [|y l IH]; [done|]. simpl.
  destruct (lt y x) eqn:E; [|done].
  rewrite filter_cons, IH, !filter_cons.
  destruct (decide (key y = k)) as [Hy|Hy];
    destruct (decide (key x = k)) as [Hx|Hx]; try done.
  rewrite (Hirr y x) in E; [done|congruence].
Qed.

Lemma py_sorted_stable {A B} `{EqDecision B} (key : A → B) (lt : A → A → bool)
    (k : B) l :
  (∀ a b, key a = key b → lt a b = false) →
  filter (λ a, key a = k) (py_sorted lt l) = filter (λ a, key a = k) l.
Proof.
  intros Hirr. induction l as [|x l IH]; [done|].
  unfold py_sorted in *. simpl. rewrite insert_by_stable by done.
  by rewrite !filter_cons, IH.
Qed.

Lemma string_ltb_lt a b : String.ltb a b = true ↔ String.compare a b = Lt.
Proof. unfold String.ltb. by destruct (String.compare a b). Qed.

Lemma string_ltb_false a b : String.ltb b a = false ↔ string_le a b.
Proof.
  unfold string_le. rewrite Is_true_true. unfold String.ltb, String.leb.
  rewrite (String.compare_antisym a b).
  by destruct (String.compare b a).
Qed.

Lemma key_ltb_false k1 k2 :
  key_ltb k2 k1 = false ↔
  let '(a1, b1, l1) := k1 in
  let '(a2, b2, l2) := k2 in
  bool_ltb a1 a2 = true ∨
  (a1 = a2 ∧ (bool_ltb b1 b2 = true ∨ (b1 = b2 ∧ string_le l1 l2))).
Proof.
  destruct k1 as [[a1 b1] l1], k2 as [[a2 b2] l2]. simpl.
  rewrite <- string_ltb_false.
  destruct a1, a2, b1, b2; simpl; naive_solver.
Qed.

Lemma key_ltb_asym k1 k2 : key_ltb k1 k2 = true → key_ltb k2 k1 = false.
Proof.
  rewrite key_ltb_false.
  destruct k1 as [[a1 b1] l1], k2 as [[a2 b2] l2]. simpl.
  destruct a1, a2, b1, b2; simpl; try naive_solver.
  all: rewrite string_ltb_lt; intros Hlt; right; split; [done|]; right;
    split; [done|]; unfold string_le; rewrite Is_true_true;
    apply string_leb_cases; by right.
Qed.

Lemma key_le_trans k1 k2 k3 :
  key_ltb k2 k1 = false → key_ltb k3 k2 = false → key_ltb k3 k1 = false.
Proof.
  rewrite !key_ltb_false.
  destruct k1 as [[a1 b1] l1], k2 as [[a2 b2] l2], k3 as [[a3 b3] l3].
  destruct a1, a2, a3, b1, b2, b3; simpl; try naive_solver.
  all: intros [?|[_ [?|[_ H1]]]] [?|[_ [?|[_ H2]]]]; try done;
    right; split; [done|]; right; split; [done|]; by eapply string_le_trans.
Qed.

Lemma key_ltb_irrefl k : key_ltb k k = false.
Proof.
  apply key_ltb_false. destruct k as [[a b] l].
  right. split; [done|]. right. split; [done|].
  unfold string_le. rewrite Is_true_true. apply string_leb_cases. by left.
Qed.

End Sorting.

Section Shown.
Variable Property_label : Property → string.

(** X15. [sorted_properties] returns the given properties, all of
    them and each as often as given, ordered like this: caption properties
    first, among those with the same caption status the featured ones first,
    and among those with the same caption and featured status by ascending
    label; properties with the same key keep the order in which they were
    given. *)
Theorem sorted_properties_order (s : Schema) (values : list Property) :
  let shown := sorted_properties Property_label s values in
  shown ≡ₚ values ∧
  (∀ before p between q after,
     shown = before ++ p :: between ++ q :: after →
     (prop_name q ∈ caption s → prop_name p ∈ caption s) ∧
     ((prop_name p ∈ caption s ↔ prop_name q ∈ caption s) →
      (prop_name q ∈ featured s → prop_name p ∈ featured s) ∧
      ((prop_name p ∈ featured s ↔ prop_name q ∈ featured s) →
       string_le (Property_label p) (Property_label q)))) ∧
  (∀ k, filter (λ p, sort_key Property_label s p = k) shown
        = filter (λ p, sort_key Property_label s p = k) values).
Proof.
  intros shown. split; [apply py_sorted_perm|]. split.
  - intros before p between q after Hshown.
    assert (StronglySorted
              (λ a b, key_ltb (sort_key Property_label s b)
                              (sort_key Property_label s a) = false) shown)
      as Hsorted.
    { apply (py_sorted_sorted
               (λ a b, key_ltb (sort_key Property_label s a)
                               (sort_key Property_label s b))).
      - intros a b. apply key_ltb_asym.
      - intros a b c. apply key_le_trans. }
    rewrite Hshown in Hsorted.
    apply StronglySorted_app_1_r in Hsorted.
    apply StronglySorted_inv in Hsorted as [_ Hp].
    rewrite Forall_forall in Hp.
    assert (q ∈ between ++ q :: after) as Hq by set_solver.
    specialize (Hp q Hq). apply key_ltb_false in Hp. unfold sort_key in Hp.
    unfold bool_ltb in Hp.
    repeat case_bool_decide; simpl in Hp; naive_solver.
  - intros k. apply py_sorted_stable. intros a b Heq. rewrite Heq.
    apply key_ltb_irrefl.
Qed.

End Shown.

Section Late.
Context `{ext : Collaborators}.

Lemma _add_reverse_has (self : string) (data : ReverseSpec) (other : Property)
    (m m' : Model) (prop : loc) (n : string) :
  _add_reverse self data other m = Done prop m' →
  rev_name data = Some n →
  is_Some (schemas m' !! self) →
  props_at (schemas m') self !! n = Some prop.
Proof.
  intros Hrun Hname [s' Hs']. unfold _add_reverse in Hrun. rewrite Hname in Hrun.
  destruct (properties_of m self !! n) as [l|] eqn:El.
  - by injection Hrun as <- <-.
  - unfold call_Property_generate in Hrun.
    destruct (Property_generate _ _) as [m2 [e|]]; [done|]. simpl in Hrun.
    injection Hrun as <- <-.
    unfold props_at. rewrite Hs'.
    unfold update in Hs'. simpl in Hs'. rewrite lookup_alter_eq in Hs'.
    destruct (schemas m2 !! self) as [s2|]; [|done]. simpl in Hs'.
    injection Hs' as <-. simpl. by rewrite lookup_insert_eq.
Qed.

(** X16. A reverse stub added to a parent after the children were
    generated reaches a child at the child's next [generate()]: with a
    [prop.generate()] that only adds to the schema objects, the parent has
    the stub under the reverse name when [_add_reverse] returns and after the
    child's [generate()], and the child then has a property of that name.  If
    [prop.generate()] changes no schema object, the parent is the child's
    first parent and the child did not declare the name, the child's
    property is the parent's stub itself. *)
Theorem reverse_stub_reaches_children (fuel : nat) (parent child n : string)
    (data : ReverseSpec) (other : Property) (m m1 m2 : Model) (prop : loc)
    (c : Schema) :
  only_adds →
  _add_reverse parent data other m = Done prop m1 →
  rev_name data = Some n →
  is_Some (schemas m1 !! parent) →
  schemas m1 !! child = Some c → parent ∈ _extends c →
  generate fuel child m1 = Done tt m2 →
  props_at (schemas m1) parent !! n = Some prop ∧
  props_at (schemas m2) parent !! n = Some prop ∧
  is_Some (props_at (schemas m2) child !! n) ∧
  (keeps_schemas →
   ∀ rest, _extends c = parent :: rest → properties c !! n = None →
           props_at (schemas m2) child !! n = Some prop).
Proof.
  intros Hadd Hrev Hname Hreg Hc Hin Hgen.
  assert (Hhas := _add_reverse_has parent data other m m1 prop n Hrev Hname Hreg).
  assert (evolves (schemas m1) (schemas m2)) as Hev
    by (apply (generate_evolves Hadd fuel child); by rewrite Hgen).
  assert (props_at (schemas m2) parent !! n = Some prop) as Hparent.
  { destruct Hreg as [p1 Hp1].
    destruct (evolves_lookup _ _ _ _ Hev Hp1) as (p2 & Hp2 & _ & Hsub & _).
    rewrite (props_at_lookup _ _ _ Hp2).
    apply (lookup_weaken (properties p1)); [|done].
    by rewrite <- (props_at_lookup _ _ _ Hp1). }
  split; [done|]. split; [done|]. split.
  - destruct (parents_reach_child Hadd fuel child m1 m2 c Hgen Hc) as [Hreach _].
    apply (Hreach parent n Hin). by eexists.
  - intros Hframe rest Hext Hnone.
    pose proof (generate_merge Hframe fuel child c m1 m2 Hc Hgen) as Hmerge.
    rewrite Hmerge, merge_all_lookup, Hnone, Hext. simpl. by rewrite Hparent.
Qed.

Hypothesis Hkeep : keeps_hierarchy.

(** X17. After [generate()] has returned for every schema of a
    registry of freshly constructed schemata (with a [prop.generate()] that
    leaves the hierarchy slots alone), and before [A]'s matchable set is
    computed, [A.can_match(B)] holds exactly when both schemata are matchable
    and one of them is the other or an ancestor of the other. *)
Theorem can_match_iff_related (fuel : nat) (order : list string) (m0 m : Model)
    (A B : string) (sa sb : Schema) :
  constructed (schemas m0) →
  (∀ k, is_Some (schemas m0 !! k) → k ∈ order) →
  generate_each fuel order m0 = Done tt m →
  schemas m !! A = Some sa → schemas m !! B = Some sb →
  _matchable_schemata sa = None →
  fst (can_match A (Ref B) m) = true ↔
  matchable sa = true ∧ matchable sb = true ∧
  (ancestor (schemas m0) A B ∨ ancestor (schemas m0) B A).
Proof.
  intros Hc Hall Hrun Ha Hb Hca.
  destruct (final_hierarchy Hkeep fuel order m0 m Hc Hall Hrun A sa Ha)
    as (_ & Hsch & _ & Hdesc).
  destruct (generate_each_closed Hkeep fuel order m0 m
              (constructed_hier_inv _ Hc) Hall Hrun) as (_ & Hg & _).
  assert (is_Some (schemas m0 !! B)) as HregB
    by (apply (grows_is_Some _ _ _ Hg); by eexists).
  unfold can_match. simpl. rewrite bool_decide_eq_true.
  rewrite (fresh_matchable_schemata m A sa) by done.
  rewrite (Hsch (Ref B)), (Hdesc (Ref B)). simpl.
  assert (is_matchable m (Ref B) = matchable sb) as ->
    by (unfold is_matchable; simpl; by rewrite Hb).
  split.
  - intros (? & [?|(_ & _ & ?)] & ?); split_and!; auto.
  - intros (? & ? & [?|Hanc]); split_and!; try done; [by left|].
    destruct (decide (B = A)) as [->|Hne]; [by left|].
    right. split_and!; [congruence|done|done].
Qed.

End Late.

(** * Instances of the further properties on the concrete model *)

Lemma demo_constructed : constructed (schemas Example.constructed).
Proof.
  change (map_Forall (λ k s, name s = k ∧ extends s = ∅ ∧ schemata s = {[Ref k]}
                               ∧ names s = {[k]} ∧ descendants s = ∅)
                    (schemas Example.constructed)).
  apply (bool_decide_unpack _). vm_compute. exact I.
Defined.

Lemma demo_order_covers (order : list string) :
  map_Forall (λ k _, k ∈ order) (schemas Example.constructed) →
  ∀ k, is_Some (schemas Example.constructed !! k) → k ∈ order.
Proof. intros Hall k [s Hs]. exact (Hall k s Hs). Defined.

Lemma demo_order : ∀ k, is_Some (schemas Example.constructed !! k) →
                        k ∈ Scenario.order.
Proof.
  apply demo_order_covers. apply (bool_decide_unpack _). vm_compute. exact I.
Defined.

Lemma demo_other_order : ∀ k, is_Some (schemas Example.constructed !! k) →
                              k ∈ Scenario.other_order.
Proof.
  apply demo_order_covers. apply (bool_decide_unpack _). vm_compute. exact I.
Defined.

Lemma demo_generated :
  generate_each (ext := Example.demo) 3 Scenario.order Example.constructed
  = Done tt Example.generated_model.
Proof. vm_compute. reflexivity. Defined.

Lemma demo_company_generated :
  generate (ext := Example.demo) 3 "Company" Example.constructed
  = Done tt Example.company_generated.
Proof. vm_compute. reflexivity. Defined.

Lemma demo_parent_of :
  parent_of (schemas Example.constructed) "Company" "LegalEntity".
Proof.
  exists Scenario.company_constructed.
  split; [vm_compute; reflexivity|]. split; [vm_compute; left|].
  vm_compute. eexists. reflexivity.
Defined.

Lemma demo_grandparent_of :
  parent_of (schemas Example.constructed) "LegalEntity" "Thing".
Proof.
  exists (Example.schema_at Example.constructed "LegalEntity").
  split; [vm_compute; reflexivity|]. split; [vm_compute; left|].
  vm_compute. eexists. reflexivity.
Defined.

Lemma demo_only_adds : @only_adds Example.demo.
Proof. intros l m. apply evolves_refl. Defined.

(** X3 with a [prop.generate()] that adds reverse stubs: [Note.generate()]
    leaves [Thing] with its configuration and its property [name]. *)
Lemma generate_only_adds_witness :
  @only_adds Linked.linked ∧
  outcome_state (generate (ext := Linked.linked) 3 "Note" Linked.notes_model)
  = Some Linked.once ∧
  schemas Linked.notes_model !! "Thing" = Some Example.thing ∧
  ∃ s', schemas Linked.once !! "Thing" = Some s' ∧
        config s' = config Example.thing ∧
        properties s' !! "name" = Some 1%positive.
Proof.
  assert (outcome_state (generate (ext := Linked.linked) 3 "Note"
                           Linked.notes_model) = Some Linked.once) as Hst
    by (vm_compute; reflexivity).
  assert (schemas Linked.notes_model !! "Thing" = Some Example.thing) as Hs
    by (vm_compute; reflexivity).
  split; [exact linked_only_adds|]. split; [exact Hst|]. split; [exact Hs|].
  destruct (generate_only_adds (ext := Linked.linked) linked_only_adds 3
              "Note" Linked.notes_model Linked.once Hst) as [_ Hall].
  destruct (Hall "Thing" Example.thing Hs) as (s' & Hs' & Hc & _ & Hp & _).
  exists s'. split; [exact Hs'|]. split; [exact Hc|].
  apply Hp. vm_compute. reflexivity.
Defined.

(** X4 on the concrete model: [Company.matchable_schemata], read before the
    schema is generated, is [{Company}] and stays so after
    [Company.generate()]. *)
Lemma matchable_schemata_survives_generate_witness :
  @only_adds Example.demo ∧
  is_Some (schemas Example.constructed !! "Company") ∧
  matchable_schemata "Company" Example.constructed
  = (Scenario.early_set, Scenario.early_access) ∧
  outcome_state (generate (ext := Example.demo) 3 "Company" Scenario.early_access)
  = Some Scenario.generated_late ∧
  matchable_schemata "Company" Scenario.generated_late
  = (Scenario.early_set, Scenario.generated_late).
Proof.
  assert (is_Some (schemas Example.constructed !! "Company")) as Hreg
    by (vm_compute; eexists; reflexivity).
  assert (matchable_schemata "Company" Example.constructed
          = (Scenario.early_set, Scenario.early_access)) as Hfirst
    by apply surjective_pairing.
  assert (outcome_state (generate (ext := Example.demo) 3 "Company"
                           Scenario.early_access)
          = Some Scenario.generated_late) as Hst by (vm_compute; reflexivity).
  split; [exact demo_only_adds|]. split; [exact Hreg|].
  split; [exact Hfirst|]. split; [exact Hst|].
  exact (matchable_schemata_survives_generate (ext := Example.demo)
           demo_only_adds 3 "Company" "Company" Example.constructed
           Scenario.early_access Scenario.generated_late Scenario.early_set
           Hreg Hfirst Hst).
Defined.

(** X5 on the concrete model: [Company] matches [Thing] as [Thing] matches
    [Company]. *)
Lemma can_match_symmetric_witness :
  @keeps_hierarchy Example.demo ∧
  constructed (schemas Example.constructed) ∧
  outcome_state (generate_each (ext := Example.demo) 3 Scenario.order
                   Example.constructed) = Some Example.generated_model ∧
  schemas Example.generated_model !! "Company" = Some Example.company ∧
  schemas Example.generated_model !! "Thing" = Some Scenario.thing ∧
  _matchable_schemata Example.company = None ∧
  _matchable_schemata Scenario.thing = None ∧
  fst (can_match "Company" (Ref "Thing") Example.generated_model)
  = fst (can_match "Thing" (Ref "Company") Example.generated_model).
Proof.
  assert (outcome_state (generate_each (ext := Example.demo) 3 Scenario.order
                           Example.constructed) = Some Example.generated_model)
    as Hst by (vm_compute; reflexivity).
  assert (schemas Example.generated_model !! "Company" = Some Example.company)
    as Ha by (vm_compute; reflexivity).
  assert (schemas Example.generated_model !! "Thing" = Some Scenario.thing)
    as Hb by (vm_compute; reflexivity).
  assert (_matchable_schemata Example.company = None) as Hca
    by (vm_compute; reflexivity).
  assert (_matchable_schemata Scenario.thing = None) as Hcb
    by (vm_compute; reflexivity).
  split; [exact demo_keeps_hierarchy|]. split; [exact demo_constructed|].
  split; [exact Hst|]. split; [exact Ha|]. split; [exact Hb|].
  split; [exact Hca|]. split; [exact Hcb|].
  exact (proj1 (can_match_symmetric (ext := Example.demo) demo_keeps_hierarchy 3
                  Scenario.order Example.constructed Example.generated_model
                  "Company" "Thing" Example.company Scenario.thing
                  demo_constructed Hst Ha Hb Hca Hcb)).
Defined.

(** X6 on the concrete model: [Company.is_a("Thing")] holds. *)
Lemma is_a_iff_ancestor_witness :
  @keeps_hierarchy Example.demo ∧
  constructed (schemas Example.constructed) ∧
  generate_each (ext := Example.demo) 3 Scenario.order Example.constructed
  = Done tt Example.generated_model ∧
  schemas Example.generated_model !! "Company" = Some Example.company ∧
  (is_a Example.generated_model Example.company "Thing" = true ↔
   ancestor (schemas Example.generated_model) "Company" "Thing").
Proof.
  assert (schemas Example.generated_model !! "Company" = Some Example.company)
    as Ha by (vm_compute; reflexivity).
  split; [exact demo_keeps_hierarchy|]. split; [exact demo_constructed|].
  split; [exact demo_generated|]. split; [exact Ha|].
  destruct (is_a_iff_ancestor (ext := Example.demo) demo_keeps_hierarchy 3
              Scenario.order Example.constructed Example.generated_model
              demo_constructed demo_order demo_generated) as [Hiff _].
  exact (Hiff "Company" Example.company "Thing" Ha).
Defined.

(** X7 on the concrete model: a second request for the reverse property
    [subsidiaries] of [LegalEntity] gives the stub the first made. *)
Lemma _add_reverse_idempotent_witness :
  _add_reverse (ext := Example.demo) "LegalEntity" Scenario.subsidiaries
    Scenario.owner_property Example.generated_model
  = Done Scenario.stub Scenario.with_reverse ∧
  is_Some (schemas Scenario.with_reverse !! "LegalEntity") ∧
  _add_reverse (ext := Example.demo) "LegalEntity" Scenario.subsidiaries
    Scenario.owner_property Scenario.with_reverse
  = Done Scenario.stub Scenario.with_reverse.
Proof.
  assert (_add_reverse (ext := Example.demo) "LegalEntity" Scenario.subsidiaries
            Scenario.owner_property Example.generated_model
          = Done Scenario.stub Scenario.with_reverse) as Hrun
    by (vm_compute; reflexivity).
  assert (is_Some (schemas Scenario.with_reverse !! "LegalEntity")) as Hreg
    by (vm_compute; eexists; reflexivity).
  split; [exact Hrun|]. split; [exact Hreg|].
  exact (_add_reverse_idempotent (ext := Example.demo) "LegalEntity"
           Scenario.subsidiaries Scenario.owner_property Example.generated_model
           Scenario.with_reverse Scenario.stub Hrun Hreg
           Scenario.subsidiaries Scenario.owner_property eq_refl).
Defined.

(** X8 on the concrete model: adding [subsidiaries] to [LegalEntity] leaves
    [Company] as it is, and the stub is a new object. *)
Lemma _add_reverse_writes_one_entry_witness :
  (∀ m1, schemas m1 = schemas Example.generated_model →
         schemas (fst (Property_generate (Collaborators := Example.demo)
                         (fresh (dom (heap Example.generated_model))) m1))
         = schemas Example.generated_model) ∧
  _add_reverse (ext := Example.demo) "LegalEntity" Scenario.subsidiaries
    Scenario.owner_property Example.generated_model
  = Done Scenario.stub Scenario.with_reverse ∧
  schemas Example.generated_model !! "LegalEntity" = Some Scenario.legal_entity ∧
  schemas Scenario.with_reverse !! "Company"
  = schemas Example.generated_model !! "Company" ∧
  heap Example.generated_model !! Scenario.stub = None.
Proof.
  assert (∀ m1, schemas m1 = schemas Example.generated_model →
            schemas (fst (Property_generate (Collaborators := Example.demo)
                            (fresh (dom (heap Example.generated_model))) m1))
            = schemas Example.generated_model) as Hstub
    by (intros m1 H1; exact H1).
  assert (_add_reverse (ext := Example.demo) "LegalEntity" Scenario.subsidiaries
            Scenario.owner_property Example.generated_model
          = Done Scenario.stub Scenario.with_reverse) as Hrun
    by (vm_compute; reflexivity).
  assert (schemas Example.generated_model !! "LegalEntity"
          = Some Scenario.legal_entity) as Hs by (vm_compute; reflexivity).
  split; [exact Hstub|]. split; [exact Hrun|]. split; [exact Hs|].
  destruct (_add_reverse_writes_one_entry (ext := Example.demo)
              "LegalEntity" Scenario.subsidiaries
              Scenario.owner_property Example.generated_model Hstub)
    as [_ Hdone].
  destruct (Hdone Scenario.stub Scenario.with_reverse Scenario.legal_entity
              Hrun Hs)
    as (Hother & name_ & s' & Hname & _ & _ & _ & _ & Hfresh & _).
  split; [by apply Hother|].
  apply Hfresh. injection Hname as <-. vm_compute. reflexivity.
Defined.

(** X9 on the concrete model: [Company.validate] accepts the data, so no
    property object and no missing required value stands against it. *)
Lemma validate_accepts_iff_witness :
  schemas Example.generated_model !! "Company" = Some Example.company ∧
  fst (validate (ext := Example.demo) "Company" Scenario.list_data
         Example.generated_model)
  = Done None Example.generated_model ∧
  ∀ n l p, properties Example.company !! n = Some l →
           heap Example.generated_model !! l = Some p →
           Property_validate (Collaborators := Example.demo) p
             (values_for (ext := Example.demo)
                (ensure_dict (data_properties Scenario.list_data)) n) = None ∧
           ¬ (values_for (ext := Example.demo)
                (ensure_dict (data_properties Scenario.list_data)) n = []
              ∧ prop_name p ∈ required Example.company).
Proof.
  assert (schemas Example.generated_model !! "Company" = Some Example.company)
    as Hs by (vm_compute; reflexivity).
  assert (fst (validate (ext := Example.demo) "Company" Scenario.list_data
                 Example.generated_model)
          = Done None Example.generated_model) as Hrun
    by (vm_compute; reflexivity).
  split; [exact Hs|]. split; [exact Hrun|].
  exact (proj1 (validate_accepts_iff (ext := Example.demo) "Company"
                  Scenario.list_data Example.generated_model Example.company
                  Hs) Hrun).
Defined.

(** X10 on the concrete model: a single value validates as the list that
    holds it. *)
Lemma validate_reads_value_lists_witness :
  fst (validate (ext := Example.demo) "Company" Scenario.list_data
         Example.generated_model)
  = fst (validate (ext := Example.demo) "Company" Scenario.scalar_data
           Example.generated_model).
Proof.
  apply (validate_reads_value_lists (ext := Example.demo) "Company"
           Scenario.scalar_data Scenario.list_data Example.generated_model).
  intros n _. unfold values_for, Scenario.list_data, Scenario.scalar_data. simpl.
  destruct (decide (n = "name")) as [->|Hne].
  - rewrite !lookup_singleton_eq. reflexivity.
  - rewrite !lookup_singleton_ne by done. reflexivity.
Defined.

(** X12 on the concrete model: [Company] is a descendant of [Thing]. *)
Lemma descendants_exact_inverse_witness :
  @keeps_hierarchy Example.demo ∧
  constructed (schemas Example.constructed) ∧
  generate_each (ext := Example.demo) 3 Scenario.order Example.constructed
  = Done tt Example.generated_model ∧
  schemas Example.generated_model !! "Thing" = Some Scenario.thing ∧
  Ref "Company" ∈ descendants Scenario.thing ∧
  Ref "Thing" ∉ descendants Scenario.thing.
Proof.
  assert (schemas Example.generated_model !! "Thing" = Some Scenario.thing)
    as Hs by (vm_compute; reflexivity).
  split; [exact demo_keeps_hierarchy|]. split; [exact demo_constructed|].
  split; [exact demo_generated|]. split; [exact Hs|].
  destruct (descendants_exact_inverse (ext := Example.demo) demo_keeps_hierarchy 3
              Scenario.order Example.constructed Example.generated_model
              demo_constructed demo_order demo_generated "Thing" Scenario.thing Hs)
    as (Hdesc & _).
  split.
  - apply Hdesc. split; [discriminate|].
    apply (bool_decide_unpack _). vm_compute. exact I.
  - intros Hin. apply Hdesc in Hin as [Hne _]. by apply Hne.
Defined.

(** X13 on the concrete model: generating [Company] first gives the schema
    objects that generating [Thing] first gives. *)
Lemma generate_order_irrelevant_witness :
  @keeps_hierarchy Example.demo ∧
  constructed (schemas Example.constructed) ∧
  generate_each (ext := Example.demo) 3 Scenario.order Example.constructed
  = Done tt Example.generated_model ∧
  generate_each (ext := Example.demo) 3 Scenario.other_order Example.constructed
  = Done tt Scenario.generated_otherwise ∧
  schemas Example.generated_model = schemas Scenario.generated_otherwise.
Proof.
  assert (generate_each (ext := Example.demo) 3 Scenario.other_order
            Example.constructed = Done tt Scenario.generated_otherwise) as Hrun
    by (vm_compute; reflexivity).
  split; [exact demo_keeps_hierarchy|]. split; [exact demo_constructed|].
  split; [exact demo_generated|]. split; [exact Hrun|].
  exact (proj2 (generate_order_irrelevant (ext := Example.demo)
                  demo_keeps_hierarchy 3 3
                  Scenario.order Scenario.other_order Example.constructed
                  Example.generated_model Scenario.generated_otherwise
                  demo_constructed demo_order demo_other_order demo_generated
                  Hrun) demo_keeps_schemas).
Defined.

(** X14 on the concrete model: the property [name] that [Thing] declares is
    a property of [Company]. *)
Lemma inherited_properties_origin_witness :
  @only_adds Example.demo ∧
  generate_each (ext := Example.demo) 3 Scenario.order Example.constructed
  = Done tt Example.generated_model ∧
  is_Some (props_at (schemas Example.generated_model) "Company" !! "name").
Proof.
  split; [exact demo_only_adds|]. split; [exact demo_generated|].
  destruct (inherited_properties_origin (ext := Example.demo) demo_only_adds
              3 Scenario.order Example.constructed Example.generated_model
              demo_order demo_generated "Company" "name") as [Hreach _].
  apply Hreach. exists "Thing". split.
  - eapply rtc_l; [exact demo_parent_of|].
    eapply rtc_l; [exact demo_grandparent_of|]. apply rtc_refl.
  - vm_compute. eexists. reflexivity.
Defined.

(** X16 on the concrete model: after [LegalEntity] has got the reverse
    property [subsidiaries], [Company.generate()] gives it to [Company]. *)
Lemma reverse_stub_reaches_children_witness :
  @only_adds Example.demo ∧
  _add_reverse (ext := Example.demo) "LegalEntity" Scenario.subsidiaries
    Scenario.owner_property Example.generated_model
  = Done Scenario.stub Scenario.with_reverse ∧
  schemas Scenario.with_reverse !! "Company" = Some Scenario.company_before ∧
  properties Scenario.company_before !! "subsidiaries" = None ∧
  generate (ext := Example.demo) 3 "Company" Scenario.with_reverse
  = Done tt Scenario.regenerated ∧
  is_Some (props_at (schemas Scenario.regenerated) "Company" !! "subsidiaries").
Proof.
  assert (_add_reverse (ext := Example.demo) "LegalEntity" Scenario.subsidiaries
            Scenario.owner_property Example.generated_model
          = Done Scenario.stub Scenario.with_reverse) as Hrun
    by (vm_compute; reflexivity).
  assert (schemas Scenario.with_reverse !! "Company"
          = Some Scenario.company_before) as Hc by (vm_compute; reflexivity).
  assert (properties Scenario.company_before !! "subsidiaries" = None) as Hnone
    by (vm_compute; reflexivity).
  assert (generate (ext := Example.demo) 3 "Company" Scenario.with_reverse
          = Done tt Scenario.regenerated) as Hgen by (vm_compute; reflexivity).
  split; [exact demo_only_adds|]. split; [exact Hrun|]. split; [exact Hc|].
  split; [exact Hnone|]. split; [exact Hgen|].
  destruct (reverse_stub_reaches_children (ext := Example.demo) 3
              "LegalEntity" "Company" "subsidiaries"
              Scenario.subsidiaries Scenario.owner_property
              Example.generated_model Scenario.with_reverse Scenario.regenerated
              Scenario.stub Scenario.company_before demo_only_adds Hrun eq_refl)
    as (_ & _ & Hin & _); [..|exact Hgen|exact Hin].
  - vm_compute. eexists. reflexivity.
  - exact Hc.
  - vm_compute. left.
Defined.

(** X17 on the concrete model: [Company] can match [Thing], its ancestor. *)
Lemma can_match_iff_related_witness :
  @keeps_hierarchy Example.demo ∧
  constructed (schemas Example.constructed) ∧
  generate_each (ext := Example.demo) 3 Scenario.order Example.constructed
  = Done tt Example.generated_model ∧
  schemas Example.generated_model !! "Company" = Some Example.company ∧
  schemas Example.generated_model !! "Thing" = Some Scenario.thing ∧
  _matchable_schemata Example.company = None ∧
  fst (can_match "Company" (Ref "Thing") Example.generated_model) = true.
Proof.
  assert (schemas Example.generated_model !! "Company" = Some Example.company)
    as Ha by (vm_compute; reflexivity).
  assert (schemas Example.generated_model !! "Thing" = Some Scenario.thing)
    as Hb by (vm_compute; reflexivity).
  assert (_matchable_schemata Example.company = None) as Hca
    by (vm_compute; reflexivity).
  split; [exact demo_keeps_hierarchy|]. split; [exact demo_constructed|].
  split; [exact demo_generated|]. split; [exact Ha|]. split; [exact Hb|].
  split; [exact Hca|].
  apply (can_match_iff_related (ext := Example.demo) demo_keeps_hierarchy 3
           Scenario.order Example.constructed Example.generated_model
           "Company" "Thing" Example.company Scenario.thing
           demo_constructed demo_order demo_generated Ha Hb Hca).
  split; [vm_compute; reflexivity|]. split; [vm_compute; reflexivity|].
  left. eapply rtc_l; [exact demo_parent_of|].
  eapply rtc_l; [exact demo_grandparent_of|]. apply rtc_refl.
Defined.
